(** * Resource-allocation alternatives (lab2/algorithms.py)

    A shallow embedding of the alternative-generation engine: the five
    allocation strategies, their scores, deduplication, normalization and
    the orchestrating [generate_alternatives].

    Numbers.  Python floats are idealised as exact rationals [Q]; the
    comparisons of the source ([>], [<=], [==]) become the decidable
    comparisons of [Q], so two rationals that denote the same number are
    never told apart.  The source rounds every sum, difference, product
    and quotient to binary64: a property stated for all inputs is one that
    does not depend on the last digit of a result (which ids are written,
    which branch a guard takes on its own operands, a single minimum
    against its operands), and a property about exact sums is stated for
    whole numbers of hours within 2^53 ([exact_hours]), where binary64
    computes the sums, differences and minima of the source exactly.
    [round(x, 1)] is rounding to the nearest tenth with
    ties to even.  A division by zero, which raises in Python, reads as
    [0] in [Q]; the source divides by required hours, available hours and
    list lengths behind its own guards, and none is zero for positive
    hours.

    Dictionaries keyed by an id are [gmap Z Q]; a dictionary whose
    iteration order is observable ([grouped] in the normalization) is an
    association list in insertion order.

    The two [while] loops of the source (strategies 4 and 5) are given
    fuel: [None] means the fuel ran out. *)

From Stdlib Require Import ZArith QArith Qround Qminmax Lia Lqa Ascii String.
From Stdlib Require Import Permutation Sorted Qabs Qpower.
From stdpp Require Import base option list gmap strings.

Local Open Scope Q_scope.

(** ** Comparisons and rounding on rationals *)

Definition Qltb (a b : Q) : bool := negb (Qle_bool b a).


(** [round_half_even q]: the integer nearest to [q], ties to the even one. *)
Definition round_half_even (q : Q) : Z :=
  let f := Qfloor q in
  let d := q - inject_Z f in
  if Qltb d (1#2) then f
  else if Qltb (1#2) d then (f + 1)%Z
  else if Z.even f then f else (f + 1)%Z.

(** Python's [round(x, 1)]. *)
Definition round1 (q : Q) : Q := Qmake (round_half_even (q * 10)) 10.

(** Python's [sum] of a list of floats, starting from [0]. *)
Definition Qsum (l : list Q) : Q := fold_left Qplus l 0.

(** ** Data model (models.py) *)

Module Resource.
Record t := mk { id : Z; name : string; type : string; available_hours : Q }.
End Resource.

Module Task.
Record t := mk { id : Z; title : string; required_hours : Q; priority : Z }.
End Task.

(** An allocation dictionary [{"resource_id", "task_id", "hours"}]. *)
Record Allocation := mkAlloc { resource_id : Z; task_id : Z; hours : Q }.

(** The explanation is a formatted text; the embedding keeps which
    strategy wrote it and the quantities it interpolates. *)
Inductive Explanation :=
| ExplPriority (coverage : Q) (first_priority : option Z)
| ExplBalanced (coverage : Q)
| ExplSpecialization (types : list string) (coverage : Q)
    (type_diversity : nat) (match_ratio : Q)
| ExplOverload (coverage : Q) (max_load : Q)
| ExplGreedy (coverage efficiency : Q).

(** An alternative dictionary [{"explanation", "score", "allocations"}]. *)
Record Alternative := mkAlt {
  explanation : Explanation;
  score : Q;
  allocations : list Allocation
}.

(** ** Dictionaries keyed by id *)

(** [{r.id: r.available_hours for r in resources}]: a later duplicate id
    overwrites an earlier one. *)
Definition hours_dict (resources : list Resource.t) : gmap Z Q :=
  fold_left (fun m r => <[Resource.id r := Resource.available_hours r]> m)
            resources ∅.

Definition zero_dict (resources : list Resource.t) : gmap Z Q :=
  fold_left (fun m r => <[Resource.id r := 0]> m) resources ∅.

Definition requirements_dict (tasks : list Task.t) : gmap Z Q :=
  fold_left (fun m t => <[Task.id t := Task.required_hours t]> m) tasks ∅.

(** [d[k]]: every key read by the strategies was put in the dictionary
    when it was built from the same list, so the [KeyError] branch is
    never taken; it reads as [0] here. *)
Definition get (d : gmap Z Q) (k : Z) : Q := default 0 (d !! k).

(** ** Stable sorting ([sorted] and [list.sort]) *)

Section StableSort.
Context {A : Type} (leb : A -> A -> bool).

Fixpoint insert_sorted (x : A) (l : list A) : list A :=
  match l with
  | [] => [x]
  | y :: l' => if leb x y then x :: y :: l' else y :: insert_sorted x l'
  end.

(** [x] precedes every element of the tail in the input, and is moved
    right only past elements that are strictly smaller. *)
Fixpoint stable_sort (l : list A) : list A :=
  match l with
  | [] => []
  | x :: l' => insert_sorted x (stable_sort l')
  end.
End StableSort.

(** [key=lambda t: t.priority] *)
Definition priority_leb (a b : Task.t) : bool :=
  (Task.priority a <=? Task.priority b)%Z.

(** [key=lambda t: (t.priority, -t.required_hours)], tuples compared
    lexicographically. *)
Definition priority_size_leb (a b : Task.t) : bool :=
  if (Task.priority a <? Task.priority b)%Z then true
  else if (Task.priority b <? Task.priority a)%Z then false
  else Qle_bool (- Task.required_hours a) (- Task.required_hours b).

(** ** Quantities shared by the scores *)

Definition total_required (tasks : list Task.t) : Q :=
  Qsum (map Task.required_hours tasks).

Definition total_available (resources : list Resource.t) : Q :=
  Qsum (map Resource.available_hours resources).

(** [total_allocated / total_required if total_required > 0 else 0] *)
Definition coverage_of (allocated required : Q) : Q :=
  if Qltb 0 required then allocated / required else 0.

(** [sum(a["hours"] for a in allocations if a["resource_id"] == rid)] *)
Definition hours_of_resource (rid : Z) (allocs : list Allocation) : Q :=
  Qsum (map hours (List.filter (fun a => (resource_id a =? rid)%Z) allocs)).

(** [sum(a["hours"] for a in allocations if a["task_id"] == tid)] *)
Definition hours_of_task (tid : Z) (allocs : list Allocation) : Q :=
  Qsum (map hours (List.filter (fun a => (task_id a =? tid)%Z) allocs)).

(** The dictionary [priority_coverage] / [task_coverage]: hours per task
    id, accumulated over the allocations from [0.0]. *)
Definition coverage_dict (allocs : list Allocation) : gmap Z Q :=
  fold_left (fun m a => <[task_id a := get m (task_id a) + hours a]> m)
            allocs ∅.

(** ** Strategy 1: allocation by task priority *)

Module Priority.

Record state := mkState {
  resource_hours : gmap Z Q;
  allocs : list Allocation;
  total_allocated : Q
}.

(** The inner [for resource in resources] of one task. *)
Fixpoint walk (task : Task.t) (rs : list Resource.t)
         (remaining_need : Q) (st : state) : Q * state :=
  match rs with
  | [] => (remaining_need, st)
  | r :: rs' =>
      if Qle_bool remaining_need 0 then (remaining_need, st) (* break *)
      else
        let avail := get (resource_hours st) (Resource.id r) in
        if Qltb 0 avail then
          let hours_to_allocate := Qmin remaining_need avail in
          walk task rs' (remaining_need - hours_to_allocate)
            {| resource_hours :=
                 <[Resource.id r := avail - hours_to_allocate]>
                   (resource_hours st);
               allocs := allocs st ++
                 [mkAlloc (Resource.id r) (Task.id task) hours_to_allocate];
               total_allocated := total_allocated st + hours_to_allocate |}
        else walk task rs' remaining_need st
  end.

(** The outer [for task in sorted_tasks]. *)
Fixpoint run (resources : list Resource.t) (task_requirements : gmap Z Q)
         (sorted_tasks : list Task.t) (st : state) : state :=
  match sorted_tasks with
  | [] => st
  | task :: rest =>
      let remaining_need := get task_requirements (Task.id task) in
      run resources task_requirements rest
          (snd (walk task resources remaining_need st))
  end.

Definition allocate (resources : list Resource.t) (tasks : list Task.t)
  : state :=
  run resources (requirements_dict tasks)
      (stable_sort priority_leb tasks)
      (mkState (hours_dict resources) [] 0).

Definition coverage (resources : list Resource.t) (tasks : list Task.t) : Q :=
  coverage_of (total_allocated (allocate resources tasks))
              (total_required tasks).

(** [sum((6 - t.priority) * min(1.0, covered / t.required_hours)
         for t in sorted_tasks) / len(tasks) if tasks else 0] *)
Definition priority_bonus (resources : list Resource.t)
           (tasks : list Task.t) : Q :=
  match tasks with
  | [] => 0
  | _ =>
      let covered := coverage_dict (allocs (allocate resources tasks)) in
      Qsum (map (fun t =>
                   inject_Z (6 - Task.priority t)
                   * Qmin 1 (get covered (Task.id t) / Task.required_hours t))
                (stable_sort priority_leb tasks))
      / inject_Z (Z.of_nat (length tasks))
  end.

(** [sum(max(0, allocated(r) - r.available_hours) for r in resources)
     / total_required if total_required > 0 else 0] *)
Definition overload_penalty (resources : list Resource.t)
           (tasks : list Task.t) : Q :=
  if Qltb 0 (total_required tasks) then
    Qsum (map (fun r =>
                 Qmax 0 (hours_of_resource (Resource.id r)
                           (allocs (allocate resources tasks))
                         - Resource.available_hours r))
              resources)
    / total_required tasks
  else 0.

Definition score_of (resources : list Resource.t) (tasks : list Task.t) : Q :=
  Qmax 0 (coverage resources tasks * 50
          + priority_bonus resources tasks * 20
          - overload_penalty resources tasks * 30).

Definition _priority_based_allocation (resources : list Resource.t)
           (tasks : list Task.t) : Alternative :=
  {| explanation :=
       ExplPriority (coverage resources tasks)
         (Task.priority <$> head (stable_sort priority_leb tasks));
     score := score_of resources tasks;
     allocations := allocs (allocate resources tasks) |}.

End Priority.

Definition scenario_resources : list Resource.t :=
  [Resource.mk 1 "R1" "developer" 10; Resource.mk 2 "R2" "designer" 5].

Definition scenario_tasks : list Task.t :=
  [Task.mk 1 "Develop feature" 8 1; Task.mk 2 "Design UI" 4 2].


(** ** Variance of the resource loads *)

(** [resource_load]: [0.0] for every resource, then every allocation
    added to its resource.  The source raises [KeyError] on an allocation
    whose resource id is not in the list, and [OverflowError] when the
    square of a load leaves the floats; the id reads as [0] here, and the
    properties of the variance are stated for allocations that name
    resources of the list and keep them within their available hours,
    as the strategies write them. *)
Definition load_dict (resources : list Resource.t)
           (allocs : list Allocation) : gmap Z Q :=
  fold_left (fun m a => <[resource_id a := get m (resource_id a) + hours a]> m)
            allocs (zero_dict resources).

Definition mean (l : list Q) : Q := Qsum l / inject_Z (Z.of_nat (length l)).

(** [sum((x - mean) ** 2 for x in l) / len(l)] *)
Definition variance (l : list Q) : Q :=
  Qsum (map (fun x => (x - mean l) ^ 2) l) / inject_Z (Z.of_nat (length l)).

Definition _calculate_balance_variance (resources : list Resource.t)
           (allocs : list Allocation) : Q :=
  let resource_load := load_dict resources allocs in
  let loads :=
    map (fun r =>
           if Qltb 0 (Resource.available_hours r)
           then get resource_load (Resource.id r) / Resource.available_hours r
           else 0)
        resources in
  match loads with
  | [] => 0
  | _ => Qmin 1 (variance loads)
  end.

(** ** Strategy 2: balanced (proportional) allocation *)

Module Balanced.

Record state := mkState {
  resource_hours : gmap Z Q;
  allocs : list Allocation;
  total_allocated : Q
}.

(** The inner [for resource in resources] of one task. *)
Fixpoint walk (task : Task.t) (task_share : Q) (rs : list Resource.t)
         (allocated_to_task : Q) (st : state) : Q * state :=
  match rs with
  | [] => (allocated_to_task, st)
  | r :: rs' =>
      if Qle_bool task_share allocated_to_task
      then (allocated_to_task, st) (* break *)
      else
        let avail := get (resource_hours st) (Resource.id r) in
        if Qltb 0 avail then
          let remaining_need := task_share - allocated_to_task in
          let hours_to_allocate := Qmin remaining_need avail in
          walk task task_share rs' (allocated_to_task + hours_to_allocate)
            {| resource_hours :=
                 <[Resource.id r := avail - hours_to_allocate]>
                   (resource_hours st);
               allocs := allocs st ++
                 [mkAlloc (Resource.id r) (Task.id task) hours_to_allocate];
               total_allocated := total_allocated st + hours_to_allocate |}
        else walk task task_share rs' allocated_to_task st
  end.

(** [{t.id: t.required_hours / total_required for t in tasks}] *)
Definition proportions_dict (tasks : list Task.t) : gmap Z Q :=
  fold_left (fun m t =>
               <[Task.id t := Task.required_hours t / total_required tasks]> m)
            tasks ∅.

Fixpoint run (resources : list Resource.t) (task_proportions : gmap Z Q)
         (available : Q) (tasks : list Task.t) (st : state) : state :=
  match tasks with
  | [] => st
  | task :: rest =>
      let task_share := get task_proportions (Task.id task) * available in
      run resources task_proportions available rest
          (snd (walk task task_share resources 0 st))
  end.

Definition allocate (resources : list Resource.t) (tasks : list Task.t)
  : state :=
  run resources (proportions_dict tasks) (total_available resources) tasks
      (mkState (hours_dict resources) [] 0).

Definition coverage (resources : list Resource.t) (tasks : list Task.t) : Q :=
  coverage_of (total_allocated (allocate resources tasks))
              (total_required tasks).

Definition fairness_score (resources : list Resource.t)
           (tasks : list Task.t) : Q :=
  let task_coverage := coverage_dict (allocs (allocate resources tasks)) in
  let task_coverage_variance :=
    match tasks with
    | [] => 0
    | _ => variance (map (fun t => get task_coverage (Task.id t)
                                     / Task.required_hours t) tasks)
    end in
  1 - Qmin 1 task_coverage_variance.

Definition score_of (resources : list Resource.t) (tasks : list Task.t) : Q :=
  coverage resources tasks * 40
  + (1 - _calculate_balance_variance resources
           (allocs (allocate resources tasks))) * 25
  + fairness_score resources tasks * 15.

(** [None] is the source's [return None]. *)
Definition _balanced_allocation (resources : list Resource.t)
           (tasks : list Task.t) : option Alternative :=
  if Qeq_bool (total_available resources) 0
     || Qeq_bool (total_required tasks) 0
  then None
  else Some {| explanation := ExplBalanced (coverage resources tasks);
               score := score_of resources tasks;
               allocations := allocs (allocate resources tasks) |}.

End Balanced.

(** ** Strings: [str.lower] and the [in] test on strings *)

Local Open Scope N_scope.

(** [lower] on UTF-8 text: the capitals of ASCII and of the Cyrillic block
    U+0400..U+042F are mapped to their small letters; every other code
    point is kept (Python also lowers the capitals of other alphabets). *)
Fixpoint lower (s : string) : string :=
  match s with
  | EmptyString => EmptyString
  | String c s' =>
      let n := N_of_ascii c in
      if (65 <=? n) && (n <=? 90)
      then String (ascii_of_N (n + 32)) (lower s')
      else if n =? 208 then
        match s' with
        | EmptyString => String c EmptyString
        | String c2 s'' =>
            let m := N_of_ascii c2 in
            if (144 <=? m) && (m <=? 159)
            then String c (String (ascii_of_N (m + 32)) (lower s''))
            else if (160 <=? m) && (m <=? 175)
            then String (ascii_of_N 209) (String (ascii_of_N (m - 32)) (lower s''))
            else if (128 <=? m) && (m <=? 143)
            then String (ascii_of_N 209) (String (ascii_of_N (m + 16)) (lower s''))
            else String c (String c2 (lower s''))
        end
      else String c (lower s')
  end.

Local Close Scope N_scope.

Fixpoint starts_with (p s : string) : bool :=
  match p, s with
  | EmptyString, _ => true
  | String a p', String b s' => if Ascii.eqb a b then starts_with p' s' else false
  | String _ _, EmptyString => false
  end.

(** [keyword in text] *)
Fixpoint contains (text keyword : string) : bool :=
  if starts_with keyword text then true
  else match text with
       | EmptyString => false
       | String _ text' => contains text' keyword
       end.




(** ** Strategy 3: allocation by specialization *)

Module Specialization.

(** The dictionary [type_matching], in the order it is written. *)
Definition type_matching : list (string * list string) :=
  [ ("разработчик",
      ["разработка"; "код"; "программирование"; "функционал"; "система"]);
    ("дизайнер", ["дизайн"; "интерфейс"; "ui"; "ux"; "макет"]);
    ("тестировщик", ["тестирование"; "тест"; "проверка"; "qa"]);
    ("аналитик", ["анализ"; "требования"; "документация"; "исследование"]);
    ("менеджер проекта",
      ["проект"; "управление"; "координация"; "планирование"]) ]%string.

(** [resources_by_type]: the resources of every type, the types in the
    order they first appear. *)
Fixpoint add_by_type (r : Resource.t)
         (d : list (string * list Resource.t)) : list (string * list Resource.t) :=
  match d with
  | [] => [(Resource.type r, [r])]
  | (ty, rs) :: d' =>
      if String.eqb ty (Resource.type r) then (ty, rs ++ [r]) :: d'
      else (ty, rs) :: add_by_type r d'
  end.

Definition group_by_type (resources : list Resource.t)
  : list (string * list Resource.t) :=
  fold_left (fun d r => add_by_type r d) resources [].

Fixpoint lookup_type (ty : string) (d : list (string * list Resource.t))
  : option (list Resource.t) :=
  match d with
  | [] => None
  | (ty', rs) :: d' => if String.eqb ty' ty then Some rs else lookup_type ty d'
  end.

Definition suitable_types_of (task : Task.t) : list string :=
  let task_title_lower := lower (Task.title task) in
  map fst (List.filter
             (fun '(_, keywords) =>
                existsb (fun keyword => contains task_title_lower keyword)
                        keywords)
             type_matching).

Definition resources_to_try_of (resources : list Resource.t)
           (resources_by_type : list (string * list Resource.t))
           (suitable_types : list string) : list Resource.t :=
  match suitable_types with
  | [] => resources
  | _ => concat (map (fun ty => default [] (lookup_type ty resources_by_type))
                     suitable_types)
  end.

Record state := mkState {
  resource_hours : gmap Z Q;
  resource_allocated : gmap Z Q;
  allocs : list Allocation;
  total_allocated : Q;
  type_matches : nat
}.

Definition commit (matched : bool) (r : Resource.t) (task : Task.t)
           (hours_to_allocate : Q) (st : state) : state :=
  {| resource_hours :=
       <[Resource.id r := get (resource_hours st) (Resource.id r)
                          - hours_to_allocate]> (resource_hours st);
     resource_allocated :=
       <[Resource.id r := get (resource_allocated st) (Resource.id r)
                          + hours_to_allocate]> (resource_allocated st);
     allocs := allocs st ++
       [mkAlloc (Resource.id r) (Task.id task) hours_to_allocate];
     total_allocated := total_allocated st + hours_to_allocate;
     type_matches := if matched then S (type_matches st) else type_matches st |}.

(** [resource.type in suitable_types] *)
Definition type_in (r : Resource.t) (suitable_types : list string) : bool :=
  existsb (String.eqb (Resource.type r)) suitable_types.

(** The first pass, [for resource in resources_to_try]. *)
Fixpoint first_pass (task : Task.t) (suitable_types : list string)
         (rs : list Resource.t) (remaining_need : Q) (st : state)
  : Q * state :=
  match rs with
  | [] => (remaining_need, st)
  | r :: rs' =>
      if Qle_bool remaining_need 0 then (remaining_need, st) (* break *)
      else
        let avail := get (resource_hours st) (Resource.id r) in
        if Qltb 0 avail then
          let hours_to_allocate := Qmin remaining_need avail in
          first_pass task suitable_types rs'
            (remaining_need - hours_to_allocate)
            (commit (type_in r suitable_types) r task hours_to_allocate st)
        else first_pass task suitable_types rs' remaining_need st
  end.

(** [resource in resources_to_try]: resources are rows of one table, two
    of them are the same object exactly when their ids are equal. *)
Definition resource_in (r : Resource.t) (l : list Resource.t) : bool :=
  existsb (fun r' => (Resource.id r' =? Resource.id r)%Z) l.

(** The second pass, over the resources not yet tried. *)
Fixpoint second_pass (task : Task.t) (tried : list Resource.t)
         (rs : list Resource.t) (remaining_need : Q) (st : state)
  : Q * state :=
  match rs with
  | [] => (remaining_need, st)
  | r :: rs' =>
      if Qle_bool remaining_need 0 then (remaining_need, st) (* break *)
      else
        let avail := get (resource_hours st) (Resource.id r) in
        if Qltb 0 avail && negb (resource_in r tried) then
          let hours_to_allocate := Qmin remaining_need avail in
          second_pass task tried rs' (remaining_need - hours_to_allocate)
            (commit false r task hours_to_allocate st)
        else second_pass task tried rs' remaining_need st
  end.

Definition one_task (resources : list Resource.t)
           (resources_by_type : list (string * list Resource.t))
           (task_requirements : gmap Z Q) (task : Task.t) (st : state)
  : Q * state :=
  let remaining_need := get task_requirements (Task.id task) in
  let suitable_types := suitable_types_of task in
  let resources_to_try :=
    resources_to_try_of resources resources_by_type suitable_types in
  let '(remaining_need, st) :=
    first_pass task suitable_types resources_to_try remaining_need st in
  if Qltb 0 remaining_need
  then second_pass task resources_to_try resources remaining_need st
  else (remaining_need, st).

Fixpoint run (resources : list Resource.t)
         (resources_by_type : list (string * list Resource.t))
         (task_requirements : gmap Z Q)
         (sorted_tasks : list Task.t) (st : state) : state :=
  match sorted_tasks with
  | [] => st
  | task :: rest =>
      run resources resources_by_type task_requirements rest
          (snd (one_task resources resources_by_type task_requirements task st))
  end.

Definition allocate (resources : list Resource.t) (tasks : list Task.t)
  : state :=
  run resources (group_by_type resources) (requirements_dict tasks)
      (stable_sort priority_size_leb tasks)
      (mkState (hours_dict resources) (zero_dict resources) [] 0 0).

Definition coverage (resources : list Resource.t) (tasks : list Task.t) : Q :=
  coverage_of (total_allocated (allocate resources tasks))
              (total_required tasks).

(** [set(...)] of strings, then [len]. *)
Fixpoint distinct (l : list string) : list string :=
  match l with
  | [] => []
  | x :: l' => if existsb (String.eqb x) l' then distinct l' else x :: distinct l'
  end.

Definition type_diversity (resources : list Resource.t)
           (allocs : list Allocation) : nat :=
  length (distinct
            (map Resource.type
                 (List.filter
                    (fun r => existsb (fun a => (resource_id a =? Resource.id r)%Z)
                                      allocs)
                    resources))).

Definition match_ratio (st : state) : Q :=
  match allocs st with
  | [] => 0
  | _ => inject_Z (Z.of_nat (type_matches st))
         / inject_Z (Z.of_nat (length (allocs st)))
  end.

Definition score_of (resources : list Resource.t) (tasks : list Task.t) : Q :=
  let st := allocate resources tasks in
  let resources_by_type := group_by_type resources in
  (match resources_by_type with
   | [] => coverage resources tasks * 40
   | _ => coverage resources tasks * 40
          + (inject_Z (Z.of_nat (type_diversity resources (allocs st)))
             / inject_Z (Z.of_nat (length resources_by_type))) * 20
   end)
  + match_ratio st * 15.

Definition _specialization_based_allocation (resources : list Resource.t)
           (tasks : list Task.t) : Alternative :=
  let st := allocate resources tasks in
  {| explanation :=
       ExplSpecialization (map fst (group_by_type resources))
         (coverage resources tasks)
         (type_diversity resources (allocs st)) (match_ratio st);
     score := score_of resources tasks;
     allocations := allocs st |}.

End Specialization.

(** ** Selecting a resource by a key *)

(** [min(l, key=...)] keeps the first of the smallest elements. *)
Fixpoint min_by (key : Resource.t -> Q) (best : Resource.t)
         (l : list Resource.t) : Resource.t :=
  match l with
  | [] => best
  | r :: l' => if Qltb (key r) (key best) then min_by key r l'
               else min_by key best l'
  end.

(** [a > b] on pairs of floats. *)
Definition pair_gtb (a b : Q * Q) : bool :=
  if Qltb (fst b) (fst a) then true
  else if Qltb (fst a) (fst b) then false
  else Qltb (snd b) (snd a).

(** [max(l, key=...)] with a pair as key keeps the first of the largest. *)
Fixpoint max_by (key : Resource.t -> Q * Q) (best : Resource.t)
         (l : list Resource.t) : Resource.t :=
  match l with
  | [] => best
  | r :: l' => if pair_gtb (key r) (key best) then max_by key r l'
               else max_by key best l'
  end.

(** ** Strategy 4: minimizing the overload *)

Module Overload.

Record state := mkState {
  resource_hours : gmap Z Q;
  resource_allocated : gmap Z Q;
  allocs : list Allocation
}.

(** [total_required / len(resources) if resources else 0] *)
Definition ideal_load (resources : list Resource.t) (tasks : list Task.t) : Q :=
  match resources with
  | [] => 0
  | _ => total_required tasks / inject_Z (Z.of_nat (length resources))
  end.

(** The resources with spare hours whose load is under the cap. *)
Definition under_cap (ideal_load_per_resource : Q)
           (resources : list Resource.t) (st : state) : list Resource.t :=
  List.filter
    (fun r => Qltb 0 (get (resource_hours st) (Resource.id r))
              && Qltb (get (resource_allocated st) (Resource.id r))
                      (ideal_load_per_resource * 1.2))
    resources.

(** The fallback: any resource with spare hours. *)
Definition with_hours (resources : list Resource.t) (st : state)
  : list Resource.t :=
  List.filter (fun r => Qltb 0 (get (resource_hours st) (Resource.id r)))
              resources.

Definition available_resources (ideal_load_per_resource : Q)
           (resources : list Resource.t) (st : state) : list Resource.t :=
  match under_cap ideal_load_per_resource resources st with
  | [] => with_hours resources st
  | l => l
  end.

(** [min(remaining_need, resource_hours[best], ideal * 1.2 - allocated[best])]:
    the three-argument [min] of the source, whichever list [best] came
    from. *)
Definition hours_to_allocate (ideal_load_per_resource : Q)
           (best : Resource.t) (remaining_need : Q) (st : state) : Q :=
  Qmin (Qmin remaining_need (get (resource_hours st) (Resource.id best)))
       (ideal_load_per_resource * 1.2
        - get (resource_allocated st) (Resource.id best)).

Definition commit (best : Resource.t) (task : Task.t) (h : Q) (st : state)
  : state :=
  {| resource_hours :=
       <[Resource.id best := get (resource_hours st) (Resource.id best) - h]>
         (resource_hours st);
     resource_allocated :=
       <[Resource.id best := get (resource_allocated st) (Resource.id best) + h]>
         (resource_allocated st);
     allocs := allocs st ++ [mkAlloc (Resource.id best) (Task.id task) h] |}.

(** One iteration of [while remaining_need > 0], entered with
    [remaining_need > 0]: [None] is [break], otherwise the need and the
    state the next iteration starts from. *)
Definition body (ideal_load_per_resource : Q) (resources : list Resource.t)
           (task : Task.t) (remaining_need : Q) (st : state)
  : option (Q * state) :=
  match available_resources ideal_load_per_resource resources st with
  | [] => None
  | r :: l =>
      let best :=
        min_by (fun r => get (resource_allocated st) (Resource.id r)) r l in
      let h := hours_to_allocate ideal_load_per_resource best remaining_need st in
      if Qltb 0 h
      then Some (remaining_need - h, commit best task h st)
      else Some (remaining_need, st)
  end.

(** The [while] loop of one task; [None] when the fuel runs out. *)
Fixpoint while (fuel : nat) (ideal_load_per_resource : Q)
         (resources : list Resource.t) (task : Task.t)
         (remaining_need : Q) (st : state) : option state :=
  match fuel with
  | O => None
  | S fuel' =>
      if Qltb 0 remaining_need then
        match body ideal_load_per_resource resources task remaining_need st with
        | None => Some st
        | Some (need', st') =>
            while fuel' ideal_load_per_resource resources task need' st'
        end
      else Some st
  end.

Fixpoint run (fuel : nat) (ideal_load_per_resource : Q)
         (resources : list Resource.t) (task_requirements : gmap Z Q)
         (sorted_tasks : list Task.t) (st : state) : option state :=
  match sorted_tasks with
  | [] => Some st
  | task :: rest =>
      match while fuel ideal_load_per_resource resources task
                  (get task_requirements (Task.id task)) st with
      | None => None
      | Some st' =>
          run fuel ideal_load_per_resource resources task_requirements rest st'
      end
  end.

Definition allocate (fuel : nat) (resources : list Resource.t)
           (tasks : list Task.t) : option state :=
  run fuel (ideal_load resources tasks) resources (requirements_dict tasks)
      (stable_sort priority_size_leb tasks)
      (mkState (hours_dict resources) (zero_dict resources) []).

Definition total_allocated (st : state) : Q := Qsum (map hours (allocs st)).

Definition coverage (tasks : list Task.t) (st : state) : Q :=
  coverage_of (total_allocated st) (total_required tasks).

Definition balance (resources : list Resource.t) (tasks : list Task.t)
           (st : state) : Q :=
  let overload_penalty :=
    Qsum (map (fun r => Qmax 0 (get (resource_allocated st) (Resource.id r)
                                - Resource.available_hours r))
              resources) in
  if Qltb 0 (total_required tasks)
  then 1 - overload_penalty / total_required tasks
  else 1.

Definition score_of (resources : list Resource.t) (tasks : list Task.t)
           (st : state) : Q :=
  coverage tasks st * 40 + balance resources tasks st * 35.

(** [max(resource_allocated.values())] *)
Definition max_load (resources : list Resource.t) (st : state) : Q :=
  match map (fun r => get (resource_allocated st) (Resource.id r)) resources with
  | [] => 0
  | v :: vs => fold_left Qmax vs v
  end.

(** The outer [option] is the fuel, the inner one the source's
    [return None]. *)
Definition _minimize_overload_allocation (fuel : nat)
           (resources : list Resource.t) (tasks : list Task.t)
  : option (option Alternative) :=
  if Qeq_bool (total_available resources) 0 then Some None
  else
    match allocate fuel resources tasks with
    | None => None
    | Some st =>
        Some (Some {| explanation :=
                        ExplOverload (coverage tasks st) (max_load resources st);
                      score := score_of resources tasks st;
                      allocations := allocs st |})
    end.

End Overload.

(** ** Strategy 5: greedy allocation *)

Module Greedy.

Record state := mkState {
  resource_hours : gmap Z Q;
  resource_allocated : gmap Z Q;
  allocs : list Allocation;
  total_allocated : Q
}.

(** The resources whose spare hours clear the 0.1 threshold. *)
Definition available_resources (resources : list Resource.t) (st : state)
  : list Resource.t :=
  List.filter (fun r => Qltb 0.1 (get (resource_hours st) (Resource.id r)))
              resources.

(** The key of [max]: (hours / max(allocated, 1.0), hours). *)
Definition efficiency_key (st : state) (r : Resource.t) : Q * Q :=
  (get (resource_hours st) (Resource.id r)
   / Qmax (get (resource_allocated st) (Resource.id r)) 1,
   get (resource_hours st) (Resource.id r)).

Definition commit (best : Resource.t) (task : Task.t) (h : Q) (st : state)
  : state :=
  {| resource_hours :=
       <[Resource.id best := get (resource_hours st) (Resource.id best) - h]>
         (resource_hours st);
     resource_allocated :=
       <[Resource.id best := get (resource_allocated st) (Resource.id best) + h]>
         (resource_allocated st);
     allocs := allocs st ++ [mkAlloc (Resource.id best) (Task.id task) h];
     total_allocated := total_allocated st + h |}.

(** One iteration of [while remaining_need > 0]; [None] is [break]. *)
Definition body (resources : list Resource.t) (task : Task.t)
           (remaining_need : Q) (st : state) : option (Q * state) :=
  match available_resources resources st with
  | [] => None
  | r :: l =>
      let best := max_by (efficiency_key st) r l in
      let hours_to_allocate :=
        Qmin remaining_need (get (resource_hours st) (Resource.id best)) in
      if Qltb 0.1 hours_to_allocate
      then Some (remaining_need - hours_to_allocate,
                 commit best task hours_to_allocate st)
      else Some (remaining_need, st)
  end.

Fixpoint while (fuel : nat) (resources : list Resource.t) (task : Task.t)
         (remaining_need : Q) (st : state) : option state :=
  match fuel with
  | O => None
  | S fuel' =>
      if Qltb 0 remaining_need then
        match body resources task remaining_need st with
        | None => Some st
        | Some (need', st') => while fuel' resources task need' st'
        end
      else Some st
  end.

Fixpoint run (fuel : nat) (resources : list Resource.t)
         (task_requirements : gmap Z Q)
         (sorted_tasks : list Task.t) (st : state) : option state :=
  match sorted_tasks with
  | [] => Some st
  | task :: rest =>
      match while fuel resources task
                  (get task_requirements (Task.id task)) st with
      | None => None
      | Some st' => run fuel resources task_requirements rest st'
      end
  end.

Definition allocate (fuel : nat) (resources : list Resource.t)
           (tasks : list Task.t) : option state :=
  run fuel resources (requirements_dict tasks)
      (stable_sort priority_size_leb tasks)
      (mkState (hours_dict resources) (zero_dict resources) [] 0).

Definition coverage (tasks : list Task.t) (st : state) : Q :=
  coverage_of (total_allocated st) (total_required tasks).

(** [sum(min(1.0, allocated / available) for r in resources
         if r.available_hours > 0) / len(resources) if resources else 0] *)
Definition efficiency (resources : list Resource.t) (st : state) : Q :=
  match resources with
  | [] => 0
  | _ =>
      Qsum (map (fun r => Qmin 1 (get (resource_allocated st) (Resource.id r)
                                  / Resource.available_hours r))
                (List.filter (fun r => Qltb 0 (Resource.available_hours r))
                             resources))
      / inject_Z (Z.of_nat (length resources))
  end.

Definition priority_coverage (tasks : list Task.t) (st : state) : Q :=
  match tasks with
  | [] => 0
  | _ =>
      let task_requirements := requirements_dict tasks in
      Qsum (map (fun t =>
                   let req := get task_requirements (Task.id t) in
                   inject_Z (6 - Task.priority t)
                   * Qmin 1 ((req - (req - hours_of_task (Task.id t) (allocs st)))
                             / req))
                (stable_sort priority_size_leb tasks))
      / inject_Z (Z.of_nat (length tasks))
  end.

Definition score_of (resources : list Resource.t) (tasks : list Task.t)
           (st : state) : Q :=
  coverage tasks st * 50 + efficiency resources st * 25
  + priority_coverage tasks st * 15.

Definition _greedy_optimized_allocation (fuel : nat)
           (resources : list Resource.t) (tasks : list Task.t)
  : option Alternative :=
  match allocate fuel resources tasks with
  | None => None
  | Some st =>
      Some {| explanation :=
                ExplGreedy (coverage tasks st) (efficiency resources st);
              score := score_of resources tasks st;
              allocations := allocs st |}
  end.

End Greedy.

(** ** Deduplication *)

(** One entry of the key: [(resource_id, task_id, round(hours, 1))]. *)
Definition entry : Type := Z * Z * Q.

Definition entry_of (a : Allocation) : entry :=
  (resource_id a, task_id a, round1 (hours a)).

(** [<] and [==] on the entries, as Python compares tuples. *)
Definition entry_ltb (x y : entry) : bool :=
  let '(r1, t1, h1) := x in
  let '(r2, t2, h2) := y in
  if (r1 <? r2)%Z then true
  else if (r2 <? r1)%Z then false
  else if (t1 <? t2)%Z then true
  else if (t2 <? t1)%Z then false
  else Qltb h1 h2.

Definition entry_eqb (x y : entry) : bool :=
  let '(r1, t1, h1) := x in
  let '(r2, t2, h2) := y in
  (r1 =? r2)%Z && (t1 =? t2)%Z && Qeq_bool h1 h2.

Definition entry_leb (x y : entry) : bool := negb (entry_ltb y x).

(** [tuple(sorted(...))] over the allocations of an alternative. *)
Definition allocations_key (alt : Alternative) : list entry :=
  stable_sort entry_leb (map entry_of (allocations alt)).

(** [==] on two such tuples. *)
Fixpoint key_eqb (k1 k2 : list entry) : bool :=
  match k1, k2 with
  | [], [] => true
  | x :: k1', y :: k2' => entry_eqb x y && key_eqb k1' k2'
  | _, _ => false
  end.

(** The [else] branch: the first kept alternative with the same key and a
    smaller score is replaced, and the search stops there. *)
Fixpoint replace_better (alt : Alternative) (unique : list Alternative)
  : list Alternative :=
  match unique with
  | [] => []
  | existing_alt :: rest =>
      if key_eqb (allocations_key existing_alt) (allocations_key alt)
         && Qltb (score existing_alt) (score alt)
      then alt :: rest (* break *)
      else existing_alt :: replace_better alt rest
  end.

(** The loop of [_remove_duplicates] on the pair [(seen, unique)]. *)
Fixpoint dedup_loop (alternatives : list Alternative)
         (seen : list (list entry)) (unique : list Alternative)
  : list Alternative :=
  match alternatives with
  | [] => unique
  | alt :: rest =>
      if existsb (key_eqb (allocations_key alt)) seen
      then dedup_loop rest seen (replace_better alt unique)
      else dedup_loop rest (seen ++ [allocations_key alt]) (unique ++ [alt])
  end.

Definition _remove_duplicates (alternatives : list Alternative)
  : list Alternative :=
  dedup_loop alternatives [] [].

(** ** Normalization *)

(** The dictionary [grouped], keyed by [(resource_id, task_id)], in
    insertion order: a new key starts from [0.0]. *)
Fixpoint add_grouped (key : Z * Z) (h : Q) (grouped : list (Z * Z * Q))
  : list (Z * Z * Q) :=
  match grouped with
  | [] => [(key, 0 + h)]
  | (k, v) :: rest =>
      if (fst k =? fst key)%Z && (snd k =? snd key)%Z
      then (k, v + h) :: rest
      else (k, v) :: add_grouped key h rest
  end.

Definition group_allocations (allocs : list Allocation) : list (Z * Z * Q) :=
  fold_left (fun grouped a => add_grouped (resource_id a, task_id a) (hours a) grouped)
            allocs [].

(** The comprehension: the entries with [hours >= 0.5], rounded. *)
Definition normalized_allocations (allocs : list Allocation) : list Allocation :=
  map (fun '(rid, tid, h) => mkAlloc rid tid (round1 h))
      (List.filter (fun '(_, h) => Qle_bool 0.5 h) (group_allocations allocs)).

Fixpoint _normalize_allocations (alternatives : list Alternative)
  : list Alternative :=
  match alternatives with
  | [] => []
  | alt :: rest =>
      match normalized_allocations (allocations alt) with
      | [] => _normalize_allocations rest
      | l => {| explanation := explanation alt; score := score alt;
                allocations := l |} :: _normalize_allocations rest
      end
  end.

(** ** Orchestration *)

(** [alternatives.append(alt)] when the strategy returned one. *)
Definition append_alt (alternatives : list Alternative)
           (alt : option Alternative) : list Alternative :=
  match alt with
  | Some a => alternatives ++ [a]
  | None => alternatives
  end.

(** The alternatives of the five strategies, in the order they are run;
    [None] when a [while] loop ran out of fuel. *)
Definition collect_alternatives (fuel : nat) (resources : list Resource.t)
           (tasks : list Task.t) : option (list Alternative) :=
  let alternatives := [] in
  let alternatives :=
    append_alt alternatives
      (Some (Priority._priority_based_allocation resources tasks)) in
  let alternatives :=
    append_alt alternatives (Balanced._balanced_allocation resources tasks) in
  let alternatives :=
    append_alt alternatives
      (Some (Specialization._specialization_based_allocation resources tasks)) in
  match Overload._minimize_overload_allocation fuel resources tasks with
  | None => None
  | Some alt4 =>
      let alternatives := append_alt alternatives alt4 in
      match Greedy._greedy_optimized_allocation fuel resources tasks with
      | None => None
      | Some alt5 => Some (append_alt alternatives (Some alt5))
      end
  end.

(** [key=lambda x: x["score"], reverse=True] *)
Definition score_geb (a b : Alternative) : bool := Qle_bool (score b) (score a).

Definition generate_alternatives (fuel : nat) (resources : list Resource.t)
           (tasks : list Task.t) : option (list Alternative) :=
  match resources, tasks with
  | [], _ | _, [] => Some []
  | _, _ =>
      match collect_alternatives fuel resources tasks with
      | None => None
      | Some alternatives =>
          Some (stable_sort score_geb
                  (_normalize_allocations (_remove_duplicates alternatives)))
      end
  end.

(** ** The input contract and the properties of the specification *)

(** Resources and tasks are rows with a primary key, positive hours and a
    priority from 1 to 5. *)
Record input_contract (resources : list Resource.t) (tasks : list Task.t)
  : Prop := {
  resource_ids_distinct : List.NoDup (map Resource.id resources);
  task_ids_distinct : List.NoDup (map Task.id tasks);
  available_positive :
    Forall (fun r => 0 < Resource.available_hours r) resources;
  required_positive : Forall (fun t => 0 < Task.required_hours t) tasks;
  priority_in_range :
    Forall (fun t => (1 <= Task.priority t <= 5)%Z) tasks
}.

(** The capacity invariant of one alternative. *)
Definition within_capacity (resources : list Resource.t)
           (allocs : list Allocation) : Prop :=
  forall r, In r resources ->
            hours_of_resource (Resource.id r) allocs
            <= Resource.available_hours r.

(** What the strategies maintain between the remaining hours and the
    allocations written so far: the remaining hours are never negative
    and, with the hours committed, add up to the available hours. *)
Definition capacity_invariant (resources : list Resource.t)
           (remaining : gmap Z Q) (allocs : list Allocation) : Prop :=
  forall r, In r resources ->
            0 <= get remaining (Resource.id r)
            /\ hours_of_resource (Resource.id r) allocs
               + get remaining (Resource.id r)
               == Resource.available_hours r.

(** Two alternatives carry the same rounded entries, whatever their order:
    as collections with repetitions, and as plain sets. *)
Definition same_entries (a b : Alternative) : Prop :=
  Permutation (map entry_of (allocations a)) (map entry_of (allocations b)).

Definition same_entry_set (a b : Alternative) : Prop :=
  forall e, In e (map entry_of (allocations a))
            <-> In e (map entry_of (allocations b)).

(** An entry whose hours are a number of tenths, as [round1] writes
    them. *)
Definition canonical (e : entry) : Prop := Qden (snd e) = 10%positive.

(** The order of the sorted keys, on such entries. *)
Definition key_le (x y : entry) : Prop :=
  canonical x /\ canonical y /\ entry_leb x y = true.

(** [s] is the first of the best-scored alternatives of its class in
    [alternatives]. *)
Definition first_best (alternatives : list Alternative) (s : Alternative)
  : Prop :=
  exists before after,
    alternatives = before ++ s :: after
    /\ (forall a, In a before -> same_entries a s -> score a < score s)
    /\ (forall a, In a after -> same_entries a s -> score a <= score s).

(** What the loop of [_remove_duplicates] maintains between the
    alternatives already read and the ones kept. *)
Definition dedup_invariant (processed unique : list Alternative) : Prop :=
  List.NoDup (map allocations_key unique)
  /\ (forall u, In u unique -> first_best processed u)
  /\ (forall a, In a processed ->
                In (allocations_key a) (map allocations_key unique)).


(** *** Normalization, as a reference *)

Definition pair_eqb (k1 k2 : Z * Z) : bool :=
  (fst k1 =? fst k2)%Z && (snd k1 =? snd k2)%Z.

Definition key_of (a : Allocation) : Z * Z := (resource_id a, task_id a).

(** The keys of a list, each once, in the order of first appearance. *)
Fixpoint distinct_keys (l : list (Z * Z)) : list (Z * Z) :=
  match l with
  | [] => []
  | k :: l' =>
      k :: List.filter (fun k' => negb (pair_eqb k' k)) (distinct_keys l')
  end.

(** The hours of the records of one (resource, task) pair, summed. *)
Definition summed_hours (k : Z * Z) (allocs : list Allocation) : Q :=
  Qsum (map hours (List.filter (fun a => pair_eqb (key_of a) k) allocs)).

Definition grouped_reference (allocs : list Allocation) : list (Z * Z * Q) :=
  map (fun k => (k, summed_hours k allocs)) (distinct_keys (map key_of allocs)).

Definition rounded (g : Z * Z * Q) : Allocation :=
  mkAlloc (fst (fst g)) (snd (fst g)) (round1 (snd g)).

(** Group and sum, round, then drop the rounded entries below 0.5. *)
Definition round_then_drop (allocs : list Allocation) : list Allocation :=
  List.filter (fun a => negb (Qltb (hours a) 0.5))
              (map rounded (grouped_reference allocs)).

(** Group and sum, drop the sums below 0.5, then round. *)
Definition drop_then_round (allocs : list Allocation) : list Allocation :=
  map rounded
      (List.filter (fun g => negb (Qltb (snd g) 0.5)) (grouped_reference allocs)).

(** An alternative left without entries is dropped. *)
Definition normalize_with (f : list Allocation -> list Allocation)
           (alternatives : list Alternative) : list Alternative :=
  flat_map (fun alt =>
              match f (allocations alt) with
              | [] => []
              | l => [{| explanation := explanation alt; score := score alt;
                         allocations := l |}]
              end)
           alternatives.

Definition normalize_reference : list Alternative -> list Alternative :=
  normalize_with round_then_drop.

Definition normalize_by_sum : list Alternative -> list Alternative :=
  normalize_with drop_then_round.

(** The hours of a normalized entry: a rounded sum that reached 0.5. *)
Definition settled (a : Allocation) : Prop :=
  exists s, 0.5 <= s /\ hours a = round1 s.

(** *** Concrete inputs *)


(** More capacity than demand: 10 hours for a task of 5. *)
Definition roomy_resources : list Resource.t := [Resource.mk 1 "R1" "developer" 10].

(** A large and a small resource, one task of 10 hours. *)
Definition uneven_resources : list Resource.t :=
  [Resource.mk 1 "R1" "developer" 100; Resource.mk 2 "R2" "developer" 1].
Definition uneven_tasks : list Task.t := [Task.mk 1 "Write report" 10 1].

(** A task of 3 minutes. *)
Definition tiny_tasks : list Task.t := [Task.mk 1 "Fix typo" 0.05 1].

(** A single record of 0.46 hours. *)
Definition dust_alternative : Alternative :=
  mkAlt (ExplBalanced 1) 10 [mkAlloc 1 1 0.46].

(** The same entry once and twice. *)
Definition once_alternative : Alternative :=
  mkAlt (ExplBalanced 1) 20 [mkAlloc 1 1 2].
Definition twice_alternative : Alternative :=
  mkAlt (ExplBalanced 1) 10 [mkAlloc 1 1 2; mkAlloc 1 1 2].

(** The scenario's first alternative under two scores. *)
Definition low_alternative : Alternative :=
  mkAlt (ExplBalanced 1) 60 [mkAlloc 1 1 8; mkAlloc 1 2 2; mkAlloc 2 2 2].
Definition high_alternative : Alternative :=
  mkAlt (ExplPriority 1 (Some 1%Z)) 140 [mkAlloc 2 2 2; mkAlloc 1 1 8; mkAlloc 1 2 2].

(** *** What an alternative carries through normalization and sorting *)

Definition label (a : Alternative) : Explanation * Q :=
  (explanation a, score a).

(** A list of one normalized-looking entry and two that sum to one pair. *)
Definition mixed_alternative : Alternative :=
  mkAlt (ExplGreedy 1 1) 70
        [mkAlloc 1 1 1.26; mkAlloc 2 1 0.3; mkAlloc 1 1 0.5].

(** *** Well-formed allocations *)

(** An allocation of positive hours between a resource and a task of the
    input. *)
Definition well_formed (resources : list Resource.t) (tasks : list Task.t)
           (a : Allocation) : Prop :=
  In (resource_id a) (map Resource.id resources)
  /\ In (task_id a) (map Task.id tasks)
  /\ 0 < hours a.

(** *** States of the two loops *)

(** The overload loop on [uneven_resources] after (R1, 6h) and (R2, 1h). *)
Definition capped_state : Overload.state :=
  Overload.mkState (<[1%Z := 94]> (<[2%Z := 0]> ∅))
                   (<[1%Z := 6]> (<[2%Z := 1]> ∅))
                   [mkAlloc 1 1 6; mkAlloc 2 1 1].

(** The greedy loop on [roomy_resources] before any commitment. *)
Definition fresh_state : Greedy.state :=
  Greedy.mkState (hours_dict roomy_resources) (zero_dict roomy_resources) [] 0.

(** ** Whole numbers of hours *)

(** The source computes in binary floating point.  Sums, differences and
    minima of whole numbers are exact there while the numbers stay within
    2^53, and the rational model computes the same values; with fractional
    hours a float sum can differ from the rational one in its last digit.
    Properties that need exact sums are stated under [exact_hours]. *)
Definition hours_limit : Q := inject_Z (2 ^ 53).

Definition whole (q : Q) : Prop := inject_Z (Qfloor q) == q.

(** The totals stay in the range where floating point neither overflows
    nor skips whole numbers. *)
Definition below_limit (resources : list Resource.t) (tasks : list Task.t)
  : Prop :=
  total_available resources <= hours_limit
  /\ total_required tasks <= hours_limit.

Record exact_hours (resources : list Resource.t) (tasks : list Task.t)
  : Prop := {
  available_whole :
    Forall (fun r => whole (Resource.available_hours r)) resources;
  required_whole : Forall (fun t => whole (Task.required_hours t)) tasks;
  totals_below_limit : below_limit resources tasks
}.



(** * Properties *)

Lemma Qltb_lt a b : Qltb a b = true <-> a < b.
Proof.
  unfold Qltb. rewrite negb_true_iff. split.
  - intros H. apply Qnot_le_lt. intros Hle.
    apply Qle_bool_iff in Hle. congruence.
  - intros H. destruct (Qle_bool b a) eqn:E; [|reflexivity].
    apply Qle_bool_iff in E. exfalso. eapply Qlt_not_le; eauto.
Qed.

Lemma Qltb_ge a b : Qltb a b = false <-> b <= a.
Proof.
  unfold Qltb. rewrite negb_false_iff. apply Qle_bool_iff.
Qed.

Example scenario_allocs :
  allocations (Priority._priority_based_allocation scenario_resources scenario_tasks)
  = [mkAlloc 1 1 8; mkAlloc 1 2 2; mkAlloc 2 2 2].
Proof. vm_compute. reflexivity. Qed.

Example lower_ascii : lower "Design UI" = "design ui"%string.
Proof. reflexivity. Qed.

Example lower_cyrillic : lower "Разработка ЁЖ" = "разработка ёж"%string.
Proof. reflexivity. Qed.

Example contains_ui : contains (lower "Design UI") "ui" = true.
Proof. reflexivity. Qed.

(** ** The concrete scenario of the priority strategy *)

(** C8: on R1 (10h), R2 (5h) and T1 (8h, priority 1), T2 (4h, priority 2)
    the priority strategy commits (R1,T1,8), (R1,T2,2), (R2,T2,2), its
    coverage is 1, its priority bonus 4.5, its overload penalty 0 and its
    score 140. *)
Theorem priority_scenario :
  allocations (Priority._priority_based_allocation scenario_resources scenario_tasks)
  = [mkAlloc 1 1 8; mkAlloc 1 2 2; mkAlloc 2 2 2]
  /\ Priority.coverage scenario_resources scenario_tasks == 1
  /\ Priority.priority_bonus scenario_resources scenario_tasks == 4.5
  /\ Priority.overload_penalty scenario_resources scenario_tasks == 0
  /\ score (Priority._priority_based_allocation scenario_resources scenario_tasks)
     == 140.
Proof.
  split; [exact scenario_allocs|].
  repeat split; apply Qeq_bool_eq; vm_compute; reflexivity.
Qed.

(** ** Empty inputs *)

(** C9: without resources or without tasks [generate_alternatives] returns
    the empty list, whatever the fuel: no loop is entered and nothing
    fails. *)
Theorem generate_empty_input :
  forall fuel resources tasks,
    generate_alternatives fuel [] [] = Some []
    /\ generate_alternatives fuel resources [] = Some []
    /\ generate_alternatives fuel [] tasks = Some [].
Proof.
  intros fuel resources tasks. repeat split.
  destruct resources; reflexivity.
Qed.

(** ** The two [while] loops *)

(** An iteration that commits nothing leaves the need and the state as
    they were, and the loop runs it again. *)
Lemma overload_while_stuck ideal resources task need st :
  Qltb 0 need = true ->
  Overload.body ideal resources task need st = Some (need, st) ->
  forall fuel, Overload.while fuel ideal resources task need st = None.
Proof.
  intros Hneed Hbody fuel. induction fuel as [|fuel IH]; [reflexivity|].
  simpl. rewrite Hneed, Hbody. exact IH.
Qed.

Lemma greedy_while_stuck resources task need st :
  Qltb 0 need = true ->
  Greedy.body resources task need st = Some (need, st) ->
  forall fuel, Greedy.while fuel resources task need st = None.
Proof.
  intros Hneed Hbody fuel. induction fuel as [|fuel IH]; [reflexivity|].
  simpl. rewrite Hneed, Hbody. exact IH.
Qed.

Lemma min_by_In key best l : In (min_by key best l) (best :: l).
Proof.
  revert best. induction l as [|r l IH]; intros best; simpl; [auto|].
  destruct (Qltb (key r) (key best)).
  - specialize (IH r). simpl in IH. tauto.
  - specialize (IH best). simpl in IH. tauto.
Qed.

Lemma max_by_In key best l : In (max_by key best l) (best :: l).
Proof.
  revert best. induction l as [|r l IH]; intros best; simpl; [auto|].
  destruct (pair_gtb (key r) (key best)).
  - specialize (IH r). simpl in IH. tauto.
  - specialize (IH best). simpl in IH. tauto.
Qed.

(** The cap term is part of the [min] also for a resource taken by the
    fallback: its load is at the cap or above, the amount is not
    positive, and nothing is committed. *)
Lemma overload_fallback_commits_nothing ideal resources task need st :
  Overload.under_cap ideal resources st = [] ->
  Overload.with_hours resources st <> [] ->
  Overload.body ideal resources task need st = Some (need, st).
Proof.
  intros Hcap Hany. unfold Overload.body, Overload.available_resources.
  rewrite Hcap.
  destruct (Overload.with_hours resources st) as [|r l] eqn:E; [congruence|].
  set (best := min_by _ r l).
  assert (Hin : In best (Overload.with_hours resources st)).
  { rewrite E. apply min_by_In. }
  unfold Overload.with_hours in Hin. apply filter_In in Hin as [Hin Hh].
  assert (Hnot : ~ In best (Overload.under_cap ideal resources st)).
  { rewrite Hcap. simpl. tauto. }
  unfold Overload.under_cap in Hnot. rewrite filter_In in Hnot.
  destruct (Qltb (get (Overload.resource_allocated st) (Resource.id best))
                 (ideal * 1.2)) eqn:Ecap.
  { exfalso. apply Hnot. split; [exact Hin|]. rewrite Hh. reflexivity. }
  apply Qltb_ge in Ecap.
  assert (Hle : Overload.hours_to_allocate ideal best need st <= 0).
  { unfold Overload.hours_to_allocate.
    eapply Qle_trans; [apply Q.le_min_r|]. lra. }
  apply Qltb_ge in Hle. rewrite Hle. reflexivity.
Qed.

(** C1: with a resource of 100 hours, one of 1 hour and a task of 10
    hours, the loop of the overload strategy never ends: after 6 hours from
    the first resource and 1 hour from the second, only the fallback finds
    a resource, the cap term makes the amount 0, and the iteration repeats
    unchanged.  No amount of fuel gives a result. *)
Theorem overload_loop_diverges :
  forall fuel,
    Overload._minimize_overload_allocation fuel uneven_resources uneven_tasks
    = None.
Proof.
  intros fuel.
  assert (Hloop : Overload.allocate fuel uneven_resources uneven_tasks = None).
  { unfold Overload.allocate.
    change (stable_sort priority_size_leb uneven_tasks)
      with [Task.mk 1 "Write report" 10 1].
    cbn [Overload.run].
    set (ideal := Overload.ideal_load uneven_resources uneven_tasks).
    set (task := Task.mk 1 "Write report" 10 1).
    set (st0 := Overload.mkState _ _ _).
    set (need0 := get _ _).
    assert (Hw : Overload.while fuel ideal uneven_resources task need0 st0 = None);
      [|rewrite Hw; reflexivity].
    destruct fuel as [|[|fuel]]; [reflexivity|vm_compute; reflexivity|].
    destruct (Overload.body ideal uneven_resources task need0 st0)
      as [[need1 st1]|] eqn:E1; [|vm_compute in E1; discriminate].
    destruct (Overload.body ideal uneven_resources task need1 st1)
      as [[need2 st2]|] eqn:E2;
      [|vm_compute in E1; injection E1 as <- <-; vm_compute in E2; discriminate].
    assert (H0 : Qltb 0 need0 = true) by reflexivity.
    assert (H1 : Qltb 0 need1 = true).
    { vm_compute in E1. injection E1 as <- <-. reflexivity. }
    assert (H2 : Qltb 0 need2 = true).
    { vm_compute in E1. injection E1 as <- <-.
      vm_compute in E2. injection E2 as <- <-. reflexivity. }
    cbn [Overload.while]. rewrite H0, E1, H1, E2.
    apply overload_while_stuck; [exact H2|].
    apply overload_fallback_commits_nothing.
    - vm_compute in E1. injection E1 as <- <-.
      vm_compute in E2. injection E2 as <- <-. vm_compute. reflexivity.
    - vm_compute in E1. injection E1 as <- <-.
      vm_compute in E2. injection E2 as <- <-. vm_compute. discriminate. }
  unfold Overload._minimize_overload_allocation. rewrite Hloop.
  reflexivity.
Qed.

(** C2: with a resource of 10 hours and a task of 0.05 hours, the loop of
    the greedy strategy never ends: the amount 0.05 is under the 0.1
    threshold, it is not recorded, and neither the need nor the hours
    change.  No amount of fuel gives a result. *)
Theorem greedy_loop_diverges :
  forall fuel,
    Greedy._greedy_optimized_allocation fuel roomy_resources tiny_tasks = None.
Proof.
  intros fuel.
  assert (Hloop : Greedy.allocate fuel roomy_resources tiny_tasks = None).
  { unfold Greedy.allocate.
    change (stable_sort priority_size_leb tiny_tasks)
      with [Task.mk 1 "Fix typo" 0.05 1].
    cbn [Greedy.run].
    rewrite greedy_while_stuck; [reflexivity|reflexivity|].
    vm_compute. reflexivity. }
  unfold Greedy._greedy_optimized_allocation. rewrite Hloop. reflexivity.
Qed.

(** ** Facts at the concrete inputs *)



Lemma scenario_contract : input_contract scenario_resources scenario_tasks.
Proof.
  split; simpl; repeat constructor; simpl; try tauto; try lia;
    try reflexivity; intros [H|H]; try discriminate; tauto.
Qed.

Lemma scenario_exact : exact_hours scenario_resources scenario_tasks.
Proof.
  split.
  - repeat constructor; vm_compute; reflexivity.
  - repeat constructor; vm_compute; reflexivity.
  - split; apply Qle_bool_iff; vm_compute; reflexivity.
Qed.



(** A single record of 0.46 hours is dropped by the code, and kept as 0.5
    by the reference that rounds first. *)
Lemma normalization_differs_from_reference :
  _normalize_allocations [dust_alternative] = []
  /\ normalize_reference [dust_alternative]
     = [mkAlt (ExplBalanced 1) 10 [mkAlloc 1 1 0.5]].
Proof. split; vm_compute; reflexivity. Qed.

(** One entry against the same entry twice: equal as sets, different
    scores, and both alternatives are kept. *)
Lemma equal_sets_both_survive :
  same_entry_set twice_alternative once_alternative
  /\ score twice_alternative < score once_alternative
  /\ _remove_duplicates [twice_alternative; once_alternative]
     = [twice_alternative; once_alternative].
Proof.
  split; [|split; [reflexivity|vm_compute; reflexivity]].
  intros e. simpl. tauto.
Qed.

(** ** Stable sorting *)

Section StableSortFacts.
Context {A : Type} (leb : A -> A -> bool).

Lemma insert_sorted_perm x l : Permutation (x :: l) (insert_sorted leb x l).
Proof.
  induction l as [|y l IH]; simpl; [reflexivity|].
  destruct (leb x y); [reflexivity|].
  rewrite perm_swap. apply perm_skip. exact IH.
Qed.

Lemma stable_sort_perm l : Permutation l (stable_sort leb l).
Proof.
  induction l as [|x l IH]; simpl; [reflexivity|].
  rewrite <- insert_sorted_perm. apply perm_skip. exact IH.
Qed.

Hypothesis leb_total : forall x y, leb x y = true \/ leb y x = true.

Lemma insert_sorted_sorted x l :
  Sorted (fun a b => leb a b = true) l ->
  Sorted (fun a b => leb a b = true) (insert_sorted leb x l).
Proof.
  induction l as [|y l IH]; intros Hs; simpl.
  - repeat constructor.
  - destruct (leb x y) eqn:E.
    + constructor; [exact Hs|]. constructor. exact E.
    + inversion Hs as [|? ? Hs' Hhd]; subst.
      constructor; [apply IH; exact Hs'|].
      destruct l as [|z l]; simpl.
      * constructor. destruct (leb_total x y); congruence.
      * destruct (leb x z).
        -- constructor. destruct (leb_total x y); congruence.
        -- constructor. inversion Hhd; subst. assumption.
Qed.

Lemma stable_sort_sorted l :
  Sorted (fun a b => leb a b = true) (stable_sort leb l).
Proof.
  induction l as [|x l IH]; simpl; [constructor|].
  apply insert_sorted_sorted. exact IH.
Qed.

(** A class of elements that the order does not separate: an element is
    never moved past another of its class. *)
Variable p : A -> bool.
Hypothesis class_kept : forall x y, leb x y = false -> p x = true -> p y = false.


End StableSortFacts.






(** ** Rounding *)

#[local] Instance Qltb_comp : Proper (Qeq ==> Qeq ==> eq) Qltb.
Proof.
  intros a a' Ha b b' Hb. unfold Qltb. rewrite Ha, Hb. reflexivity.
Qed.

#[local] Instance round_half_even_comp : Proper (Qeq ==> eq) round_half_even.
Proof.
  intros q q' H. unfold round_half_even.
  rewrite (Qfloor_comp _ _ H).
  assert (E : q - inject_Z (Qfloor q') == q' - inject_Z (Qfloor q'))
    by (rewrite H; reflexivity).
  rewrite !E. reflexivity.
Qed.

Lemma round_half_even_Z n : round_half_even (inject_Z n) = n.
Proof.
  unfold round_half_even. rewrite Qfloor_Z.
  assert (H : Qltb (inject_Z n - inject_Z n) (1 # 2) = true).
  { apply Qltb_lt. lra. }
  rewrite H. reflexivity.
Qed.

Lemma round_half_even_floor q : (Qfloor q <= round_half_even q)%Z.
Proof.
  unfold round_half_even.
  destruct (Qltb _ (1 # 2)); [lia|].
  destruct (Qltb (1 # 2) _); [lia|].
  destruct (Z.even _); lia.
Qed.

(** A rounded value is left as it is by a second rounding, also after the
    [0.0 + h] of the grouping. *)
Lemma round1_again q : round1 (0 + round1 q) = round1 q.
Proof.
  unfold round1. f_equal.
  transitivity (round_half_even (inject_Z (round_half_even (q * 10))));
    [|apply round_half_even_Z].
  apply round_half_even_comp.
  unfold Qeq. simpl. lia.
Qed.

Lemma round1_keeps_threshold q : 0.5 <= q -> 0.5 <= round1 q.
Proof.
  intros H. unfold round1, Qle. simpl.
  assert (H5 : (5 <= Qfloor (q * 10))%Z).
  { change 5%Z with (Qfloor 5). apply Qfloor_resp_le. lra. }
  pose proof (round_half_even_floor (q * 10)). lia.
Qed.

(** ** Normalization against its reference *)

Lemma Qsum_snoc l x : Qsum (l ++ [x]) = Qsum l + x.
Proof. unfold Qsum. rewrite List.fold_left_app. reflexivity. Qed.

Lemma pair_eqb_eq k1 k2 : pair_eqb k1 k2 = true <-> k1 = k2.
Proof.
  unfold pair_eqb. destruct k1 as [a b], k2 as [c d]. simpl.
  rewrite andb_true_iff, !Z.eqb_eq. split; [intros [-> ->]; reflexivity|].
  intros H. injection H as -> ->. auto.
Qed.

Lemma pair_eqb_refl k : pair_eqb k k = true.
Proof. apply pair_eqb_eq. reflexivity. Qed.

Lemma pair_eqb_neq k1 k2 : pair_eqb k1 k2 = false <-> k1 <> k2.
Proof.
  rewrite <- pair_eqb_eq. destruct (pair_eqb k1 k2); split; congruence.
Qed.

Lemma distinct_keys_In k l : In k (distinct_keys l) <-> In k l.
Proof.
  induction l as [|k0 l IH]; simpl; [tauto|].
  rewrite filter_In, IH, negb_true_iff, pair_eqb_neq.
  destruct (pair_eqb k k0) eqn:E.
  - apply pair_eqb_eq in E. subst. tauto.
  - apply pair_eqb_neq in E. split; [tauto|]. intros [->|H]; [tauto|]. auto.
Qed.

Lemma distinct_keys_NoDup l : List.NoDup (distinct_keys l).
Proof.
  induction l as [|k0 l IH]; simpl; constructor.
  - rewrite filter_In, negb_true_iff, pair_eqb_neq. tauto.
  - apply List.NoDup_filter. exact IH.
Qed.

Lemma distinct_keys_snoc l k :
  distinct_keys (l ++ [k])
  = if existsb (pair_eqb k) l then distinct_keys l else distinct_keys l ++ [k].
Proof.
  induction l as [|k0 l IH]; [reflexivity|].
  simpl. rewrite IH.
  destruct (pair_eqb k k0) eqn:E; simpl.
  - destruct (existsb (pair_eqb k) l); [reflexivity|].
    rewrite List.filter_app. simpl. rewrite E. simpl.
    rewrite app_nil_r. reflexivity.
  - destruct (existsb (pair_eqb k) l); [reflexivity|].
    rewrite List.filter_app. simpl. rewrite E. reflexivity.
Qed.

Lemma distinct_keys_id l : List.NoDup l -> distinct_keys l = l.
Proof.
  induction 1 as [|k l Hk Hl IH]; [reflexivity|].
  simpl. rewrite IH. f_equal.
  apply forallb_filter_id. apply forallb_forall. intros k' Hk'.
  apply negb_true_iff, pair_eqb_neq. congruence.
Qed.

Lemma summed_hours_snoc k l a :
  summed_hours k (l ++ [a])
  = if pair_eqb (key_of a) k then summed_hours k l + hours a
    else summed_hours k l.
Proof.
  unfold summed_hours. rewrite List.filter_app. simpl.
  destruct (pair_eqb (key_of a) k).
  - rewrite List.map_app. apply Qsum_snoc.
  - rewrite app_nil_r. reflexivity.
Qed.

Lemma summed_hours_absent k l :
  existsb (pair_eqb k) (map key_of l) = false -> summed_hours k l = 0.
Proof.
  intros H. unfold summed_hours.
  replace (List.filter _ l) with (@nil Allocation); [reflexivity|].
  symmetry. induction l as [|a l IH]; [reflexivity|].
  simpl in *. apply orb_false_iff in H as [Ha Hl].
  replace (pair_eqb (key_of a) k) with false.
  - apply IH. exact Hl.
  - symmetry. apply pair_eqb_neq. apply pair_eqb_neq in Ha. congruence.
Qed.

Lemma add_grouped_present (f : Z * Z -> Q) k h ks :
  List.NoDup ks -> In k ks ->
  add_grouped k h (map (fun k' => (k', f k')) ks)
  = map (fun k' => (k', if pair_eqb k k' then f k' + h else f k')) ks.
Proof.
  induction 1 as [|k0 ks Hk0 Hks IH]; intros Hin; [destruct Hin|].
  simpl. change ((fst k0 =? fst k)%Z && (snd k0 =? snd k)%Z)
    with (pair_eqb k0 k).
  destruct (pair_eqb k0 k) eqn:E.
  - apply pair_eqb_eq in E. subst k0. rewrite pair_eqb_refl. f_equal.
    apply map_ext_in. intros k' Hk'.
    replace (pair_eqb k k') with false; [reflexivity|].
    symmetry. apply pair_eqb_neq. congruence.
  - replace (pair_eqb k k0) with false.
    + f_equal. apply IH. destruct Hin as [->|Hin]; [|exact Hin].
      rewrite pair_eqb_refl in E. discriminate.
    + symmetry. apply pair_eqb_neq. apply pair_eqb_neq in E. congruence.
Qed.

Lemma add_grouped_absent (f : Z * Z -> Q) k h ks :
  ~ In k ks ->
  add_grouped k h (map (fun k' => (k', f k')) ks)
  = map (fun k' => (k', f k')) ks ++ [(k, 0 + h)].
Proof.
  induction ks as [|k0 ks IH]; intros Hin; [reflexivity|].
  simpl. change ((fst k0 =? fst k)%Z && (snd k0 =? snd k)%Z)
    with (pair_eqb k0 k).
  replace (pair_eqb k0 k) with false.
  - f_equal. apply IH. simpl in Hin. tauto.
  - symmetry. apply pair_eqb_neq. simpl in Hin. tauto.
Qed.

Lemma existsb_pair_In k l : existsb (pair_eqb k) l = true <-> In k l.
Proof.
  rewrite existsb_exists. split.
  - intros (k' & Hin & E). apply pair_eqb_eq in E. subst. exact Hin.
  - intros H. exists k. split; [exact H|apply pair_eqb_refl].
Qed.

(** The dictionary built record by record holds, for every pair in the
    order of first appearance, the sum of the hours of its records. *)
Lemma group_allocations_reference allocs :
  group_allocations allocs = grouped_reference allocs.
Proof.
  induction allocs as [|a l IH] using rev_ind; [reflexivity|].
  unfold group_allocations in *. rewrite List.fold_left_app. simpl.
  rewrite IH. unfold grouped_reference.
  rewrite List.map_app. simpl. rewrite distinct_keys_snoc.
  fold (key_of a).
  destruct (existsb (pair_eqb (key_of a)) (map key_of l)) eqn:E.
  - rewrite add_grouped_present.
    + apply map_ext. intros k. rewrite summed_hours_snoc. reflexivity.
    + apply distinct_keys_NoDup.
    + apply distinct_keys_In, existsb_pair_In. exact E.
  - rewrite add_grouped_absent.
    + rewrite List.map_app. simpl. f_equal.
      * apply map_ext_in. intros k Hk. rewrite summed_hours_snoc.
        replace (pair_eqb (key_of a) k) with false; [reflexivity|].
        symmetry. apply pair_eqb_neq. intros <-.
        apply (proj1 (distinct_keys_In _ _)) in Hk.
        apply (proj2 (existsb_pair_In _ _)) in Hk. congruence.
      * rewrite summed_hours_snoc, pair_eqb_refl.
        rewrite (summed_hours_absent _ _ E). reflexivity.
    + rewrite distinct_keys_In, <- existsb_pair_In. congruence.
Qed.

Lemma normalized_allocations_reference allocs :
  normalized_allocations allocs = drop_then_round allocs.
Proof.
  unfold normalized_allocations, drop_then_round.
  rewrite group_allocations_reference.
  erewrite filter_ext; [apply map_ext|].
  - intros [[rid tid] h]. reflexivity.
  - intros [k h]. unfold Qltb. rewrite negb_involutive. reflexivity.
Qed.

Lemma normalize_agrees_by_sum alternatives :
  _normalize_allocations alternatives = normalize_by_sum alternatives.
Proof.
  induction alternatives as [|alt rest IH]; [reflexivity|].
  simpl. rewrite IH, normalized_allocations_reference.
  destruct (drop_then_round (allocations alt)); reflexivity.
Qed.

(** C6: the normalization of the code is the reference that groups the
    records by (resource_id, task_id) in the order of first appearance,
    sums the hours, drops the pairs whose sum is below 0.5, rounds what is
    left to one decimal, and drops an alternative left without entries. *)
Theorem normalize_allocations_by_sum :
  forall alternatives,
    _normalize_allocations alternatives = normalize_by_sum alternatives.
Proof. exact normalize_agrees_by_sum. Qed.

(** ** Normalizing twice *)

Lemma drop_then_round_settled allocs a :
  In a (drop_then_round allocs) -> settled a.
Proof.
  unfold drop_then_round. rewrite in_map_iff.
  intros (g & <- & Hg). apply filter_In in Hg as [_ Hg].
  apply negb_true_iff, Qltb_ge in Hg.
  exists (snd g). split; [exact Hg|reflexivity].
Qed.

Lemma NoDup_map_filter {A B} (f : A -> B) (p : A -> bool) l :
  List.NoDup (map f l) -> List.NoDup (map f (List.filter p l)).
Proof.
  induction l as [|x l IH]; simpl; intros H; [constructor|].
  inversion H as [|? ? Hx Hl]; subst.
  destruct (p x); simpl; [|auto].
  constructor; [|auto].
  rewrite in_map_iff in *. intros (y & E & Hy).
  apply Hx. exists y. split; [exact E|].
  apply filter_In in Hy. tauto.
Qed.

Lemma drop_then_round_keys allocs :
  List.NoDup (map key_of (drop_then_round allocs)).
Proof.
  unfold drop_then_round. rewrite map_map.
  rewrite (map_ext (fun g => key_of (rounded g)) fst)
    by (intros [[rid tid] h]; reflexivity).
  apply (NoDup_map_filter fst). unfold grouped_reference.
  rewrite map_map. simpl. rewrite map_id. apply distinct_keys_NoDup.
Qed.

Lemma filter_none {A} (p : A -> bool) l :
  (forall x, In x l -> p x = false) -> List.filter p l = [].
Proof.
  induction l as [|x l IH]; intros H; [reflexivity|].
  simpl. rewrite (H x) by (left; reflexivity).
  apply IH. intros y Hy. apply H. right. exact Hy.
Qed.

Lemma filter_key_single m a :
  List.NoDup (map key_of m) -> In a m ->
  List.filter (fun a' => pair_eqb (key_of a') (key_of a)) m = [a].
Proof.
  induction m as [|a0 m IH]; simpl; intros Hnd Hin; [destruct Hin|].
  inversion Hnd as [|? ? Hk Hm]; subst.
  assert (Hrest : forall b, In b m -> key_of a0 <> key_of b).
  { intros b Hb E. apply Hk. rewrite E. apply in_map. exact Hb. }
  destruct Hin as [->|Hin].
  - rewrite pair_eqb_refl. f_equal.
    apply filter_none. intros b Hb. apply pair_eqb_neq. intros E.
    apply (Hrest b Hb). congruence.
  - replace (pair_eqb (key_of a0) (key_of a)) with false.
    + apply IH; assumption.
    + symmetry. apply pair_eqb_neq. apply Hrest. exact Hin.
Qed.

Lemma grouped_reference_settled m :
  List.NoDup (map key_of m) ->
  grouped_reference m = map (fun a => (key_of a, 0 + hours a)) m.
Proof.
  intros Hnd. unfold grouped_reference.
  rewrite (distinct_keys_id _ Hnd), map_map.
  apply map_ext_in. intros a Ha. f_equal.
  unfold summed_hours. rewrite (filter_key_single m a Hnd Ha). reflexivity.
Qed.

Lemma drop_then_round_fixpoint m :
  List.NoDup (map key_of m) -> (forall a, In a m -> settled a) ->
  drop_then_round m = m.
Proof.
  intros Hnd Hset. unfold drop_then_round.
  rewrite (grouped_reference_settled m Hnd).
  rewrite forallb_filter_id.
  - rewrite map_map. rewrite <- (map_id m) at 2.
    apply map_ext_in. intros a Ha.
    destruct (Hset a Ha) as (s & _ & Hs).
    destruct a as [rid tid h]. unfold rounded. simpl in *. subst h.
    rewrite round1_again. reflexivity.
  - apply forallb_forall. intros g Hg. apply in_map_iff in Hg as (a & <- & Ha).
    destruct (Hset a Ha) as (s & Hs & E). simpl. rewrite E.
    apply negb_true_iff, Qltb_ge.
    pose proof (round1_keeps_threshold s Hs). lra.
Qed.

Lemma drop_then_round_twice allocs :
  drop_then_round (drop_then_round allocs) = drop_then_round allocs.
Proof.
  apply drop_then_round_fixpoint.
  - apply drop_then_round_keys.
  - apply drop_then_round_settled.
Qed.

Lemma normalize_by_sum_twice alternatives :
  normalize_by_sum (normalize_by_sum alternatives) = normalize_by_sum alternatives.
Proof.
  unfold normalize_by_sum, normalize_with.
  induction alternatives as [|alt rest IH]; [reflexivity|].
  simpl. rewrite flat_map_app, IH. f_equal.
  destruct (drop_then_round (allocations alt)) as [|a l] eqn:E; [reflexivity|].
  simpl. rewrite <- E, drop_then_round_twice, E. reflexivity.
Qed.

(** C7: normalizing a list of alternatives a second time changes nothing:
    every pair is present once, its hours are already rounded and at
    least 0.5, and no alternative is empty. *)
Theorem normalize_allocations_idempotent :
  forall alternatives,
    _normalize_allocations (_normalize_allocations alternatives)
    = _normalize_allocations alternatives.
Proof.
  intros alternatives. rewrite !normalize_agrees_by_sum.
  apply normalize_by_sum_twice.
Qed.

(** ** The key of an alternative *)

Lemma canonical_entry_of a : canonical (entry_of a).
Proof. reflexivity. Qed.

Lemma entry_ltb_spec (x y : entry) :
  canonical x -> canonical y ->
  entry_ltb x y = true
  <-> (fst (fst x) < fst (fst y)
       \/ fst (fst x) = fst (fst y)
          /\ (snd (fst x) < snd (fst y)
              \/ snd (fst x) = snd (fst y)
                 /\ Qnum (snd x) < Qnum (snd y)))%Z.
Proof.
  destruct x as [[r1 t1] [n1 d1]], y as [[r2 t2] [n2 d2]].
  unfold canonical. simpl. intros -> ->.
  destruct (r1 <? r2)%Z eqn:E1; [apply Z.ltb_lt in E1; intuition lia|].
  apply Z.ltb_ge in E1.
  destruct (r2 <? r1)%Z eqn:E2;
    [apply Z.ltb_lt in E2; split; [discriminate|lia]|].
  apply Z.ltb_ge in E2.
  destruct (t1 <? t2)%Z eqn:E3; [apply Z.ltb_lt in E3; intuition lia|].
  apply Z.ltb_ge in E3.
  destruct (t2 <? t1)%Z eqn:E4;
    [apply Z.ltb_lt in E4; split; [discriminate|lia]|].
  apply Z.ltb_ge in E4.
  rewrite Qltb_lt. unfold Qlt. simpl. lia.
Qed.

Lemma entry_leb_spec (x y : entry) :
  canonical x -> canonical y ->
  entry_leb x y = true
  <-> (fst (fst x) < fst (fst y)
       \/ fst (fst x) = fst (fst y)
          /\ (snd (fst x) < snd (fst y)
              \/ snd (fst x) = snd (fst y)
                 /\ Qnum (snd x) <= Qnum (snd y)))%Z.
Proof.
  intros Hx Hy. unfold entry_leb. rewrite negb_true_iff.
  pose proof (entry_ltb_spec y x Hy Hx) as H.
  destruct (entry_ltb y x); split; intros H'; try reflexivity;
    try discriminate; lia.
Qed.

Lemma entry_ltb_asym (x y : entry) :
  entry_ltb x y = true -> entry_ltb y x = false.
Proof.
  destruct x as [[r1 t1] h1], y as [[r2 t2] h2]. simpl.
  destruct (r1 <? r2)%Z eqn:E1.
  { intros _. apply Z.ltb_lt in E1.
    replace (r2 <? r1)%Z with false by (symmetry; apply Z.ltb_ge; lia).
    reflexivity. }
  destruct (r2 <? r1)%Z eqn:E2; [discriminate|].
  destruct (t1 <? t2)%Z eqn:E3.
  { intros _. apply Z.ltb_lt in E3.
    replace (t2 <? t1)%Z with false by (symmetry; apply Z.ltb_ge; lia).
    reflexivity. }
  destruct (t2 <? t1)%Z eqn:E4; [discriminate|].
  rewrite Qltb_lt. intros H. apply Qltb_ge. apply Qlt_le_weak. exact H.
Qed.

Lemma entry_leb_total x y : entry_leb x y = true \/ entry_leb y x = true.
Proof.
  unfold entry_leb. destruct (entry_ltb y x) eqn:E; [|left; reflexivity].
  right. rewrite (entry_ltb_asym _ _ E). reflexivity.
Qed.

Lemma key_le_trans x y z : key_le x y -> key_le y z -> key_le x z.
Proof.
  intros (Hx & Hy & H1) (_ & Hz & H2). repeat split; try assumption.
  apply entry_leb_spec in H1; try assumption.
  apply entry_leb_spec in H2; try assumption.
  apply entry_leb_spec; try assumption. lia.
Qed.

Lemma key_le_antisym x y : key_le x y -> key_le y x -> x = y.
Proof.
  intros (Hx & Hy & H1) (_ & _ & H2).
  apply entry_leb_spec in H1; try assumption.
  apply entry_leb_spec in H2; try assumption.
  destruct x as [[r1 t1] [n1 d1]], y as [[r2 t2] [n2 d2]].
  unfold canonical in *. simpl in *. subst.
  assert (r1 = r2 /\ t1 = t2 /\ n1 = n2) as (-> & -> & ->) by lia.
  reflexivity.
Qed.

(** Two sorted lists with the same elements are the same list. *)
Lemma sorted_unique (l1 l2 : list entry) :
  StronglySorted key_le l1 -> StronglySorted key_le l2 ->
  Permutation l1 l2 -> l1 = l2.
Proof.
  revert l2. induction l1 as [|x l1 IH]; intros l2 H1 H2 Hp.
  - apply Permutation_nil in Hp. congruence.
  - destruct l2 as [|y l2];
      [symmetry in Hp; apply Permutation_nil in Hp; discriminate|].
    inversion H1 as [|? ? Hs1 Hf1]; subst.
    inversion H2 as [|? ? Hs2 Hf2]; subst.
    assert (E : x = y).
    { assert (Hx : In x (y :: l2))
        by (eapply Permutation_in; [exact Hp|left; reflexivity]).
      assert (Hy : In y (x :: l1))
        by (eapply Permutation_in; [symmetry; exact Hp|left; reflexivity]).
      destruct Hx as [Hx|Hx]; [congruence|].
      destruct Hy as [Hy|Hy]; [congruence|].
      rewrite List.Forall_forall in Hf1, Hf2.
      apply key_le_antisym; [apply Hf1; exact Hy|apply Hf2; exact Hx]. }
    subst y. f_equal. apply IH; try assumption.
    eapply Permutation_cons_inv. exact Hp.
Qed.

Lemma Sorted_key_le l :
  Forall canonical l -> Sorted (fun a b => entry_leb a b = true) l ->
  Sorted key_le l.
Proof.
  intros Hc Hs. induction Hs as [|x l Hs IH Hhd]; [constructor|].
  inversion Hc as [|? ? Hx Hl]; subst.
  constructor; [apply IH; exact Hl|].
  destruct Hhd as [|y l E]; constructor.
  inversion Hl; subst. repeat split; assumption.
Qed.

Lemma entries_canonical (allocs : list Allocation) :
  Forall canonical (map entry_of allocs).
Proof.
  apply List.Forall_forall. intros e He. apply in_map_iff in He as (a & <- & _).
  apply canonical_entry_of.
Qed.

Lemma allocations_key_canonical alt : Forall canonical (allocations_key alt).
Proof.
  unfold allocations_key.
  eapply Permutation_Forall; [apply stable_sort_perm|apply entries_canonical].
Qed.

Lemma allocations_key_sorted alt : StronglySorted key_le (allocations_key alt).
Proof.
  apply Sorted_StronglySorted; [exact key_le_trans|].
  apply Sorted_key_le; [apply allocations_key_canonical|].
  apply stable_sort_sorted. exact entry_leb_total.
Qed.

(** Equal keys: the same rounded entries, in any order. *)
Lemma allocations_key_same a b :
  allocations_key a = allocations_key b <-> same_entries a b.
Proof.
  unfold same_entries. split.
  - intros E.
    rewrite (stable_sort_perm entry_leb (map entry_of (allocations a))).
    rewrite (stable_sort_perm entry_leb (map entry_of (allocations b))).
    fold (allocations_key a). fold (allocations_key b). rewrite E.
    reflexivity.
  - intros Hp. apply sorted_unique; try apply allocations_key_sorted.
    unfold allocations_key.
    rewrite <- !stable_sort_perm. exact Hp.
Qed.

Lemma entry_eqb_eq x y :
  canonical x -> canonical y -> entry_eqb x y = true <-> x = y.
Proof.
  destruct x as [[r1 t1] [n1 d1]], y as [[r2 t2] [n2 d2]].
  unfold canonical. simpl. intros -> ->.
  rewrite !andb_true_iff, !Z.eqb_eq, Qeq_bool_iff. unfold Qeq. simpl.
  split.
  - intros [[-> ->] H]. assert (n1 = n2) as -> by lia. reflexivity.
  - intros H. injection H as -> -> ->. auto.
Qed.

Lemma key_eqb_eq k1 k2 :
  Forall canonical k1 -> Forall canonical k2 ->
  key_eqb k1 k2 = true <-> k1 = k2.
Proof.
  intros H1. revert k2. induction H1 as [|x k1 Hx H1 IH]; intros k2 H2.
  - destruct k2; simpl; split; congruence.
  - destruct H2 as [|y k2 Hy H2]; simpl; [split; congruence|].
    rewrite andb_true_iff, (entry_eqb_eq x y Hx Hy), (IH k2 H2).
    split; [intros [-> ->]; reflexivity|].
    intros H. injection H as -> ->. auto.
Qed.

Lemma key_eqb_allocations a b :
  key_eqb (allocations_key a) (allocations_key b) = true
  <-> allocations_key a = allocations_key b.
Proof. apply key_eqb_eq; apply allocations_key_canonical. Qed.

(** ** Deduplication keeps the best of every class *)

Lemma existsb_key_In alt unique :
  existsb (key_eqb (allocations_key alt)) (map allocations_key unique) = true
  <-> In (allocations_key alt) (map allocations_key unique).
Proof.
  rewrite existsb_exists. split.
  - intros (k & Hk & E). apply in_map_iff in Hk as (u & <- & Hu).
    apply key_eqb_allocations in E. rewrite E. apply in_map. exact Hu.
  - intros H. exists (allocations_key alt). split; [exact H|].
    apply key_eqb_allocations. reflexivity.
Qed.

Lemma replace_better_absent alt l :
  ~ In (allocations_key alt) (map allocations_key l) ->
  replace_better alt l = l.
Proof.
  induction l as [|e l IH]; intros H; [reflexivity|].
  simpl in *.
  destruct (key_eqb (allocations_key e) (allocations_key alt)) eqn:E.
  - apply key_eqb_allocations in E. tauto.
  - simpl. f_equal. apply IH. tauto.
Qed.

Lemma replace_better_present alt l :
  In (allocations_key alt) (map allocations_key l) ->
  List.NoDup (map allocations_key l) ->
  exists p u0 s,
    l = p ++ u0 :: s
    /\ allocations_key u0 = allocations_key alt
    /\ replace_better alt l
       = if Qltb (score u0) (score alt) then p ++ alt :: s else l.
Proof.
  induction l as [|e l IH]; intros Hin Hnd; [destruct Hin|].
  simpl in Hnd. inversion Hnd as [|? ? He Hl]; subst.
  simpl replace_better.
  destruct (key_eqb (allocations_key e) (allocations_key alt)) eqn:E.
  - apply key_eqb_allocations in E.
    exists [], e, l. repeat split; [exact E|]. simpl.
    destruct (Qltb (score e) (score alt)); [reflexivity|].
    f_equal. apply replace_better_absent. congruence.
  - assert (Hin' : In (allocations_key alt) (map allocations_key l)).
    { destruct Hin as [Hin|Hin]; [|exact Hin].
      rewrite Hin in E.
      assert (E' : key_eqb (allocations_key alt) (allocations_key alt) = true)
        by (apply key_eqb_allocations; reflexivity).
      congruence. }
    destruct (IH Hin' Hl) as (p & u0 & s & -> & Hk & Hr).
    exists (e :: p), u0, s. repeat split; [exact Hk|]. simpl.
    rewrite Hr. destruct (Qltb (score u0) (score alt)); reflexivity.
Qed.

Lemma NoDup_map_injective {A B} (f : A -> B) l x y :
  List.NoDup (map f l) -> In x l -> In y l -> f x = f y -> x = y.
Proof.
  induction l as [|z l IH]; intros Hnd Hx Hy E; [destruct Hx|].
  simpl in Hnd. inversion Hnd as [|? ? Hz Hl]; subst.
  destruct Hx as [->|Hx], Hy as [->|Hy]; [reflexivity| | |auto].
  - exfalso. apply Hz. rewrite E. apply in_map. exact Hy.
  - exfalso. apply Hz. rewrite <- E. apply in_map. exact Hx.
Qed.

Lemma first_best_snoc processed u alt :
  first_best processed u ->
  (same_entries alt u -> score alt <= score u) ->
  first_best (processed ++ [alt]) u.
Proof.
  intros (before & after & -> & Hb & Ha) Halt.
  exists before, (after ++ [alt]). split; [|split; [exact Hb|]].
  - rewrite <- app_assoc. reflexivity.
  - intros a Hin Hs. apply in_app_iff in Hin as [Hin|[<-|[]]]; auto.
Qed.

Lemma first_best_new processed alt :
  (forall a, In a processed -> same_entries a alt -> score a < score alt) ->
  first_best (processed ++ [alt]) alt.
Proof.
  intros H. exists processed, []. split; [reflexivity|]. split; [exact H|].
  intros a [].
Qed.

(** Within the alternatives read so far, nothing of the class of a kept
    alternative scores more. *)
Lemma first_best_bound processed u a :
  first_best processed u -> In a processed -> same_entries a u ->
  score a <= score u.
Proof.
  intros (before & after & -> & Hb & Ha) Hin Hs.
  apply in_app_iff in Hin as [Hin|[<-|Hin]].
  - apply Qlt_le_weak. auto.
  - apply Qle_refl.
  - auto.
Qed.

Lemma dedup_step_new processed unique alt :
  dedup_invariant processed unique ->
  ~ In (allocations_key alt) (map allocations_key unique) ->
  dedup_invariant (processed ++ [alt]) (unique ++ [alt]).
Proof.
  intros (Hnd & Hbest & Hseen) Hnew. repeat split.
  - rewrite List.map_app. simpl.
    apply List.NoDup_app; [exact Hnd|repeat constructor; simpl; tauto|].
    intros k Hk [<-|[]]. tauto.
  - intros u Hu. apply in_app_iff in Hu as [Hu|[<-|[]]].
    + apply first_best_snoc; [auto|]. intros Hs. exfalso. apply Hnew.
      apply allocations_key_same in Hs. rewrite Hs. apply in_map. exact Hu.
    + apply first_best_new. intros a Ha Hs. exfalso. apply Hnew.
      apply allocations_key_same in Hs. rewrite <- Hs. auto.
  - intros a Ha. rewrite List.map_app, in_app_iff.
    apply in_app_iff in Ha as [Ha|[<-|[]]]; [left; auto|].
    right. left. reflexivity.
Qed.

Lemma dedup_step_seen processed unique alt :
  dedup_invariant processed unique ->
  In (allocations_key alt) (map allocations_key unique) ->
  dedup_invariant (processed ++ [alt]) (replace_better alt unique)
  /\ map allocations_key (replace_better alt unique)
     = map allocations_key unique.
Proof.
  intros (Hnd & Hbest & Hseen) Hin.
  destruct (replace_better_present alt unique Hin Hnd)
    as (p & u0 & s & -> & Hk & ->).
  assert (Hu0 : In u0 (p ++ u0 :: s)) by (apply in_elt).
  destruct (Qltb (score u0) (score alt)) eqn:E.
  - apply Qltb_lt in E.
    assert (Hmap : map allocations_key (p ++ alt :: s)
                   = map allocations_key (p ++ u0 :: s)).
    { rewrite !List.map_app. simpl. rewrite Hk. reflexivity. }
    split; [|exact Hmap]. repeat split.
    + rewrite Hmap. exact Hnd.
    + intros u Hu.
      assert (Hcase : u = alt \/ In u (p ++ s)).
      { apply in_app_iff in Hu as [Hu|[<-|Hu]]; [right|left|right];
          try reflexivity; apply in_app_iff; tauto. }
      destruct Hcase as [->|Hu'].
      * apply first_best_new. intros a Ha Hs.
        eapply Qle_lt_trans; [|exact E].
        apply (first_best_bound processed); [auto|exact Ha|].
        apply allocations_key_same. apply allocations_key_same in Hs.
        congruence.
      * assert (Hold : In u (p ++ u0 :: s)).
        { apply in_app_iff in Hu' as [H|H]; apply in_app_iff;
            [left|right; right]; exact H. }
        apply first_best_snoc; [auto|]. intros Hs. exfalso.
        apply allocations_key_same in Hs.
        assert (u = u0)
          by (apply (NoDup_map_injective allocations_key (p ++ u0 :: s));
              auto; congruence).
        subst u. rewrite List.map_app in Hnd. simpl in Hnd.
        apply List.NoDup_remove_2 in Hnd. apply Hnd.
        rewrite <- List.map_app. apply in_map. exact Hu'.
    + intros a Ha. rewrite Hmap.
      apply in_app_iff in Ha as [Ha|[<-|[]]]; auto.
  - apply Qltb_ge in E. split; [|reflexivity]. repeat split.
    + exact Hnd.
    + intros u Hu. apply first_best_snoc; [auto|]. intros Hs.
      apply allocations_key_same in Hs.
      assert (u = u0)
        by (apply (NoDup_map_injective allocations_key (p ++ u0 :: s));
            auto; congruence).
      subst u. exact E.
    + intros a Ha. apply in_app_iff in Ha as [Ha|[<-|[]]]; auto.
Qed.

Lemma dedup_loop_invariant rest :
  forall processed unique,
    dedup_invariant processed unique ->
    dedup_invariant (processed ++ rest)
      (dedup_loop rest (map allocations_key unique) unique).
Proof.
  induction rest as [|alt rest IH]; intros processed unique Hinv.
  - rewrite app_nil_r. exact Hinv.
  - simpl dedup_loop.
    replace (processed ++ alt :: rest) with ((processed ++ [alt]) ++ rest)
      by (rewrite <- app_assoc; reflexivity).
    destruct (existsb _ _) eqn:E.
    + apply existsb_key_In in E.
      destruct (dedup_step_seen processed unique alt Hinv E) as [Hinv' Hmap].
      rewrite <- Hmap. apply IH. exact Hinv'.
    + assert (Hnew : ~ In (allocations_key alt) (map allocations_key unique)).
      { intros H. apply existsb_key_In in H. congruence. }
      replace (map allocations_key unique ++ [allocations_key alt])
        with (map allocations_key (unique ++ [alt]))
        by (rewrite List.map_app; reflexivity).
      apply IH. apply dedup_step_new; assumption.
Qed.

Lemma remove_duplicates_invariant alternatives :
  dedup_invariant alternatives (_remove_duplicates alternatives).
Proof.
  apply (dedup_loop_invariant alternatives [] []).
  repeat split; [constructor|intros u []|intros a []].
Qed.

Lemma remove_duplicates_pair a b :
  same_entries a b ->
  _remove_duplicates [a; b] = [if Qltb (score a) (score b) then b else a].
Proof.
  intros Hs. apply allocations_key_same in Hs.
  unfold _remove_duplicates. simpl.
  assert (E1 : key_eqb (allocations_key b) (allocations_key a) = true)
    by (apply key_eqb_allocations; congruence).
  assert (E2 : key_eqb (allocations_key a) (allocations_key b) = true)
    by (apply key_eqb_allocations; congruence).
  rewrite E1, E2. simpl.
  destruct (Qltb (score a) (score b)); reflexivity.
Qed.

(** C5: the duplicate test of the code holds exactly for two
    alternatives with the same rounded entries (resource_id, task_id,
    hours rounded to one decimal) up to order, repeated entries counted.
    Of every class of duplicates exactly one alternative is kept: it
    scores at least as much as every alternative of its class, and it is
    the first that does.  For two duplicates, the second is kept only if
    it scores strictly more. *)
Theorem remove_duplicates_keeps_best :
  (forall a b,
      key_eqb (allocations_key a) (allocations_key b) = true
      <-> same_entries a b)
  /\ (forall a b,
         same_entries a b ->
         _remove_duplicates [a; b]
         = [if Qltb (score a) (score b) then b else a])
  /\ forall alternatives,
      (forall i j a b,
          nth_error (_remove_duplicates alternatives) i = Some a ->
          nth_error (_remove_duplicates alternatives) j = Some b ->
          same_entries a b -> i = j)
      /\ (forall a,
             In a alternatives ->
             exists s, In s (_remove_duplicates alternatives)
                       /\ same_entries a s /\ score a <= score s)
      /\ (forall s,
             In s (_remove_duplicates alternatives) ->
             first_best alternatives s).
Proof.
  split; [|split; [exact remove_duplicates_pair|]].
  { intros a b. rewrite key_eqb_allocations. apply allocations_key_same. }
  intros alternatives.
  destruct (remove_duplicates_invariant alternatives) as (Hnd & Hbest & Hseen).
  repeat split.
  - intros i j a b Ha Hb Hs. apply allocations_key_same in Hs.
    apply (proj1 (NoDup_nth_error _) Hnd).
    + rewrite length_map. apply nth_error_Some. congruence.
    + rewrite (map_nth_error _ _ _ Ha), (map_nth_error _ _ _ Hb). congruence.
  - intros a Ha. specialize (Hseen a Ha).
    apply in_map_iff in Hseen as (s & E & Hs).
    assert (Hsame : same_entries a s) by (apply allocations_key_same; congruence).
    exists s. repeat split; [exact Hs|exact Hsame|].
    apply (first_best_bound alternatives); auto.
  - exact Hbest.
Qed.

Lemma remove_duplicates_keeps_best_witness :
  same_entries low_alternative high_alternative
  /\ _remove_duplicates [low_alternative; high_alternative] = [high_alternative].
Proof.
  assert (H : same_entries low_alternative high_alternative).
  { apply allocations_key_same. vm_compute. reflexivity. }
  split; [exact H|].
  exact (proj1 (proj2 remove_duplicates_keeps_best)
               low_alternative high_alternative H).
Defined.

(** ** Dictionaries and sums *)

Lemma get_insert_eq (m : gmap Z Q) k v : get (<[k := v]> m) k = v.
Proof. unfold get. rewrite lookup_insert_eq. reflexivity. Qed.

Lemma get_insert_ne (m : gmap Z Q) k k' v :
  k <> k' -> get (<[k := v]> m) k' = get m k'.
Proof. intros H. unfold get. rewrite lookup_insert_ne by exact H. reflexivity. Qed.

Section DictFromList.
Context {A : Type} (key : A -> Z) (val : A -> Q).

Lemma dict_of_untouched l (m : gmap Z Q) k :
  ~ In k (map key l) ->
  get (fold_left (fun m x => <[key x := val x]> m) l m) k = get m k.
Proof.
  revert m. induction l as [|x l IH]; intros m H; [reflexivity|].
  simpl in *. rewrite IH by tauto. apply get_insert_ne. tauto.
Qed.

Lemma dict_of_get l (m : gmap Z Q) x :
  List.NoDup (map key l) -> In x l ->
  get (fold_left (fun m x => <[key x := val x]> m) l m) (key x) = val x.
Proof.
  revert m. induction l as [|y l IH]; intros m Hnd Hin; [destruct Hin|].
  simpl in *. inversion Hnd as [|? ? Hy Hl]; subst.
  destruct Hin as [->|Hin].
  - rewrite dict_of_untouched by exact Hy. apply get_insert_eq.
  - apply IH; assumption.
Qed.
End DictFromList.

Lemma hours_dict_get resources r :
  List.NoDup (map Resource.id resources) -> In r resources ->
  get (hours_dict resources) (Resource.id r) = Resource.available_hours r.
Proof. apply (dict_of_get Resource.id Resource.available_hours). Qed.

Lemma requirements_dict_get tasks t :
  List.NoDup (map Task.id tasks) -> In t tasks ->
  get (requirements_dict tasks) (Task.id t) = Task.required_hours t.
Proof. apply (dict_of_get Task.id Task.required_hours). Qed.

Lemma fold_Qplus_shift l a : fold_left Qplus l a == a + Qsum l.
Proof.
  unfold Qsum. revert a. induction l as [|x l IH]; intros a; simpl; [lra|].
  rewrite (IH (a + x)), (IH (0 + x)). lra.
Qed.

Lemma Qsum_cons x l : Qsum (x :: l) == x + Qsum l.
Proof. unfold Qsum at 1. simpl. rewrite fold_Qplus_shift. lra. Qed.

Lemma Qsum_perm l l' : Permutation l l' -> Qsum l == Qsum l'.
Proof.
  induction 1 as [|x l l' _ IH|x y l|l l' l'' _ IH1 _ IH2].
  - reflexivity.
  - rewrite !Qsum_cons, IH. reflexivity.
  - rewrite !Qsum_cons. lra.
  - rewrite IH1. exact IH2.
Qed.

Lemma Qsum_map_ext_in {A} (f g : A -> Q) l :
  (forall x, In x l -> f x == g x) -> Qsum (map f l) == Qsum (map g l).
Proof.
  induction l as [|x l IH]; intros H; [reflexivity|].
  simpl. rewrite !Qsum_cons, IH, (H x); [reflexivity|left; reflexivity|].
  intros y Hy. apply H. right. exact Hy.
Qed.

Lemma Qsum_nonneg l : Forall (fun x => 0 <= x) l -> 0 <= Qsum l.
Proof.
  induction 1 as [|x l Hx _ IH]; [apply Qle_refl|].
  rewrite Qsum_cons. lra.
Qed.

Lemma hours_of_resource_snoc rid allocs a :
  hours_of_resource rid (allocs ++ [a])
  = if (resource_id a =? rid)%Z
    then hours_of_resource rid allocs + hours a
    else hours_of_resource rid allocs.
Proof.
  unfold hours_of_resource. rewrite List.filter_app. simpl.
  destruct (resource_id a =? rid)%Z.
  - rewrite List.map_app. apply Qsum_snoc.
  - rewrite app_nil_r. reflexivity.
Qed.

(** ** The capacity invariant *)

Lemma capacity_invariant_init resources :
  List.NoDup (map Resource.id resources) ->
  Forall (fun r => 0 < Resource.available_hours r) resources ->
  capacity_invariant resources (hours_dict resources) [].
Proof.
  intros Hnd Hpos r Hr. rewrite (hours_dict_get resources r Hnd Hr).
  rewrite List.Forall_forall in Hpos. specialize (Hpos r Hr).
  split; [apply Qlt_le_weak; exact Hpos|].
  unfold hours_of_resource. simpl. unfold Qsum. simpl. lra.
Qed.

Lemma capacity_invariant_commit resources remaining allocs r tid h :
  List.NoDup (map Resource.id resources) ->
  capacity_invariant resources remaining allocs ->
  In r resources ->
  h <= get remaining (Resource.id r) ->
  capacity_invariant resources
    (<[Resource.id r := get remaining (Resource.id r) - h]> remaining)
    (allocs ++ [mkAlloc (Resource.id r) tid h]).
Proof.
  intros Hnd Hinv Hr Hh r' Hr'.
  destruct (Hinv r' Hr') as [Hpos Hsum].
  rewrite hours_of_resource_snoc. simpl.
  destruct (Z.eqb_spec (Resource.id r) (Resource.id r')) as [E|E].
  - assert (r = r')
      by (apply (NoDup_map_injective Resource.id resources); assumption).
    subst r'. rewrite get_insert_eq. split; lra.
  - rewrite get_insert_ne by exact E. split; assumption.
Qed.

Lemma capacity_invariant_within resources remaining allocs :
  capacity_invariant resources remaining allocs ->
  within_capacity resources allocs.
Proof.
  intros Hinv r Hr. destruct (Hinv r Hr) as [Hpos Hsum]. lra.
Qed.

Lemma coverage_of_le_one allocated required :
  allocated <= required -> coverage_of allocated required <= 1.
Proof.
  intros H. unfold coverage_of.
  destruct (Qltb 0 required) eqn:E; [|discriminate].
  apply Qltb_lt in E. apply Qle_shift_div_r; [exact E|lra].
Qed.

Lemma sorted_In {A} (leb : A -> A -> bool) l x :
  In x (stable_sort leb l) -> In x l.
Proof. apply Permutation_in. symmetry. apply stable_sort_perm. Qed.

(** The needs read from the dictionary, over the sorted tasks, add up to
    the total required hours. *)
Lemma sum_requirements_sorted leb tasks :
  List.NoDup (map Task.id tasks) ->
  Qsum (map (fun t => get (requirements_dict tasks) (Task.id t))
            (stable_sort leb tasks))
  == total_required tasks.
Proof.
  intros Hnd. unfold total_required.
  rewrite <- (Qsum_perm _ _ (Permutation_map _ (stable_sort_perm leb tasks))).
  apply Qsum_map_ext_in. intros t Ht.
  rewrite (requirements_dict_get tasks t Hnd Ht). reflexivity.
Qed.

Lemma requirements_nonneg leb tasks :
  List.NoDup (map Task.id tasks) ->
  Forall (fun t => 0 < Task.required_hours t) tasks ->
  forall t, In t (stable_sort leb tasks) ->
            0 <= get (requirements_dict tasks) (Task.id t).
Proof.
  intros Hnd Hpos t Ht. apply sorted_In in Ht.
  rewrite (requirements_dict_get tasks t Hnd Ht).
  rewrite List.Forall_forall in Hpos. apply Qlt_le_weak. auto.
Qed.

(** ** Strategy 1 *)

Lemma priority_walk_capacity resources task rs :
  List.NoDup (map Resource.id resources) -> incl rs resources ->
  forall need st,
    capacity_invariant resources (Priority.resource_hours st) (Priority.allocs st) ->
    capacity_invariant resources
      (Priority.resource_hours (snd (Priority.walk task rs need st)))
      (Priority.allocs (snd (Priority.walk task rs need st))).
Proof.
  intros Hnd. induction rs as [|r rs IH]; intros Hincl need st Hinv;
    [exact Hinv|].
  simpl. destruct (Qle_bool need 0); [exact Hinv|].
  assert (Hr : In r resources) by (apply Hincl; left; reflexivity).
  assert (Hrs : incl rs resources) by (intros x Hx; apply Hincl; right; exact Hx).
  destruct (Qltb 0 _); [|apply IH; assumption].
  apply IH; [exact Hrs|]. simpl.
  apply capacity_invariant_commit; try assumption. apply Q.le_min_r.
Qed.

Lemma priority_run_capacity resources requirements tasks :
  List.NoDup (map Resource.id resources) ->
  forall st,
    capacity_invariant resources (Priority.resource_hours st) (Priority.allocs st) ->
    capacity_invariant resources
      (Priority.resource_hours (Priority.run resources requirements tasks st))
      (Priority.allocs (Priority.run resources requirements tasks st)).
Proof.
  intros Hnd. induction tasks as [|t ts IH]; intros st Hinv; [exact Hinv|].
  simpl. apply IH. apply priority_walk_capacity; try assumption.
  apply incl_refl.
Qed.

Lemma priority_capacity resources tasks :
  input_contract resources tasks ->
  within_capacity resources
    (allocations (Priority._priority_based_allocation resources tasks)).
Proof.
  intros [Hr _ Ha _ _]. simpl. unfold Priority.allocate.
  eapply capacity_invariant_within. apply priority_run_capacity; [exact Hr|].
  simpl. apply capacity_invariant_init; assumption.
Qed.

Lemma priority_walk_total task rs :
  forall need st,
    0 <= need ->
    0 <= fst (Priority.walk task rs need st)
    /\ Priority.total_allocated (snd (Priority.walk task rs need st))
       + fst (Priority.walk task rs need st)
       == Priority.total_allocated st + need.
Proof.
  induction rs as [|r rs IH]; intros need st Hneed; simpl;
    [split; [exact Hneed|reflexivity]|].
  destruct (Qle_bool need 0); [split; [exact Hneed|reflexivity]|].
  destruct (Qltb 0 _); [|apply IH; exact Hneed].
  set (h := Qmin need _).
  assert (Hh : h <= need) by apply Q.le_min_l.
  match goal with
  | |- context [Priority.walk task rs ?n ?s] =>
      destruct (IH n s) as [H1 H2]; [lra|]
  end.
  split; [exact H1|]. rewrite H2. simpl. lra.
Qed.

Lemma priority_run_total resources requirements tasks :
  (forall t, In t tasks -> 0 <= get requirements (Task.id t)) ->
  forall st,
    Priority.total_allocated (Priority.run resources requirements tasks st)
    <= Priority.total_allocated st
       + Qsum (map (fun t => get requirements (Task.id t)) tasks).
Proof.
  induction tasks as [|t ts IH]; intros Hpos st; simpl.
  - unfold Qsum. simpl. lra.
  - rewrite Qsum_cons.
    eapply Qle_trans; [apply IH; intros t' Ht'; apply Hpos; right; exact Ht'|].
    destruct (priority_walk_total t resources (get requirements (Task.id t)) st)
      as [H1 H2]; [apply Hpos; left; reflexivity|].
    lra.
Qed.

Lemma priority_coverage resources tasks :
  input_contract resources tasks -> Priority.coverage resources tasks <= 1.
Proof.
  intros [_ Ht _ Hp _]. apply coverage_of_le_one. unfold Priority.allocate.
  eapply Qle_trans;
    [apply priority_run_total; apply requirements_nonneg; assumption|].
  rewrite sum_requirements_sorted by exact Ht. simpl. lra.
Qed.

(** ** Strategy 2 *)




(** ** Strategy 3 *)

Lemma lookup_add_by_type ty r d l :
  Specialization.lookup_type ty (Specialization.add_by_type r d) = Some l ->
  Specialization.lookup_type ty d = Some l
  \/ (exists l0, Specialization.lookup_type ty d = Some l0 /\ l = l0 ++ [r])
  \/ l = [r].
Proof.
  induction d as [|[ty' rs] d IH]; simpl.
  - destruct (String.eqb _ ty); [|discriminate].
    intros H. injection H as <-. auto.
  - destruct (String.eqb ty' (Resource.type r)) eqn:E; simpl.
    + destruct (String.eqb ty' ty); [|auto].
      intros H. injection H as <-. right. left. eauto.
    + destruct (String.eqb ty' ty); auto.
Qed.

Lemma group_by_type_incl resources :
  forall rs d,
    (forall ty l, Specialization.lookup_type ty d = Some l -> incl l resources) ->
    incl rs resources ->
    forall ty l,
      Specialization.lookup_type ty
        (fold_left (fun d r => Specialization.add_by_type r d) rs d) = Some l ->
      incl l resources.
Proof.
  induction rs as [|r rs IH]; intros d Hd Hrs ty l; simpl; [apply Hd|].
  apply IH.
  - intros ty' l' H. apply lookup_add_by_type in H as [H|[(l0 & H & ->)| -> ]].
    + eapply Hd. exact H.
    + apply incl_app; [eapply Hd; exact H|].
      intros x [<-|[]]. apply Hrs. left. reflexivity.
    + intros x [<-|[]]. apply Hrs. left. reflexivity.
  - intros x Hx. apply Hrs. right. exact Hx.
Qed.

Lemma resources_to_try_incl resources suitable :
  incl (Specialization.resources_to_try_of resources
          (Specialization.group_by_type resources) suitable)
       resources.
Proof.
  unfold Specialization.resources_to_try_of.
  destruct suitable as [|ty0 tys]; [apply incl_refl|].
  intros x Hx. apply in_concat in Hx as (l & Hl & Hx).
  apply in_map_iff in Hl as (ty & <- & _).
  destruct (Specialization.lookup_type ty _) as [l|] eqn:E; [|destruct Hx].
  simpl in Hx. revert x Hx.
  apply (group_by_type_incl resources resources [] ) with (ty := ty).
  - intros ty' l' H. discriminate.
  - apply incl_refl.
  - exact E.
Qed.

Lemma specialization_commit_capacity resources matched r task h st :
  List.NoDup (map Resource.id resources) ->
  capacity_invariant resources
    (Specialization.resource_hours st) (Specialization.allocs st) ->
  In r resources ->
  h <= get (Specialization.resource_hours st) (Resource.id r) ->
  capacity_invariant resources
    (Specialization.resource_hours (Specialization.commit matched r task h st))
    (Specialization.allocs (Specialization.commit matched r task h st)).
Proof. intros. simpl. apply capacity_invariant_commit; assumption. Qed.

Lemma first_pass_capacity resources task suitable rs :
  List.NoDup (map Resource.id resources) -> incl rs resources ->
  forall need st,
    capacity_invariant resources
      (Specialization.resource_hours st) (Specialization.allocs st) ->
    capacity_invariant resources
      (Specialization.resource_hours
         (snd (Specialization.first_pass task suitable rs need st)))
      (Specialization.allocs
         (snd (Specialization.first_pass task suitable rs need st))).
Proof.
  intros Hnd. induction rs as [|r rs IH]; intros Hincl need st Hinv;
    [exact Hinv|].
  simpl. destruct (Qle_bool need 0); [exact Hinv|].
  assert (Hr : In r resources) by (apply Hincl; left; reflexivity).
  assert (Hrs : incl rs resources) by (intros x Hx; apply Hincl; right; exact Hx).
  destruct (Qltb 0 _); [|apply IH; assumption].
  apply IH; [exact Hrs|].
  apply specialization_commit_capacity; try assumption. apply Q.le_min_r.
Qed.

Lemma second_pass_capacity resources task tried rs :
  List.NoDup (map Resource.id resources) -> incl rs resources ->
  forall need st,
    capacity_invariant resources
      (Specialization.resource_hours st) (Specialization.allocs st) ->
    capacity_invariant resources
      (Specialization.resource_hours
         (snd (Specialization.second_pass task tried rs need st)))
      (Specialization.allocs
         (snd (Specialization.second_pass task tried rs need st))).
Proof.
  intros Hnd. induction rs as [|r rs IH]; intros Hincl need st Hinv;
    [exact Hinv|].
  simpl. destruct (Qle_bool need 0); [exact Hinv|].
  assert (Hr : In r resources) by (apply Hincl; left; reflexivity).
  assert (Hrs : incl rs resources) by (intros x Hx; apply Hincl; right; exact Hx).
  destruct (_ && _); [|apply IH; assumption].
  apply IH; [exact Hrs|].
  apply specialization_commit_capacity; try assumption. apply Q.le_min_r.
Qed.

Lemma one_task_capacity resources requirements task st :
  List.NoDup (map Resource.id resources) ->
  capacity_invariant resources
    (Specialization.resource_hours st) (Specialization.allocs st) ->
  capacity_invariant resources
    (Specialization.resource_hours
       (snd (Specialization.one_task resources
               (Specialization.group_by_type resources) requirements task st)))
    (Specialization.allocs
       (snd (Specialization.one_task resources
               (Specialization.group_by_type resources) requirements task st))).
Proof.
  intros Hnd Hinv. unfold Specialization.one_task.
  pose proof (first_pass_capacity resources task
                (Specialization.suitable_types_of task) _ Hnd
                (resources_to_try_incl resources
                   (Specialization.suitable_types_of task))
                (get requirements (Task.id task)) st Hinv) as H1.
  destruct (Specialization.first_pass _ _ _ _ _) as [need1 st1].
  simpl in H1. destruct (Qltb 0 need1); [|exact H1].
  apply second_pass_capacity; try assumption. apply incl_refl.
Qed.

Lemma specialization_run_capacity resources requirements tasks :
  List.NoDup (map Resource.id resources) ->
  forall st,
    capacity_invariant resources
      (Specialization.resource_hours st) (Specialization.allocs st) ->
    capacity_invariant resources
      (Specialization.resource_hours
         (Specialization.run resources (Specialization.group_by_type resources)
            requirements tasks st))
      (Specialization.allocs
         (Specialization.run resources (Specialization.group_by_type resources)
            requirements tasks st)).
Proof.
  intros Hnd. induction tasks as [|t ts IH]; intros st Hinv; [exact Hinv|].
  simpl. apply IH. apply one_task_capacity; assumption.
Qed.

Lemma specialization_capacity resources tasks :
  input_contract resources tasks ->
  within_capacity resources
    (allocations (Specialization._specialization_based_allocation resources tasks)).
Proof.
  intros [Hr _ Ha _ _]. simpl. unfold Specialization.allocate.
  eapply capacity_invariant_within.
  apply specialization_run_capacity; [exact Hr|].
  simpl. apply capacity_invariant_init; assumption.
Qed.

Lemma first_pass_total task suitable rs :
  forall need st,
    0 <= need ->
    0 <= fst (Specialization.first_pass task suitable rs need st)
    /\ Specialization.total_allocated
         (snd (Specialization.first_pass task suitable rs need st))
       + fst (Specialization.first_pass task suitable rs need st)
       == Specialization.total_allocated st + need.
Proof.
  induction rs as [|r rs IH]; intros need st Hneed; simpl;
    [split; [exact Hneed|reflexivity]|].
  destruct (Qle_bool need 0); [split; [exact Hneed|reflexivity]|].
  destruct (Qltb 0 _); [|apply IH; exact Hneed].
  set (h := Qmin need _).
  assert (Hh : h <= need) by apply Q.le_min_l.
  match goal with
  | |- context [Specialization.first_pass task suitable rs ?n ?s] =>
      destruct (IH n s) as [H1 H2]; [lra|]
  end.
  split; [exact H1|]. rewrite H2. simpl. lra.
Qed.

Lemma second_pass_total task tried rs :
  forall need st,
    0 <= need ->
    0 <= fst (Specialization.second_pass task tried rs need st)
    /\ Specialization.total_allocated
         (snd (Specialization.second_pass task tried rs need st))
       + fst (Specialization.second_pass task tried rs need st)
       == Specialization.total_allocated st + need.
Proof.
  induction rs as [|r rs IH]; intros need st Hneed; simpl;
    [split; [exact Hneed|reflexivity]|].
  destruct (Qle_bool need 0); [split; [exact Hneed|reflexivity]|].
  destruct (_ && _); [|apply IH; exact Hneed].
  set (h := Qmin need _).
  assert (Hh : h <= need) by apply Q.le_min_l.
  match goal with
  | |- context [Specialization.second_pass task tried rs ?n ?s] =>
      destruct (IH n s) as [H1 H2]; [lra|]
  end.
  split; [exact H1|]. rewrite H2. simpl. lra.
Qed.

Lemma one_task_total resources by_type requirements task st :
  0 <= get requirements (Task.id task) ->
  Specialization.total_allocated
    (snd (Specialization.one_task resources by_type requirements task st))
  <= Specialization.total_allocated st + get requirements (Task.id task).
Proof.
  intros Hneed. unfold Specialization.one_task.
  destruct (first_pass_total task (Specialization.suitable_types_of task)
              (Specialization.resources_to_try_of resources by_type
                 (Specialization.suitable_types_of task))
              (get requirements (Task.id task)) st Hneed) as [H1 H2].
  destruct (Specialization.first_pass _ _ _ _ _) as [need1 st1].
  simpl in H1, H2.
  destruct (Qltb 0 need1); [|simpl; lra].
  destruct (second_pass_total task
              (Specialization.resources_to_try_of resources by_type
                 (Specialization.suitable_types_of task))
              resources need1 st1 H1) as [H3 H4].
  lra.
Qed.

Lemma specialization_run_total resources by_type requirements tasks :
  (forall t, In t tasks -> 0 <= get requirements (Task.id t)) ->
  forall st,
    Specialization.total_allocated
      (Specialization.run resources by_type requirements tasks st)
    <= Specialization.total_allocated st
       + Qsum (map (fun t => get requirements (Task.id t)) tasks).
Proof.
  induction tasks as [|t ts IH]; intros Hpos st; simpl.
  - unfold Qsum. simpl. lra.
  - rewrite Qsum_cons.
    eapply Qle_trans; [apply IH; intros t' Ht'; apply Hpos; right; exact Ht'|].
    pose proof (one_task_total resources by_type requirements t st
                  (Hpos t (or_introl eq_refl))).
    lra.
Qed.


(** ** Strategy 4 *)

Lemma overload_available_incl ideal resources st :
  incl (Overload.available_resources ideal resources st) resources.
Proof.
  unfold Overload.available_resources.
  destruct (Overload.under_cap ideal resources st) eqn:E.
  - apply incl_filter.
  - rewrite <- E. apply incl_filter.
Qed.

Lemma Qsum_hours_snoc allocs a :
  Qsum (map hours (allocs ++ [a])) = Qsum (map hours allocs) + hours a.
Proof. rewrite List.map_app. apply Qsum_snoc. Qed.






(** ** Strategy 5 *)

Lemma greedy_body_invariant resources task need st need' st' :
  List.NoDup (map Resource.id resources) ->
  Greedy.body resources task need st = Some (need', st') ->
  capacity_invariant resources (Greedy.resource_hours st) (Greedy.allocs st) ->
  0 <= need ->
  capacity_invariant resources (Greedy.resource_hours st') (Greedy.allocs st')
  /\ 0 <= need'
  /\ Greedy.total_allocated st' + need' == Greedy.total_allocated st + need.
Proof.
  intros Hnd Hbody Hinv Hneed. unfold Greedy.body in Hbody.
  destruct (Greedy.available_resources resources st) as [|r l] eqn:E;
    [discriminate|].
  set (best := max_by _ r l) in Hbody.
  assert (Hbest : In best resources).
  { apply (incl_filter
             (fun r => Qltb 0.1 (get (Greedy.resource_hours st) (Resource.id r)))
             resources).
    fold (Greedy.available_resources resources st). rewrite E.
    apply max_by_In. }
  set (h := Qmin need _) in Hbody.
  assert (Hh1 : h <= need) by apply Q.le_min_l.
  assert (Hh2 : h <= get (Greedy.resource_hours st) (Resource.id best))
    by apply Q.le_min_r.
  destruct (Qltb 0.1 h); injection Hbody as <- <-.
  - split; [|split].
    + simpl. apply capacity_invariant_commit; assumption.
    + lra.
    + simpl. lra.
  - split; [exact Hinv|split; [exact Hneed|reflexivity]].
Qed.

Lemma greedy_while_invariant resources task :
  List.NoDup (map Resource.id resources) ->
  forall fuel need st st',
    Greedy.while fuel resources task need st = Some st' ->
    capacity_invariant resources (Greedy.resource_hours st) (Greedy.allocs st) ->
    0 <= need ->
    capacity_invariant resources (Greedy.resource_hours st') (Greedy.allocs st')
    /\ Greedy.total_allocated st' <= Greedy.total_allocated st + need.
Proof.
  intros Hnd. induction fuel as [|fuel IH]; intros need st st' Hw Hinv Hneed;
    [discriminate|].
  simpl in Hw.
  destruct (Qltb 0 need);
    [|injection Hw as <-; split; [exact Hinv|lra]].
  destruct (Greedy.body resources task need st) as [[need1 st1]|] eqn:E;
    [|injection Hw as <-; split; [exact Hinv|lra]].
  destruct (greedy_body_invariant _ _ _ _ _ _ Hnd E Hinv Hneed)
    as (Hinv1 & Hneed1 & Htot).
  destruct (IH need1 st1 st' Hw Hinv1 Hneed1) as [Hinv' Htot'].
  split; [exact Hinv'|lra].
Qed.

Lemma greedy_run_invariant resources requirements fuel tasks :
  List.NoDup (map Resource.id resources) ->
  (forall t, In t tasks -> 0 <= get requirements (Task.id t)) ->
  forall st st',
    Greedy.run fuel resources requirements tasks st = Some st' ->
    capacity_invariant resources (Greedy.resource_hours st) (Greedy.allocs st) ->
    capacity_invariant resources (Greedy.resource_hours st') (Greedy.allocs st')
    /\ Greedy.total_allocated st'
       <= Greedy.total_allocated st
          + Qsum (map (fun t => get requirements (Task.id t)) tasks).
Proof.
  intros Hnd. induction tasks as [|t ts IH]; intros Hpos st st' Hrun Hinv;
    simpl in Hrun.
  - injection Hrun as <-. split; [exact Hinv|]. unfold Qsum. simpl. lra.
  - destruct (Greedy.while fuel resources t _ st) as [st1|] eqn:E;
      [|discriminate].
    destruct (greedy_while_invariant _ _ Hnd _ _ _ _ E Hinv
                (Hpos t (or_introl eq_refl))) as [Hinv1 Htot1].
    destruct (IH (fun t' Ht' => Hpos t' (or_intror Ht')) st1 st' Hrun Hinv1)
      as [Hinv' Htot'].
    split; [exact Hinv'|]. simpl. rewrite Qsum_cons. lra.
Qed.

Lemma greedy_allocate_invariant fuel resources tasks st :
  input_contract resources tasks ->
  Greedy.allocate fuel resources tasks = Some st ->
  within_capacity resources (Greedy.allocs st)
  /\ Greedy.coverage tasks st <= 1.
Proof.
  intros [Hr Ht Ha Hp _] Hrun. unfold Greedy.allocate in Hrun.
  destruct (greedy_run_invariant _ _ _ _ Hr
              (requirements_nonneg priority_size_leb tasks Ht Hp) _ _ Hrun)
    as [Hinv Htot].
  { simpl. apply capacity_invariant_init; assumption. }
  split; [eapply capacity_invariant_within; exact Hinv|].
  apply coverage_of_le_one.
  rewrite sum_requirements_sorted in Htot by exact Ht.
  simpl in Htot. lra.
Qed.


(** * Further properties of the engine *)

(** ** The shape of normalized allocations *)

Lemma normalize_by_sum_In alternatives alt :
  In alt (normalize_by_sum alternatives)
  <-> exists alt0,
        In alt0 alternatives
        /\ drop_then_round (allocations alt0) <> []
        /\ alt = {| explanation := explanation alt0; score := score alt0;
                    allocations := drop_then_round (allocations alt0) |}.
Proof.
  unfold normalize_by_sum, normalize_with. rewrite in_flat_map. split.
  - intros (alt0 & Hin & H). exists alt0. split; [exact Hin|].
    destruct (drop_then_round (allocations alt0)) as [|a l]; [destruct H|].
    destruct H as [<-|[]]. split; [discriminate|reflexivity].
  - intros (alt0 & Hin & Hne & ->). exists alt0. split; [exact Hin|].
    destruct (drop_then_round (allocations alt0)) as [|a l]; [congruence|].
    left. reflexivity.
Qed.

(** X1: in every alternative that normalization returns, the allocation
    list is not empty, no (resource, task) pair occurs twice, and every
    entry has a whole number of tenths of an hour, at least five. *)
Theorem normalized_shape :
  forall alternatives alt,
    In alt (_normalize_allocations alternatives) ->
    allocations alt <> []
    /\ List.NoDup (map key_of (allocations alt))
    /\ forall a, In a (allocations alt) ->
                 exists n, (5 <= n)%Z /\ hours a = n # 10.
Proof.
  intros alternatives alt Hin. rewrite normalize_agrees_by_sum in Hin.
  apply normalize_by_sum_In in Hin as (alt0 & _ & Hne & ->). simpl.
  split; [exact Hne|]. split; [apply drop_then_round_keys|].
  intros a Ha. apply drop_then_round_settled in Ha as (s & Hs & ->).
  exists (round_half_even (s * 10)). split; [|reflexivity].
  pose proof (round1_keeps_threshold s Hs) as H.
  unfold round1, Qle in H. simpl in H. lia.
Qed.

Lemma normalized_shape_witness :
  exists alt,
    _normalize_allocations [mixed_alternative] = [alt]
    /\ allocations alt <> []
    /\ List.NoDup (map key_of (allocations alt)).
Proof.
  eexists. split; [vm_compute; reflexivity|].
  destruct (normalized_shape [mixed_alternative]
              (mkAlt (ExplGreedy 1 1) 70 [mkAlloc 1 1 (18 # 10)]))
    as (H1 & H2 & _); [vm_compute; left; reflexivity|].
  split; [exact H1|exact H2].
Defined.

(** X2: normalization returns the alternatives it keeps in the order it
    received them, each with the explanation and the score it came with. *)
Theorem normalization_keeps_labels :
  forall alternatives,
    sublist (map label (_normalize_allocations alternatives))
            (map label alternatives).
Proof.
  induction alternatives as [|alt rest IH]; [constructor|].
  simpl. destruct (normalized_allocations (allocations alt)).
  - apply sublist_cons. exact IH.
  - simpl. apply sublist_skip. exact IH.
Qed.

(** ** The entries of the reference *)

Lemma drop_then_round_In allocs a :
  In a (drop_then_round allocs)
  <-> In (key_of a) (map key_of allocs)
      /\ 0.5 <= summed_hours (key_of a) allocs
      /\ hours a = round1 (summed_hours (key_of a) allocs).
Proof.
  unfold drop_then_round. rewrite in_map_iff. split.
  - intros (g & <- & Hg). apply filter_In in Hg as [Hg Hs].
    apply negb_true_iff, Qltb_ge in Hs.
    unfold grouped_reference in Hg. apply in_map_iff in Hg as (k & <- & Hk).
    apply (proj1 (distinct_keys_In _ _)) in Hk. destruct k as [rid tid].
    unfold rounded, key_of. simpl. auto.
  - intros (Hk & Hs & Hh).
    exists (pair (key_of a) (summed_hours (key_of a) allocs)). split.
    + destruct a as [rid tid h]. unfold rounded. simpl in *. congruence.
    + apply filter_In. split.
      * unfold grouped_reference.
        apply (in_map (fun k => (k, summed_hours k allocs))).
        apply distinct_keys_In. exact Hk.
      * simpl. apply negb_true_iff, Qltb_ge. exact Hs.
Qed.

(** ** Deduplication, again *)

Lemma dedup_loop_distinct rest :
  forall unique,
    List.NoDup (map allocations_key (unique ++ rest)) ->
    dedup_loop rest (map allocations_key unique) unique = unique ++ rest.
Proof.
  induction rest as [|alt rest IH]; intros unique Hnd; simpl.
  - rewrite app_nil_r. reflexivity.
  - assert (Hnew : existsb (key_eqb (allocations_key alt))
                           (map allocations_key unique) = false).
    { destruct (existsb _ _) eqn:E; [|reflexivity].
      apply existsb_key_In in E. exfalso.
      rewrite List.map_app in Hnd. simpl in Hnd.
      apply List.NoDup_remove_2 in Hnd. apply Hnd.
      apply in_app_iff. left. exact E. }
    rewrite Hnew.
    replace (map allocations_key unique ++ [allocations_key alt])
      with (map allocations_key (unique ++ [alt]))
      by (rewrite List.map_app; reflexivity).
    rewrite IH; rewrite <- app_assoc; [reflexivity|exact Hnd].
Qed.

Lemma remove_duplicates_distinct alternatives :
  List.NoDup (map allocations_key alternatives) ->
  _remove_duplicates alternatives = alternatives.
Proof. intros H. apply (dedup_loop_distinct alternatives [] H). Qed.

(** X4: alternatives whose rounded entries differ pairwise are all kept,
    in the order given. *)
Theorem remove_duplicates_keeps_distinct :
  forall alternatives,
    (forall i j a b,
        nth_error alternatives i = Some a ->
        nth_error alternatives j = Some b ->
        same_entries a b -> i = j) ->
    _remove_duplicates alternatives = alternatives.
Proof.
  intros alternatives H. apply remove_duplicates_distinct.
  apply NoDup_nth_error. intros i j Hi E.
  rewrite length_map in Hi. apply nth_error_Some in Hi.
  destruct (nth_error alternatives i) as [a|] eqn:Ea; [|congruence].
  rewrite (map_nth_error _ _ _ Ea) in E. symmetry in E.
  destruct (nth_error alternatives j) as [b|] eqn:Eb.
  - rewrite (map_nth_error _ _ _ Eb) in E. injection E as E.
    apply (H i j a b Ea Eb). apply allocations_key_same. congruence.
  - assert (Hj : nth_error (map allocations_key alternatives) j = None).
    { apply nth_error_None. rewrite length_map. apply nth_error_None.
      exact Eb. }
    congruence.
Qed.

Lemma remove_duplicates_keeps_distinct_witness :
  _remove_duplicates [once_alternative; twice_alternative]
  = [once_alternative; twice_alternative].
Proof.
  apply remove_duplicates_keeps_distinct.
  intros i j a b Hi Hj Hs. apply allocations_key_same in Hs.
  destruct i as [|[|i]], j as [|[|j]]; simpl in *; try reflexivity;
    try discriminate;
    try (destruct i; discriminate); try (destruct j; discriminate);
    injection Hi as <-; injection Hj as <-; vm_compute in Hs; discriminate.
Defined.

(** X5: removing duplicates a second time changes nothing. *)
Theorem remove_duplicates_idempotent :
  forall alternatives,
    _remove_duplicates (_remove_duplicates alternatives)
    = _remove_duplicates alternatives.
Proof.
  intros alternatives. apply remove_duplicates_distinct.
  apply (remove_duplicates_invariant alternatives).
Qed.

Lemma replace_better_length alt unique :
  length (replace_better alt unique) = length unique.
Proof.
  induction unique as [|e l IH]; [reflexivity|].
  simpl. destruct (_ && _); simpl; [reflexivity|]. rewrite IH. reflexivity.
Qed.

Lemma dedup_loop_length rest :
  forall seen unique,
    (length (dedup_loop rest seen unique) <= length unique + length rest)%nat.
Proof.
  induction rest as [|alt rest IH]; intros seen unique; simpl; [lia|].
  destruct (existsb _ _).
  - specialize (IH seen (replace_better alt unique)).
    rewrite replace_better_length in IH. lia.
  - specialize (IH (seen ++ [allocations_key alt]) (unique ++ [alt])).
    rewrite length_app in IH. simpl in IH. lia.
Qed.

Lemma remove_duplicates_In alternatives s :
  In s (_remove_duplicates alternatives) -> In s alternatives.
Proof.
  intros H.
  destruct (remove_duplicates_invariant alternatives) as (_ & Hbest & _).
  destruct (Hbest s H) as (before & after & -> & _). apply in_elt.
Qed.

(** ** What [generate_alternatives] returns *)

Lemma normalize_length alternatives :
  (length (_normalize_allocations alternatives) <= length alternatives)%nat.
Proof.
  induction alternatives as [|alt rest IH]; simpl; [lia|].
  destruct (normalized_allocations _); simpl; lia.
Qed.

Lemma collect_alternatives_length fuel resources tasks collected :
  collect_alternatives fuel resources tasks = Some collected ->
  (length collected <= 5)%nat.
Proof.
  unfold collect_alternatives.
  destruct (Overload._minimize_overload_allocation _ _ _) as [alt4|];
    [|discriminate].
  destruct (Greedy._greedy_optimized_allocation _ _ _) as [alt5|];
    [|discriminate].
  intros H. injection H as <-.
  destruct (Balanced._balanced_allocation resources tasks), alt4; simpl;
    repeat (rewrite length_app; simpl); lia.
Qed.

Lemma generate_alternatives_stages fuel resources tasks out :
  generate_alternatives fuel resources tasks = Some out ->
  out = []
  \/ exists collected,
      collect_alternatives fuel resources tasks = Some collected
      /\ out = stable_sort score_geb
                 (_normalize_allocations (_remove_duplicates collected)).
Proof.
  unfold generate_alternatives.
  destruct resources as [|r rs]; [intros H; injection H as <-; auto|].
  destruct tasks as [|t ts]; [intros H; injection H as <-; auto|].
  destruct (collect_alternatives fuel (r :: rs) (t :: ts)) as [collected|];
    [|discriminate].
  intros H. injection H as <-. right. eauto.
Qed.

Lemma normalize_In_origin alternatives alt :
  In alt (_normalize_allocations alternatives) ->
  exists raw,
    In raw alternatives
    /\ label alt = label raw
    /\ allocations alt = normalized_allocations (allocations raw).
Proof.
  rewrite normalize_agrees_by_sum. intros H.
  apply normalize_by_sum_In in H as (raw & Hin & _ & ->).
  exists raw. split; [exact Hin|]. split; [reflexivity|].
  simpl. symmetry. apply normalized_allocations_reference.
Qed.

Lemma normalize_In_shape alternatives alt :
  In alt (_normalize_allocations alternatives) ->
  allocations alt <> []
  /\ List.NoDup (map key_of (allocations alt))
  /\ forall a, In a (allocations alt) ->
               exists n, (5 <= n)%Z /\ hours a = n # 10.
Proof.
  intros Hin. rewrite normalize_agrees_by_sum in Hin.
  apply normalize_by_sum_In in Hin as (alt0 & _ & Hne & ->). simpl.
  split; [exact Hne|]. split; [apply drop_then_round_keys|].
  intros a Ha. apply drop_then_round_settled in Ha as (s & Hs & ->).
  exists (round_half_even (s * 10)). split; [|reflexivity].
  pose proof (round1_keeps_threshold s Hs) as H.
  unfold round1, Qle in H. simpl in H. lia.
Qed.

(** X6: [generate_alternatives] returns at most five alternatives; none
    has an empty allocation list or the same (resource, task) pair twice,
    and every entry holds a whole number of tenths of an hour, at least
    five. *)
Theorem generated_shape :
  forall fuel resources tasks out,
    generate_alternatives fuel resources tasks = Some out ->
    (length out <= 5)%nat
    /\ forall alt, In alt out ->
         allocations alt <> []
         /\ List.NoDup (map key_of (allocations alt))
         /\ forall a, In a (allocations alt) ->
                      exists n, (5 <= n)%Z /\ hours a = n # 10.
Proof.
  intros fuel resources tasks out Hgen.
  apply generate_alternatives_stages in Hgen as [->|(collected & Hcol & ->)].
  { split; [simpl; lia|intros alt []]. }
  split.
  - rewrite <- (Permutation_length (stable_sort_perm score_geb _)).
    pose proof (normalize_length (_remove_duplicates collected)).
    pose proof (dedup_loop_length collected [] []).
    pose proof (collect_alternatives_length _ _ _ _ Hcol).
    unfold _remove_duplicates in *. simpl in *. lia.
  - intros alt Hin. apply sorted_In in Hin.
    apply (normalize_In_shape _ _ Hin).
Qed.

Lemma generated_shape_witness :
  exists out,
    generate_alternatives 5 scenario_resources scenario_tasks = Some out
    /\ (length out <= 5)%nat.
Proof.
  eexists. split; [vm_compute; reflexivity|].
  apply (generated_shape 5 scenario_resources scenario_tasks).
  vm_compute. reflexivity.
Defined.

(** X7: every alternative that [generate_alternatives] returns is one of
    the alternatives of the strategies with its allocations normalized:
    its explanation and its score are the ones the strategy computed on
    the raw allocations. *)
Theorem generated_from_strategies :
  forall fuel resources tasks out alt,
    generate_alternatives fuel resources tasks = Some out ->
    In alt out ->
    exists collected raw,
      collect_alternatives fuel resources tasks = Some collected
      /\ In raw collected
      /\ label alt = label raw
      /\ allocations alt = normalized_allocations (allocations raw).
Proof.
  intros fuel resources tasks out alt Hgen Hin.
  apply generate_alternatives_stages in Hgen as [->|(collected & Hcol & ->)];
    [destruct Hin|].
  apply sorted_In in Hin.
  apply normalize_In_origin in Hin as (raw & Hraw & Hl & Ha).
  exists collected, raw. split; [exact Hcol|].
  split; [apply remove_duplicates_In; exact Hraw|]. split; assumption.
Qed.

Lemma generated_from_strategies_witness :
  exists out,
    generate_alternatives 5 scenario_resources scenario_tasks = Some out
    /\ forall alt, In alt out ->
         exists collected raw,
           collect_alternatives 5 scenario_resources scenario_tasks
           = Some collected
           /\ In raw collected
           /\ label alt = label raw
           /\ allocations alt = normalized_allocations (allocations raw).
Proof.
  eexists. split; [vm_compute; reflexivity|].
  intros alt Hin.
  eapply (generated_from_strategies 5 scenario_resources scenario_tasks);
    [vm_compute; reflexivity|exact Hin].
Defined.

(** ** The allocations a strategy writes *)

Lemma well_formed_snoc resources tasks allocs r t h :
  Forall (well_formed resources tasks) allocs ->
  In r resources -> In t tasks -> 0 < h ->
  Forall (well_formed resources tasks)
         (allocs ++ [mkAlloc (Resource.id r) (Task.id t) h]).
Proof.
  intros Hall Hr Ht Hh. apply List.Forall_app. split; [exact Hall|].
  constructor; [|constructor].
  split; [apply (in_map Resource.id); exact Hr|].
  split; [apply (in_map Task.id); exact Ht|exact Hh].
Qed.

Lemma Qle_bool_false a b : Qle_bool a b = false -> b < a.
Proof.
  intros H. apply Qltb_lt. unfold Qltb. rewrite H. reflexivity.
Qed.

Lemma priority_walk_well_formed resources tasks task rs :
  In task tasks -> incl rs resources ->
  forall need st,
    Forall (well_formed resources tasks) (Priority.allocs st) ->
    Forall (well_formed resources tasks)
           (Priority.allocs (snd (Priority.walk task rs need st))).
Proof.
  intros Ht. induction rs as [|r rs IH]; intros Hincl need st Hwf;
    [exact Hwf|].
  simpl. destruct (Qle_bool need 0) eqn:En; [exact Hwf|].
  apply Qle_bool_false in En.
  assert (Hr : In r resources) by (apply Hincl; left; reflexivity).
  assert (Hrs : incl rs resources) by (intros x Hx; apply Hincl; right; exact Hx).
  destruct (Qltb 0 _) eqn:Ea; [|apply IH; assumption].
  apply Qltb_lt in Ea.
  apply IH; [exact Hrs|]. simpl.
  apply well_formed_snoc; try assumption. apply Q.min_glb_lt; assumption.
Qed.

Lemma priority_run_well_formed resources tasks requirements ts :
  incl ts tasks ->
  forall st,
    Forall (well_formed resources tasks) (Priority.allocs st) ->
    Forall (well_formed resources tasks)
           (Priority.allocs (Priority.run resources requirements ts st)).
Proof.
  induction ts as [|t ts IH]; intros Hincl st Hwf; [exact Hwf|].
  simpl. apply IH; [intros x Hx; apply Hincl; right; exact Hx|].
  apply priority_walk_well_formed;
    [apply Hincl; left; reflexivity|apply incl_refl|exact Hwf].
Qed.

Lemma sorted_incl {A} (leb : A -> A -> bool) l : incl (stable_sort leb l) l.
Proof. intros x Hx. apply (sorted_In leb). exact Hx. Qed.

Lemma priority_well_formed resources tasks :
  Forall (well_formed resources tasks)
         (allocations (Priority._priority_based_allocation resources tasks)).
Proof.
  simpl. unfold Priority.allocate.
  apply priority_run_well_formed; [apply sorted_incl|constructor].
Qed.

Lemma balanced_walk_well_formed resources tasks task share rs :
  In task tasks -> incl rs resources ->
  forall allocated st,
    Forall (well_formed resources tasks) (Balanced.allocs st) ->
    Forall (well_formed resources tasks)
           (Balanced.allocs (snd (Balanced.walk task share rs allocated st))).
Proof.
  intros Ht. induction rs as [|r rs IH]; intros Hincl allocated st Hwf;
    [exact Hwf|].
  simpl. destruct (Qle_bool share allocated) eqn:En; [exact Hwf|].
  apply Qle_bool_false in En.
  assert (Hr : In r resources) by (apply Hincl; left; reflexivity).
  assert (Hrs : incl rs resources) by (intros x Hx; apply Hincl; right; exact Hx).
  destruct (Qltb 0 _) eqn:Ea; [|apply IH; assumption].
  apply Qltb_lt in Ea.
  apply IH; [exact Hrs|]. simpl.
  apply well_formed_snoc; try assumption.
  apply Q.min_glb_lt; [lra|assumption].
Qed.

Lemma balanced_run_well_formed resources tasks proportions available ts :
  incl ts tasks ->
  forall st,
    Forall (well_formed resources tasks) (Balanced.allocs st) ->
    Forall (well_formed resources tasks)
           (Balanced.allocs
              (Balanced.run resources proportions available ts st)).
Proof.
  induction ts as [|t ts IH]; intros Hincl st Hwf; [exact Hwf|].
  simpl. apply IH; [intros x Hx; apply Hincl; right; exact Hx|].
  apply balanced_walk_well_formed;
    [apply Hincl; left; reflexivity|apply incl_refl|exact Hwf].
Qed.

Lemma balanced_well_formed resources tasks alt :
  Balanced._balanced_allocation resources tasks = Some alt ->
  Forall (well_formed resources tasks) (allocations alt).
Proof.
  unfold Balanced._balanced_allocation.
  destruct (_ || _); [discriminate|]. intros H. injection H as <-. simpl.
  unfold Balanced.allocate.
  apply balanced_run_well_formed; [apply incl_refl|constructor].
Qed.

Lemma first_pass_well_formed resources tasks task suitable rs :
  In task tasks -> incl rs resources ->
  forall need st,
    Forall (well_formed resources tasks) (Specialization.allocs st) ->
    Forall (well_formed resources tasks)
           (Specialization.allocs
              (snd (Specialization.first_pass task suitable rs need st))).
Proof.
  intros Ht. induction rs as [|r rs IH]; intros Hincl need st Hwf;
    [exact Hwf|].
  simpl. destruct (Qle_bool need 0) eqn:En; [exact Hwf|].
  apply Qle_bool_false in En.
  assert (Hr : In r resources) by (apply Hincl; left; reflexivity).
  assert (Hrs : incl rs resources) by (intros x Hx; apply Hincl; right; exact Hx).
  destruct (Qltb 0 _) eqn:Ea; [|apply IH; assumption].
  apply Qltb_lt in Ea.
  apply IH; [exact Hrs|]. simpl.
  apply well_formed_snoc; try assumption. apply Q.min_glb_lt; assumption.
Qed.

Lemma second_pass_well_formed resources tasks task tried rs :
  In task tasks -> incl rs resources ->
  forall need st,
    Forall (well_formed resources tasks) (Specialization.allocs st) ->
    Forall (well_formed resources tasks)
           (Specialization.allocs
              (snd (Specialization.second_pass task tried rs need st))).
Proof.
  intros Ht. induction rs as [|r rs IH]; intros Hincl need st Hwf;
    [exact Hwf|].
  simpl. destruct (Qle_bool need 0) eqn:En; [exact Hwf|].
  apply Qle_bool_false in En.
  assert (Hr : In r resources) by (apply Hincl; left; reflexivity).
  assert (Hrs : incl rs resources) by (intros x Hx; apply Hincl; right; exact Hx).
  destruct (Qltb 0 _ && _) eqn:Ea; [|apply IH; assumption].
  apply andb_true_iff in Ea as [Ea _]. apply Qltb_lt in Ea.
  apply IH; [exact Hrs|]. simpl.
  apply well_formed_snoc; try assumption. apply Q.min_glb_lt; assumption.
Qed.

Lemma specialization_run_well_formed resources tasks requirements ts :
  incl ts tasks ->
  forall st,
    Forall (well_formed resources tasks) (Specialization.allocs st) ->
    Forall (well_formed resources tasks)
           (Specialization.allocs
              (Specialization.run resources
                 (Specialization.group_by_type resources) requirements ts st)).
Proof.
  induction ts as [|t ts IH]; intros Hincl st Hwf; [exact Hwf|].
  simpl. apply IH; [intros x Hx; apply Hincl; right; exact Hx|].
  assert (Ht : In t tasks) by (apply Hincl; left; reflexivity).
  unfold Specialization.one_task.
  pose proof (first_pass_well_formed resources tasks t
                (Specialization.suitable_types_of t) _ Ht
                (resources_to_try_incl resources
                   (Specialization.suitable_types_of t))
                (get requirements (Task.id t)) st Hwf) as H1.
  destruct (Specialization.first_pass _ _ _ _ _) as [need1 st1].
  simpl in H1. destruct (Qltb 0 need1); [|exact H1].
  apply second_pass_well_formed; try assumption. apply incl_refl.
Qed.

Lemma specialization_well_formed resources tasks :
  Forall (well_formed resources tasks)
         (allocations
            (Specialization._specialization_based_allocation resources tasks)).
Proof.
  simpl. unfold Specialization.allocate.
  apply specialization_run_well_formed; [apply sorted_incl|constructor].
Qed.

Lemma overload_while_well_formed resources tasks ideal task :
  In task tasks ->
  forall fuel need st st',
    Overload.while fuel ideal resources task need st = Some st' ->
    Forall (well_formed resources tasks) (Overload.allocs st) ->
    Forall (well_formed resources tasks) (Overload.allocs st').
Proof.
  intros Ht. induction fuel as [|fuel IH]; intros need st st' Hw Hwf;
    [discriminate|].
  simpl in Hw. destruct (Qltb 0 need); [|injection Hw as <-; exact Hwf].
  unfold Overload.body in Hw.
  destruct (Overload.available_resources ideal resources st) as [|r l] eqn:E;
    [injection Hw as <-; exact Hwf|].
  set (best := min_by _ r l) in Hw.
  assert (Hbest : In best resources).
  { apply (overload_available_incl ideal resources st). rewrite E.
    apply min_by_In. }
  destruct (Qltb 0 _) eqn:Eh; [|apply (IH _ _ _ Hw Hwf)].
  apply Qltb_lt in Eh. apply (IH _ _ _ Hw). simpl.
  apply well_formed_snoc; assumption.
Qed.

Lemma overload_run_well_formed resources tasks ideal requirements fuel ts :
  incl ts tasks ->
  forall st st',
    Overload.run fuel ideal resources requirements ts st = Some st' ->
    Forall (well_formed resources tasks) (Overload.allocs st) ->
    Forall (well_formed resources tasks) (Overload.allocs st').
Proof.
  induction ts as [|t ts IH]; intros Hincl st st' Hrun Hwf; simpl in Hrun.
  - injection Hrun as <-. exact Hwf.
  - destruct (Overload.while fuel ideal resources t _ st) as [st1|] eqn:E;
      [|discriminate].
    apply (IH (fun x Hx => Hincl x (or_intror Hx)) st1 st' Hrun).
    apply (overload_while_well_formed resources tasks ideal t
             (Hincl t (or_introl eq_refl)) _ _ _ _ E Hwf).
Qed.

Lemma overload_well_formed fuel resources tasks alt :
  Overload._minimize_overload_allocation fuel resources tasks = Some (Some alt) ->
  Forall (well_formed resources tasks) (allocations alt).
Proof.
  unfold Overload._minimize_overload_allocation.
  destruct (Qeq_bool _ 0); [discriminate|].
  destruct (Overload.allocate fuel resources tasks) as [st|] eqn:E;
    [|discriminate].
  intros H. injection H as <-. simpl. unfold Overload.allocate in E.
  apply (overload_run_well_formed _ _ _ _ _ _ (sorted_incl _ tasks) _ _ E).
  constructor.
Qed.

Lemma greedy_while_well_formed resources tasks task :
  In task tasks ->
  forall fuel need st st',
    Greedy.while fuel resources task need st = Some st' ->
    Forall (well_formed resources tasks) (Greedy.allocs st) ->
    Forall (well_formed resources tasks) (Greedy.allocs st').
Proof.
  intros Ht. induction fuel as [|fuel IH]; intros need st st' Hw Hwf;
    [discriminate|].
  simpl in Hw. destruct (Qltb 0 need); [|injection Hw as <-; exact Hwf].
  unfold Greedy.body in Hw.
  destruct (Greedy.available_resources resources st) as [|r l] eqn:E;
    [injection Hw as <-; exact Hwf|].
  set (best := max_by _ r l) in Hw.
  assert (Hbest : In best resources).
  { apply (incl_filter
             (fun r => Qltb 0.1 (get (Greedy.resource_hours st) (Resource.id r)))
             resources).
    fold (Greedy.available_resources resources st). rewrite E.
    apply max_by_In. }
  destruct (Qltb 0.1 _) eqn:Eh; [|apply (IH _ _ _ Hw Hwf)].
  apply Qltb_lt in Eh. apply (IH _ _ _ Hw). simpl.
  apply well_formed_snoc; try assumption. lra.
Qed.

Lemma greedy_run_well_formed resources tasks requirements fuel ts :
  incl ts tasks ->
  forall st st',
    Greedy.run fuel resources requirements ts st = Some st' ->
    Forall (well_formed resources tasks) (Greedy.allocs st) ->
    Forall (well_formed resources tasks) (Greedy.allocs st').
Proof.
  induction ts as [|t ts IH]; intros Hincl st st' Hrun Hwf; simpl in Hrun.
  - injection Hrun as <-. exact Hwf.
  - destruct (Greedy.while fuel resources t _ st) as [st1|] eqn:E;
      [|discriminate].
    apply (IH (fun x Hx => Hincl x (or_intror Hx)) st1 st' Hrun).
    apply (greedy_while_well_formed resources tasks t
             (Hincl t (or_introl eq_refl)) _ _ _ _ E Hwf).
Qed.

Lemma greedy_well_formed fuel resources tasks alt :
  Greedy._greedy_optimized_allocation fuel resources tasks = Some alt ->
  Forall (well_formed resources tasks) (allocations alt).
Proof.
  unfold Greedy._greedy_optimized_allocation.
  destruct (Greedy.allocate fuel resources tasks) as [st|] eqn:E;
    [|discriminate].
  intros H. injection H as <-. simpl. unfold Greedy.allocate in E.
  apply (greedy_run_well_formed _ _ _ _ _ (sorted_incl _ tasks) _ _ E).
  constructor.
Qed.

Lemma collected_well_formed fuel resources tasks collected alt :
  collect_alternatives fuel resources tasks = Some collected ->
  In alt collected ->
  Forall (well_formed resources tasks) (allocations alt).
Proof.
  intros Hcol Hin. unfold collect_alternatives in Hcol.
  destruct (Overload._minimize_overload_allocation fuel resources tasks)
    as [alt4|] eqn:E4; [|discriminate].
  destruct (Greedy._greedy_optimized_allocation fuel resources tasks)
    as [alt5|] eqn:E5; [|discriminate].
  injection Hcol as <-. simpl in Hin.
  apply in_app_iff in Hin as [Hin|[<-|[]]];
    [|apply (greedy_well_formed fuel); exact E5].
  assert (H123 : forall a,
             In a (append_alt
                     [Priority._priority_based_allocation resources tasks]
                     (Balanced._balanced_allocation resources tasks)
                   ++ [Specialization._specialization_based_allocation
                         resources tasks]) ->
             Forall (well_formed resources tasks) (allocations a)).
  { intros a Ha. apply in_app_iff in Ha as [Ha|[<-|[]]];
      [|apply specialization_well_formed].
    destruct (Balanced._balanced_allocation resources tasks) as [alt2|] eqn:E2;
      simpl in Ha.
    - destruct Ha as [<-|[<-|[]]];
        [apply priority_well_formed|apply balanced_well_formed; exact E2].
    - destruct Ha as [<-|[]]. apply priority_well_formed. }
  destruct alt4 as [alt4|]; simpl in Hin.
  - apply in_app_iff in Hin as [Hin|[<-|[]]]; [apply H123; exact Hin|].
    apply (overload_well_formed fuel); exact E4.
  - apply H123. exact Hin.
Qed.



(** X9: the allocations that [generate_alternatives] returns name only
    resources and tasks of the input. *)
Theorem generated_references_input :
  forall fuel resources tasks out alt a,
    generate_alternatives fuel resources tasks = Some out ->
    In alt out -> In a (allocations alt) ->
    In (resource_id a) (map Resource.id resources)
    /\ In (task_id a) (map Task.id tasks).
Proof.
  intros fuel resources tasks out alt a Hgen Hin Ha.
  apply generate_alternatives_stages in Hgen as [->|(collected & Hcol & ->)];
    [destruct Hin|].
  apply sorted_In in Hin.
  apply normalize_In_origin in Hin as (raw & Hraw & _ & Hal).
  apply remove_duplicates_In in Hraw.
  rewrite Hal, normalized_allocations_reference in Ha.
  apply drop_then_round_In in Ha as (Hk & _).
  apply in_map_iff in Hk as (a0 & Hk & Ha0).
  pose proof (collected_well_formed _ _ _ _ _ Hcol Hraw) as H.
  rewrite List.Forall_forall in H. destruct (H a0 Ha0) as (H1 & H2 & _).
  unfold key_of in Hk. injection Hk as E1 E2. rewrite <- E1, <- E2. auto.
Qed.

Lemma generated_references_input_witness :
  exists out,
    generate_alternatives 5 scenario_resources scenario_tasks = Some out
    /\ forall alt a, In alt out -> In a (allocations alt) ->
         In (resource_id a) (map Resource.id scenario_resources).
Proof.
  eexists. split; [vm_compute; reflexivity|].
  intros alt a Hin Ha.
  eapply (generated_references_input 5 scenario_resources scenario_tasks);
    [vm_compute; reflexivity|exact Hin|exact Ha].
Defined.

(** ** When the two loops end, and when they do not *)

(** X10: the loop of the overload strategy never ends once a need is left,
    no resource with spare hours is under the load cap, and some resource
    has spare hours: the fallback selects a resource and commits
    nothing. *)
Theorem overload_fallback_never_ends :
  forall ideal resources task need st,
    0 < need ->
    Overload.under_cap ideal resources st = [] ->
    Overload.with_hours resources st <> [] ->
    forall fuel, Overload.while fuel ideal resources task need st = None.
Proof.
  intros ideal resources task need st Hneed Hcap Hany.
  apply overload_while_stuck; [apply Qltb_lt; exact Hneed|].
  apply overload_fallback_commits_nothing; assumption.
Qed.

Lemma overload_fallback_never_ends_witness :
  Overload.while 1000 5 uneven_resources (Task.mk 1 "Write report" 10 1)
                 3 capped_state = None.
Proof.
  apply overload_fallback_never_ends.
  - reflexivity.
  - vm_compute. reflexivity.
  - vm_compute. discriminate.
Defined.

(** X11: the loop of the greedy strategy never ends once the need left is
    positive but at most 0.1 hours and some resource has more than 0.1
    hours: the amount is under the threshold and nothing changes. *)
Theorem greedy_dust_never_ends :
  forall resources task need st,
    0 < need -> need <= 0.1 ->
    Greedy.available_resources resources st <> [] ->
    forall fuel, Greedy.while fuel resources task need st = None.
Proof.
  intros resources task need st Hpos Hsmall Hany.
  apply greedy_while_stuck; [apply Qltb_lt; exact Hpos|].
  unfold Greedy.body.
  destruct (Greedy.available_resources resources st) as [|r l];
    [congruence|].
  set (best := max_by _ r l).
  assert (Hh : Qltb 0.1 (Qmin need (get (Greedy.resource_hours st)
                                        (Resource.id best))) = false).
  { apply Qltb_ge. eapply Qle_trans; [apply Q.le_min_l|exact Hsmall]. }
  rewrite Hh. reflexivity.
Qed.

Lemma greedy_dust_never_ends_witness :
  Greedy.while 1000 roomy_resources (Task.mk 1 "Fix typo" 0.05 1)
               0.05 fresh_state = None.
Proof.
  apply greedy_dust_never_ends.
  - reflexivity.
  - vm_compute. discriminate.
  - vm_compute. discriminate.
Defined.

Lemma greedy_while_idle resources task st :
  Greedy.available_resources resources st = [] ->
  forall fuel need st',
    Greedy.while fuel resources task need st = Some st' -> st' = st.
Proof.
  intros Hnone fuel need st' Hw. destruct fuel as [|fuel]; [discriminate|].
  simpl in Hw. unfold Greedy.body in Hw. rewrite Hnone in Hw.
  destruct (Qltb 0 need); congruence.
Qed.

Lemma greedy_body_total resources task need st need' st' :
  Greedy.body resources task need st = Some (need', st') ->
  Greedy.total_allocated st' + need' == Greedy.total_allocated st + need.
Proof.
  unfold Greedy.body.
  destruct (Greedy.available_resources resources st); [discriminate|].
  destruct (Qltb 0.1 _); intros H; injection H as <- <-; simpl; lra.
Qed.

(** When the loop of a task ends, the need is met or no resource is
    above the threshold. *)
Lemma greedy_while_exit resources task :
  forall fuel need st st',
    Greedy.while fuel resources task need st = Some st' ->
    0 <= need ->
    (Greedy.total_allocated st' == Greedy.total_allocated st + need
     \/ Greedy.available_resources resources st' = [])
    /\ Greedy.total_allocated st' <= Greedy.total_allocated st + need.
Proof.
  induction fuel as [|fuel IH]; intros need st st' Hw Hneed; [discriminate|].
  simpl in Hw. destruct (Qltb 0 need) eqn:En.
  - apply Qltb_lt in En.
    destruct (Greedy.body resources task need st) as [[need1 st1]|] eqn:E.
    + pose proof (greedy_body_total _ _ _ _ _ _ E) as Htot.
      assert (Hneed1 : 0 <= need1).
      { unfold Greedy.body in E.
        destruct (Greedy.available_resources resources st); [discriminate|].
        destruct (Qltb 0.1 _); injection E as <- _; [|lra].
        pose proof (Q.le_min_l need
                      (get (Greedy.resource_hours st)
                           (Resource.id (max_by (Greedy.efficiency_key st) t l)))).
        lra. }
      destruct (IH need1 st1 st' Hw Hneed1) as [[H|H] Hle].
      * split; [left|]; lra.
      * split; [right; exact H|lra].
    + injection Hw as <-. unfold Greedy.body in E.
      destruct (Greedy.available_resources resources st) eqn:Ea; [|
        destruct (Qltb 0.1 _); discriminate].
      split; [right; reflexivity|lra].
  - injection Hw as <-. apply Qltb_ge in En.
    split; [left|]; lra.
Qed.

Lemma greedy_run_exit resources requirements fuel tasks :
  (forall t, In t tasks -> 0 <= get requirements (Task.id t)) ->
  forall st st',
    Greedy.run fuel resources requirements tasks st = Some st' ->
    Greedy.total_allocated st'
    == Greedy.total_allocated st
       + Qsum (map (fun t => get requirements (Task.id t)) tasks)
    \/ Greedy.available_resources resources st' = [].
Proof.
  induction tasks as [|t ts IH]; intros Hpos st st' Hrun; simpl in Hrun.
  - injection Hrun as <-. left. unfold Qsum. simpl. lra.
  - destruct (Greedy.while fuel resources t _ st) as [st1|] eqn:E;
      [|discriminate].
    destruct (greedy_while_exit _ _ _ _ _ _ E (Hpos t (or_introl eq_refl)))
      as [[H1|H1] _].
    + destruct (IH (fun t' Ht' => Hpos t' (or_intror Ht')) st1 st' Hrun)
        as [H2|H2]; [left|right; exact H2].
      simpl. rewrite Qsum_cons. lra.
    + right. clear IH E. revert st' Hrun.
      induction ts as [|t' ts IHts]; intros st' Hrun; simpl in Hrun.
      * injection Hrun as <-. exact H1.
      * destruct (Greedy.while fuel resources t' _ st1) as [st2|] eqn:E2;
          [|discriminate].
        apply (greedy_while_idle _ _ _ H1) in E2. subst st2.
        apply IHts; [|exact Hrun].
        intros x Hx. apply Hpos. destruct Hx as [<-|Hx]; [left; reflexivity|].
        right. right. exact Hx.
Qed.

(** X12: with whole numbers of hours, when the greedy strategy returns,
    either all the required hours are allocated, or no resource is left
    with more than 0.1 hours. *)
Theorem greedy_work_conserving :
  forall fuel resources tasks st,
    input_contract resources tasks ->
    exact_hours resources tasks ->
    Greedy.allocate fuel resources tasks = Some st ->
    Greedy.total_allocated st == total_required tasks
    \/ forall r, In r resources ->
         Resource.available_hours r
         - hours_of_resource (Resource.id r) (Greedy.allocs st) <= 0.1.
Proof.
  intros fuel resources tasks st [Hr Ht Ha Hp Hq] _ Hrun.
  unfold Greedy.allocate in Hrun.
  destruct (greedy_run_exit _ _ _ _
              (requirements_nonneg priority_size_leb tasks Ht Hp) _ _ Hrun)
    as [H|H].
  - left. rewrite sum_requirements_sorted in H by exact Ht. simpl in H. lra.
  - right. intros r Hin.
    destruct (greedy_run_invariant _ _ _ _ Hr
                (requirements_nonneg priority_size_leb tasks Ht Hp) _ _ Hrun)
      as [Hinv _].
    { simpl. apply capacity_invariant_init; assumption. }
    destruct (Hinv r Hin) as [_ Hsum].
    assert (Hlow : get (Greedy.resource_hours st) (Resource.id r) <= 0.1).
    { apply Qltb_ge.
      destruct (Qltb 0.1 (get (Greedy.resource_hours st) (Resource.id r)))
        eqn:E; [|reflexivity].
      exfalso.
      assert (Hav : In r (Greedy.available_resources resources st)).
      { apply filter_In. split; [exact Hin|exact E]. }
      rewrite H in Hav. destruct Hav. }
    lra.
Qed.

Lemma greedy_work_conserving_witness :
  exists st,
    Greedy.allocate 5 scenario_resources scenario_tasks = Some st
    /\ (Greedy.total_allocated st == total_required scenario_tasks
        \/ forall r, In r scenario_resources ->
             Resource.available_hours r
             - hours_of_resource (Resource.id r) (Greedy.allocs st) <= 0.1).
Proof.
  eexists. split; [vm_compute; reflexivity|].
  eapply (greedy_work_conserving 5 scenario_resources scenario_tasks);
    [exact scenario_contract|exact scenario_exact|vm_compute; reflexivity].
Defined.

(** ** The priority strategy uses what it can *)

Lemma priority_walk_hours_le task rs :
  forall need st k,
    get (Priority.resource_hours (snd (Priority.walk task rs need st))) k
    <= get (Priority.resource_hours st) k.
Proof.
  induction rs as [|r rs IH]; intros need st k; simpl; [apply Qle_refl|].
  destruct (Qle_bool need 0) eqn:En; [apply Qle_refl|].
  apply Qle_bool_false in En.
  destruct (Qltb 0 _) eqn:Ea; [|apply IH].
  apply Qltb_lt in Ea.
  eapply Qle_trans; [apply IH|]. simpl.
  destruct (Z.eq_dec (Resource.id r) k) as [<-|Hne].
  - rewrite get_insert_eq.
    pose proof (Q.min_glb_lt _ _ _ En Ea). lra.
  - rewrite get_insert_ne by exact Hne. apply Qle_refl.
Qed.

Lemma priority_walk_met task rs need st :
  need <= 0 -> Priority.walk task rs need st = (need, st).
Proof.
  intros H. destruct rs as [|r rs]; [reflexivity|]. simpl.
  apply Qle_bool_iff in H. rewrite H. reflexivity.
Qed.

(** After the walk of a task, its need is met or every resource walked
    is out of hours. *)
Lemma priority_walk_exit task rs :
  forall need st,
    fst (Priority.walk task rs need st) <= 0
    \/ forall r, In r rs ->
         get (Priority.resource_hours (snd (Priority.walk task rs need st)))
             (Resource.id r) <= 0.
Proof.
  induction rs as [|r rs IH]; intros need st; [right; intros r []|].
  simpl. destruct (Qle_bool need 0) eqn:En.
  { left. apply Qle_bool_iff. exact En. }
  apply Qle_bool_false in En.
  destruct (Qltb 0 _) eqn:Ea.
  - apply Qltb_lt in Ea.
    set (avail := get (Priority.resource_hours st) (Resource.id r)) in *.
    set (st1 := Priority.mkState _ _ _).
    destruct (Q.min_spec need avail) as [[Hlt Hmin]|[Hle Hmin]].
    + left. rewrite priority_walk_met; simpl; lra.
    + destruct (IH (need - Qmin need avail) st1) as [H|H]; [left; exact H|].
      right. intros r' [<-|Hr']; [|apply H; exact Hr'].
      eapply Qle_trans; [apply priority_walk_hours_le|].
      unfold st1. simpl. rewrite get_insert_eq. lra.
  - apply Qltb_ge in Ea.
    destruct (IH need st) as [H|H]; [left; exact H|].
    right. intros r' [<-|Hr']; [|apply H; exact Hr'].
    eapply Qle_trans; [apply priority_walk_hours_le|exact Ea].
Qed.

Lemma priority_walk_idle task rs :
  forall need st,
    (forall r, In r rs -> get (Priority.resource_hours st) (Resource.id r) <= 0) ->
    Priority.walk task rs need st = (need, st).
Proof.
  induction rs as [|r rs IH]; intros need st H; [reflexivity|].
  simpl. destruct (Qle_bool need 0); [reflexivity|].
  assert (E : Qltb 0 (get (Priority.resource_hours st) (Resource.id r)) = false).
  { apply Qltb_ge. apply H. left. reflexivity. }
  rewrite E. apply IH. intros r' Hr'. apply H. right. exact Hr'.
Qed.

Lemma priority_run_idle resources requirements tasks st :
  (forall r, In r resources ->
             get (Priority.resource_hours st) (Resource.id r) <= 0) ->
  Priority.run resources requirements tasks st = st.
Proof.
  intros H. induction tasks as [|t ts IH]; [reflexivity|].
  simpl. rewrite priority_walk_idle by exact H. exact IH.
Qed.

Lemma priority_run_exit resources requirements tasks :
  (forall t, In t tasks -> 0 <= get requirements (Task.id t)) ->
  forall st,
    Priority.total_allocated (Priority.run resources requirements tasks st)
    == Priority.total_allocated st
       + Qsum (map (fun t => get requirements (Task.id t)) tasks)
    \/ forall r, In r resources ->
         get (Priority.resource_hours
                (Priority.run resources requirements tasks st))
             (Resource.id r) <= 0.
Proof.
  induction tasks as [|t ts IH]; intros Hpos st; simpl.
  - left. unfold Qsum. simpl. lra.
  - destruct (priority_walk_total t resources (get requirements (Task.id t)) st
                (Hpos t (or_introl eq_refl))) as [H1 H2].
    destruct (priority_walk_exit t resources (get requirements (Task.id t)) st)
      as [Hmet|Hout].
    + destruct (IH (fun t' Ht' => Hpos t' (or_intror Ht'))
                   (snd (Priority.walk t resources
                           (get requirements (Task.id t)) st)))
        as [H|H]; [left|right; exact H].
      rewrite Qsum_cons. lra.
    + right. rewrite priority_run_idle by exact Hout. exact Hout.
Qed.

(** X14: with whole numbers of hours the priority strategy allocates all
    the required hours, or commits every resource for exactly its
    available hours. *)
Theorem priority_work_conserving :
  forall resources tasks,
    input_contract resources tasks ->
    exact_hours resources tasks ->
    Priority.total_allocated (Priority.allocate resources tasks)
    == total_required tasks
    \/ forall r, In r resources ->
         hours_of_resource (Resource.id r)
           (Priority.allocs (Priority.allocate resources tasks))
         == Resource.available_hours r.
Proof.
  intros resources tasks [Hr Ht Ha Hp Hq] _. unfold Priority.allocate.
  destruct (priority_run_exit resources (requirements_dict tasks)
              (stable_sort priority_leb tasks)
              (requirements_nonneg priority_leb tasks Ht Hp)
              (Priority.mkState (hours_dict resources) [] 0)) as [H|H].
  - left. rewrite sum_requirements_sorted in H by exact Ht. simpl in H. lra.
  - right. intros r Hin.
    pose proof (priority_run_capacity resources (requirements_dict tasks)
                  (stable_sort priority_leb tasks) Hr
                  (Priority.mkState (hours_dict resources) [] 0)
                  (capacity_invariant_init resources Hr Ha) r Hin)
      as [Hpos Hsum].
    specialize (H r Hin). lra.
Qed.

Lemma priority_work_conserving_witness :
  Priority.total_allocated (Priority.allocate scenario_resources scenario_tasks)
  == total_required scenario_tasks
  \/ forall r, In r scenario_resources ->
       hours_of_resource (Resource.id r)
         (Priority.allocs (Priority.allocate scenario_resources scenario_tasks))
       == Resource.available_hours r.
Proof.
  apply (priority_work_conserving scenario_resources scenario_tasks).
  - exact scenario_contract.
  - exact scenario_exact.
Defined.

(** ** Empty dictionaries and sums of zeros *)

Lemma zero_dict_get resources k : get (zero_dict resources) k = 0.
Proof.
  unfold zero_dict.
  assert (H : forall (m : gmap Z Q),
             get m k = 0 ->
             get (fold_left (fun m r => <[Resource.id r := 0]> m) resources m) k
             = 0).
  { induction resources as [|r rs IH]; intros m Hm; [exact Hm|].
    simpl. apply IH.
    destruct (Z.eq_dec (Resource.id r) k) as [<-|Hne].
    - apply get_insert_eq.
    - rewrite get_insert_ne by exact Hne. exact Hm. }
  apply H. reflexivity.
Qed.

Lemma Qsum_all_zero {A} (f : A -> Q) l :
  (forall x, In x l -> f x == 0) -> Qsum (map f l) == 0.
Proof.
  intros H. rewrite (Qsum_map_ext_in f (fun _ => 0) l H).
  induction l as [|x l IH]; [reflexivity|].
  simpl. rewrite Qsum_cons, IH; [lra|].
  intros y Hy. apply H. right. exact Hy.
Qed.

Lemma Qmax_zero_l x : x <= 0 -> Qmax 0 x == 0.
Proof. intros H. apply Q.max_l. exact H. Qed.

Lemma coverage_of_nonneg allocated required :
  0 <= allocated -> 0 <= coverage_of allocated required.
Proof.
  intros H. unfold coverage_of.
  destruct (Qltb 0 required) eqn:E; [|apply Qle_refl].
  apply Qltb_lt in E. apply Qle_shift_div_l; [exact E|lra].
Qed.

(** ** Scores *)

Lemma length_pos_Q {A} (l : list A) :
  l <> [] -> 0 < inject_Z (Z.of_nat (length l)).
Proof.
  intros H. destruct l; [congruence|].
  change 0 with (inject_Z 0). rewrite <- Zlt_Qlt. simpl. lia.
Qed.

Lemma Qsum_map_bounds {A} (f : A -> Q) lo hi l :
  (forall x, In x l -> lo <= f x <= hi) ->
  lo * inject_Z (Z.of_nat (length l)) <= Qsum (map f l)
  /\ Qsum (map f l) <= hi * inject_Z (Z.of_nat (length l)).
Proof.
  induction l as [|x l IH]; intros H.
  - unfold Qsum. simpl. change (inject_Z (Z.of_nat 0)) with 0. split; lra.
  - destruct IH as [H1 H2]; [intros y Hy; apply H; right; exact Hy|].
    destruct (H x (or_introl eq_refl)) as [Hlo Hhi].
    simpl map. rewrite Qsum_cons.
    replace (Z.of_nat (length (x :: l))) with (Z.of_nat (length l) + 1)%Z
      by (simpl length; lia).
    rewrite inject_Z_plus. change (inject_Z 1) with 1. split; lra.
Qed.

(** The mean of values between two bounds lies between them. *)
Lemma mean_bounds {A} (f : A -> Q) lo hi l n :
  (forall x, In x l -> lo <= f x <= hi) ->
  l <> [] -> n == inject_Z (Z.of_nat (length l)) ->
  lo <= Qsum (map f l) / n <= hi.
Proof.
  intros H Hne Hn. destruct (Qsum_map_bounds f lo hi l H) as [H1 H2].
  pose proof (length_pos_Q l Hne) as Hpos. rewrite <- Hn in *.
  split.
  - apply Qle_shift_div_l; [exact Hpos|exact H1].
  - apply Qle_shift_div_r; [exact Hpos|exact H2].
Qed.

Lemma coverage_dict_nonneg allocs :
  Forall (fun a => 0 <= hours a) allocs ->
  forall k, 0 <= get (coverage_dict allocs) k.
Proof.
  unfold coverage_dict.
  assert (H : forall (m : gmap Z Q),
             (forall k, 0 <= get m k) ->
             Forall (fun a => 0 <= hours a) allocs ->
             forall k,
               0 <= get (fold_left
                           (fun m a => <[task_id a := get m (task_id a) + hours a]> m)
                           allocs m) k).
  { induction allocs as [|a l IH]; intros m Hm Hall k; [apply Hm|].
    inversion Hall as [|? ? Ha Hl]; subst. simpl. apply IH; [|exact Hl].
    intros k'. destruct (Z.eq_dec (task_id a) k') as [<-|Hne].
    - rewrite get_insert_eq. specialize (Hm (task_id a)). lra.
    - rewrite get_insert_ne by exact Hne. apply Hm. }
  intros Hall. apply H; [|exact Hall]. intros k. apply Qle_refl.
Qed.

Lemma well_formed_nonneg resources tasks allocs :
  Forall (well_formed resources tasks) allocs ->
  Forall (fun a => 0 <= hours a) allocs.
Proof.
  intros H. eapply List.Forall_impl; [|exact H].
  intros a (_ & _ & Ha). apply Qlt_le_weak. exact Ha.
Qed.

Lemma priority_penalty_zero resources tasks :
  input_contract resources tasks ->
  Priority.overload_penalty resources tasks == 0.
Proof.
  intros Hc. pose proof (priority_capacity resources tasks Hc) as Hcap.
  simpl in Hcap. unfold Priority.overload_penalty.
  destruct (Qltb 0 (total_required tasks)) eqn:E; [|reflexivity].
  apply Qltb_lt in E. rewrite Qsum_all_zero.
  - field. lra.
  - intros r Hin. apply Qmax_zero_l. specialize (Hcap r Hin). lra.
Qed.

Lemma priority_bonus_range resources tasks :
  input_contract resources tasks ->
  0 <= Priority.priority_bonus resources tasks <= 5.
Proof.
  intros [Hr Ht Ha Hp Hq]. unfold Priority.priority_bonus.
  destruct tasks as [|t0 ts]; [split; lra|].
  set (tasks := t0 :: ts) in *.
  apply mean_bounds.
  - intros t Hin. apply sorted_In in Hin.
    rewrite List.Forall_forall in Hp, Hq.
    specialize (Hp t Hin). specialize (Hq t Hin).
    set (covered := get _ (Task.id t)).
    assert (Hcov : 0 <= covered).
    { apply coverage_dict_nonneg.
      apply (well_formed_nonneg resources tasks).
      apply (priority_well_formed resources tasks). }
    assert (Hm : 0 <= Qmin 1 (covered / Task.required_hours t) <= 1).
    { split; [|apply Q.le_min_l].
      apply Q.min_glb; [lra|]. apply Qle_shift_div_l; [exact Hp|lra]. }
    assert (Hw : 1 <= inject_Z (6 - Task.priority t) <= 5).
    { change 1 with (inject_Z 1). change 5 with (inject_Z 5).
      rewrite <- !Zle_Qle. lia. }
    split.
    + apply Qmult_le_0_compat; lra.
    + eapply Qle_trans;
        [apply Qmult_le_compat_r; [apply Hw|apply Hm]|]. lra.
  - intros E. apply (f_equal (@length _)) in E.
    rewrite <- (Permutation_length (stable_sort_perm priority_leb tasks)) in E.
    discriminate.
  - rewrite <- (Permutation_length (stable_sort_perm priority_leb tasks)).
    reflexivity.
Qed.

Lemma priority_walk_total_mono task rs :
  forall need st,
    Priority.total_allocated st
    <= Priority.total_allocated (snd (Priority.walk task rs need st)).
Proof.
  induction rs as [|r rs IH]; intros need st; simpl; [apply Qle_refl|].
  destruct (Qle_bool need 0) eqn:En; [apply Qle_refl|].
  apply Qle_bool_false in En.
  destruct (Qltb 0 _) eqn:Ea; [|apply IH].
  apply Qltb_lt in Ea.
  eapply Qle_trans; [|apply IH]. simpl.
  pose proof (Q.min_glb_lt _ _ _ En Ea). lra.
Qed.

Lemma priority_run_total_mono resources requirements tasks :
  forall st,
    Priority.total_allocated st
    <= Priority.total_allocated (Priority.run resources requirements tasks st).
Proof.
  induction tasks as [|t ts IH]; intros st; simpl; [apply Qle_refl|].
  eapply Qle_trans; [|apply IH]. apply priority_walk_total_mono.
Qed.

(** X17: with whole numbers of hours the overload penalty of the priority
    strategy is zero, its priority bonus lies between 0 and 5 and its
    score between 0 and 150. *)
Theorem priority_score_range :
  forall resources tasks,
    input_contract resources tasks ->
    exact_hours resources tasks ->
    Priority.overload_penalty resources tasks == 0
    /\ 0 <= Priority.priority_bonus resources tasks <= 5
    /\ 0 <= Priority.score_of resources tasks <= 150.
Proof.
  intros resources tasks Hc _.
  pose proof (priority_penalty_zero resources tasks Hc) as Hpen.
  pose proof (priority_bonus_range resources tasks Hc) as [Hb1 Hb2].
  pose proof (priority_coverage resources tasks Hc) as Hc1.
  assert (Hc0 : 0 <= Priority.coverage resources tasks).
  { apply coverage_of_nonneg. unfold Priority.allocate.
    eapply Qle_trans; [|apply priority_run_total_mono]. simpl. lra. }
  assert (Hs : Priority.score_of resources tasks
               == Priority.coverage resources tasks * 50
                  + Priority.priority_bonus resources tasks * 20).
  { unfold Priority.score_of. rewrite Hpen. rewrite Q.max_r; lra. }
  split; [exact Hpen|]. split; [split; assumption|]. rewrite Hs. split; lra.
Qed.

Lemma priority_score_range_witness :
  0 <= Priority.score_of scenario_resources scenario_tasks <= 150.
Proof.
  apply (priority_score_range scenario_resources scenario_tasks).
  - exact scenario_contract.
  - exact scenario_exact.
Defined.

(** X18: the variance of the resource loads that the balanced strategy
    scores with lies between 0 and 1, for every list of resources and
    every list of allocations that name resources of the list, commit no
    negative hours and keep every resource within its available hours. *)
Theorem balance_variance_range :
  forall resources allocs,
    Forall (fun a => In (resource_id a) (map Resource.id resources)) allocs ->
    Forall (fun a => 0 <= hours a) allocs ->
    within_capacity resources allocs ->
    0 <= _calculate_balance_variance resources allocs <= 1.
Proof.
  intros resources allocs _ _ _. unfold _calculate_balance_variance.
  set (loads := map _ resources).
  destruct loads as [|x l] eqn:E; [split; lra|].
  rewrite <- E. split; [|apply Q.le_min_l].
  apply Q.min_glb; [lra|]. unfold variance.
  apply Qle_shift_div_l.
  - apply length_pos_Q. rewrite E. discriminate.
  - rewrite Qmult_0_l. apply Qsum_nonneg. apply List.Forall_map.
    apply List.Forall_forall. intros y _. apply Qsqr_nonneg.
Qed.

Lemma balance_variance_range_witness :
  0 <= _calculate_balance_variance scenario_resources
         [mkAlloc 1 1 8; mkAlloc 1 2 2; mkAlloc 2 2 2] <= 1.
Proof.
  apply (balance_variance_range scenario_resources).
  - repeat constructor; simpl; tauto.
  - repeat constructor; apply Qle_bool_iff; reflexivity.
  - intros r [<-|[<-|[]]]; apply Qle_bool_iff; reflexivity.
Defined.

(** ** Hours per resource against hours in total *)

Lemma Qsum_map_plus {A} (f g : A -> Q) l :
  Qsum (map (fun x => f x + g x) l) == Qsum (map f l) + Qsum (map g l).
Proof.
  induction l as [|x l IH]; simpl; [unfold Qsum; simpl; lra|].
  rewrite !Qsum_cons, IH. lra.
Qed.

Lemma indicator_sum resources k h :
  List.NoDup (map Resource.id resources) ->
  In k (map Resource.id resources) ->
  Qsum (map (fun r => if (k =? Resource.id r)%Z then h else 0) resources) == h.
Proof.
  induction resources as [|r rs IH]; intros Hnd Hin; [destruct Hin|].
  simpl in *. inversion Hnd as [|? ? Hr Hrs]; subst. rewrite Qsum_cons.
  destruct (Z.eqb_spec k (Resource.id r)) as [->|Hne].
  - rewrite Qsum_all_zero; [lra|].
    intros r' Hr'. destruct (Z.eqb_spec (Resource.id r) (Resource.id r'));
      [|reflexivity].
    exfalso. apply Hr. rewrite e. apply in_map. exact Hr'.
  - rewrite IH; [lra|exact Hrs|]. destruct Hin as [E|Hin]; [congruence|exact Hin].
Qed.

(** The hours of the resources add up to the hours of the allocations. *)
Lemma hours_partition resources allocs :
  List.NoDup (map Resource.id resources) ->
  Forall (fun a => In (resource_id a) (map Resource.id resources)) allocs ->
  Qsum (map (fun r => hours_of_resource (Resource.id r) allocs) resources)
  == Qsum (map hours allocs).
Proof.
  intros Hnd. induction allocs as [|a l IH] using rev_ind; intros Hall.
  - apply Qsum_all_zero. intros r _. reflexivity.
  - apply List.Forall_app in Hall as [Hl Ha]. inversion Ha as [|? ? Hin _]; subst.
    rewrite Qsum_hours_snoc, <- (IH Hl).
    rewrite <- (indicator_sum resources (resource_id a) (hours a) Hnd Hin).
    rewrite <- Qsum_map_plus. apply Qsum_map_ext_in. intros r _.
    rewrite hours_of_resource_snoc.
    destruct (resource_id a =? Resource.id r)%Z; lra.
Qed.

Lemma well_formed_resources resources tasks allocs :
  Forall (well_formed resources tasks) allocs ->
  Forall (fun a => In (resource_id a) (map Resource.id resources)) allocs.
Proof.
  intros H. eapply List.Forall_impl; [|exact H]. intros a (Ha & _). exact Ha.
Qed.

(** Allocations within capacity commit at most the available hours, and
    exactly the available hours when every resource is fully committed. *)
Lemma within_capacity_total resources tasks allocs :
  List.NoDup (map Resource.id resources) ->
  Forall (well_formed resources tasks) allocs ->
  within_capacity resources allocs ->
  Qsum (map hours allocs) <= total_available resources.
Proof.
  intros Hnd Hwf Hcap.
  rewrite <- (hours_partition resources allocs Hnd
                (well_formed_resources _ _ _ Hwf)).
  unfold total_available.
  induction resources as [|r rs IH]; [apply Qle_refl|].
  simpl. rewrite !Qsum_cons.
  assert (H1 := Hcap r (or_introl eq_refl)).
  assert (H2 : Qsum (map (fun r => hours_of_resource (Resource.id r) allocs) rs)
               <= Qsum (map Resource.available_hours rs)).
  { clear IH Hnd Hwf H1. induction rs as [|r' rs IH']; [apply Qle_refl|].
    simpl. rewrite !Qsum_cons.
    assert (H1 := Hcap r' (or_intror (or_introl eq_refl))).
    assert (H2 : Qsum (map (fun r => hours_of_resource (Resource.id r) allocs) rs)
                 <= Qsum (map Resource.available_hours rs)).
    { apply IH'. intros x [<-|Hx]; apply Hcap; [left|right; right];
        auto. }
    lra. }
  lra.
Qed.

Lemma fully_committed_total resources tasks allocs :
  List.NoDup (map Resource.id resources) ->
  Forall (well_formed resources tasks) allocs ->
  (forall r, In r resources ->
             hours_of_resource (Resource.id r) allocs
             == Resource.available_hours r) ->
  Qsum (map hours allocs) == total_available resources.
Proof.
  intros Hnd Hwf Hfull.
  rewrite <- (hours_partition resources allocs Hnd
                (well_formed_resources _ _ _ Hwf)).
  unfold total_available. apply Qsum_map_ext_in. exact Hfull.
Qed.

(** ** The total of the priority strategy *)

Lemma priority_walk_tracks task rs :
  forall need st,
    Priority.total_allocated st == Qsum (map hours (Priority.allocs st)) ->
    Priority.total_allocated (snd (Priority.walk task rs need st))
    == Qsum (map hours (Priority.allocs (snd (Priority.walk task rs need st)))).
Proof.
  induction rs as [|r rs IH]; intros need st H; simpl; [exact H|].
  destruct (Qle_bool need 0); [exact H|].
  destruct (Qltb 0 _); [|apply IH; exact H].
  apply IH. simpl. rewrite Qsum_hours_snoc. simpl. rewrite H. reflexivity.
Qed.

Lemma priority_run_tracks resources requirements tasks :
  forall st,
    Priority.total_allocated st == Qsum (map hours (Priority.allocs st)) ->
    Priority.total_allocated (Priority.run resources requirements tasks st)
    == Qsum (map hours
               (Priority.allocs (Priority.run resources requirements tasks st))).
Proof.
  induction tasks as [|t ts IH]; intros st H; simpl; [exact H|].
  apply IH. apply priority_walk_tracks. exact H.
Qed.

(** X19: with whole numbers of hours the priority strategy allocates
    exactly the smaller of the total required hours and the total
    available hours. *)
Theorem priority_total :
  forall resources tasks,
    input_contract resources tasks ->
    exact_hours resources tasks ->
    Priority.total_allocated (Priority.allocate resources tasks)
    == Qmin (total_required tasks) (total_available resources).
Proof.
  intros resources tasks Hc _.
  pose proof (priority_capacity resources tasks Hc) as Hcap.
  pose proof (priority_well_formed resources tasks) as Hwf.
  simpl in Hcap, Hwf.
  assert (Htrack : Priority.total_allocated (Priority.allocate resources tasks)
                   == Qsum (map hours
                              (Priority.allocs (Priority.allocate resources tasks)))).
  { unfold Priority.allocate. apply priority_run_tracks. reflexivity. }
  destruct Hc as [Hr Ht Ha Hp Hq].
  pose proof (within_capacity_total resources tasks _ Hr Hwf Hcap) as Hle.
  assert (Hreq : Priority.total_allocated (Priority.allocate resources tasks)
                 <= total_required tasks).
  { unfold Priority.allocate.
    eapply Qle_trans;
      [apply priority_run_total; apply requirements_nonneg; assumption|].
    rewrite sum_requirements_sorted by exact Ht. simpl. lra. }
  unfold Priority.allocate in *.
  destruct (priority_run_exit resources (requirements_dict tasks)
              (stable_sort priority_leb tasks)
              (requirements_nonneg priority_leb tasks Ht Hp)
              (Priority.mkState (hours_dict resources) [] 0)) as [H|H].
  - rewrite sum_requirements_sorted in H by exact Ht. simpl in H.
    rewrite Q.min_l; lra.
  - assert (Hfull : forall r, In r resources ->
               hours_of_resource (Resource.id r)
                 (Priority.allocs
                    (Priority.run resources (requirements_dict tasks)
                       (stable_sort priority_leb tasks)
                       (Priority.mkState (hours_dict resources) [] 0)))
               == Resource.available_hours r).
    { intros r Hin.
      pose proof (priority_run_capacity resources (requirements_dict tasks)
                    (stable_sort priority_leb tasks) Hr
                    (Priority.mkState (hours_dict resources) [] 0)
                    (capacity_invariant_init resources Hr Ha) r Hin)
        as [Hpos Hsum].
      specialize (H r Hin). lra. }
    pose proof (fully_committed_total resources tasks _ Hr Hwf Hfull) as Heq.
    rewrite Q.min_r; lra.
Qed.

Lemma priority_total_witness :
  Priority.total_allocated (Priority.allocate scenario_resources scenario_tasks)
  == Qmin (total_required scenario_tasks) (total_available scenario_resources).
Proof.
  apply (priority_total scenario_resources scenario_tasks).
  - exact scenario_contract.
  - exact scenario_exact.
Defined.

(** ** The total of the specialization strategy *)

Lemma first_pass_hours_le task suitable rs :
  forall need st k,
    get (Specialization.resource_hours
           (snd (Specialization.first_pass task suitable rs need st))) k
    <= get (Specialization.resource_hours st) k.
Proof.
  induction rs as [|r rs IH]; intros need st k; simpl; [apply Qle_refl|].
  destruct (Qle_bool need 0) eqn:En; [apply Qle_refl|].
  apply Qle_bool_false in En.
  destruct (Qltb 0 _) eqn:Ea; [|apply IH].
  apply Qltb_lt in Ea.
  eapply Qle_trans; [apply IH|]. simpl.
  destruct (Z.eq_dec (Resource.id r) k) as [<-|Hne].
  - rewrite get_insert_eq. pose proof (Q.min_glb_lt _ _ _ En Ea). lra.
  - rewrite get_insert_ne by exact Hne. apply Qle_refl.
Qed.

Lemma second_pass_hours_le task tried rs :
  forall need st k,
    get (Specialization.resource_hours
           (snd (Specialization.second_pass task tried rs need st))) k
    <= get (Specialization.resource_hours st) k.
Proof.
  induction rs as [|r rs IH]; intros need st k; simpl; [apply Qle_refl|].
  destruct (Qle_bool need 0) eqn:En; [apply Qle_refl|].
  apply Qle_bool_false in En.
  destruct (Qltb 0 _ && _) eqn:Ea; [|apply IH].
  apply andb_true_iff in Ea as [Ea _]. apply Qltb_lt in Ea.
  eapply Qle_trans; [apply IH|]. simpl.
  destruct (Z.eq_dec (Resource.id r) k) as [<-|Hne].
  - rewrite get_insert_eq. pose proof (Q.min_glb_lt _ _ _ En Ea). lra.
  - rewrite get_insert_ne by exact Hne. apply Qle_refl.
Qed.

Lemma first_pass_met task suitable rs need st :
  need <= 0 -> Specialization.first_pass task suitable rs need st = (need, st).
Proof.
  intros H. destruct rs as [|r rs]; [reflexivity|]. simpl.
  apply Qle_bool_iff in H. rewrite H. reflexivity.
Qed.

Lemma second_pass_met task tried rs need st :
  need <= 0 -> Specialization.second_pass task tried rs need st = (need, st).
Proof.
  intros H. destruct rs as [|r rs]; [reflexivity|]. simpl.
  apply Qle_bool_iff in H. rewrite H. reflexivity.
Qed.

Lemma first_pass_exit task suitable rs :
  forall need st,
    fst (Specialization.first_pass task suitable rs need st) <= 0
    \/ forall r, In r rs ->
         get (Specialization.resource_hours
                (snd (Specialization.first_pass task suitable rs need st)))
             (Resource.id r) <= 0.
Proof.
  induction rs as [|r rs IH]; intros need st; [right; intros r []|].
  simpl. destruct (Qle_bool need 0) eqn:En.
  { left. apply Qle_bool_iff. exact En. }
  apply Qle_bool_false in En.
  destruct (Qltb 0 _) eqn:Ea.
  - apply Qltb_lt in Ea.
    set (avail := get (Specialization.resource_hours st) (Resource.id r)) in *.
    set (st1 := Specialization.commit _ _ _ _ _).
    destruct (Q.min_spec need avail) as [[Hlt Hmin]|[Hle Hmin]].
    + left. rewrite first_pass_met; simpl; lra.
    + destruct (IH (need - Qmin need avail) st1) as [H|H]; [left; exact H|].
      right. intros r' [<-|Hr']; [|apply H; exact Hr'].
      eapply Qle_trans; [apply first_pass_hours_le|].
      unfold st1. simpl. rewrite get_insert_eq. fold avail. lra.
  - apply Qltb_ge in Ea.
    destruct (IH need st) as [H|H]; [left; exact H|].
    right. intros r' [<-|Hr']; [|apply H; exact Hr'].
    eapply Qle_trans; [apply first_pass_hours_le|exact Ea].
Qed.

Lemma second_pass_exit task tried rs :
  forall need st,
    fst (Specialization.second_pass task tried rs need st) <= 0
    \/ forall r, In r rs ->
         Specialization.resource_in r tried = false ->
         get (Specialization.resource_hours
                (snd (Specialization.second_pass task tried rs need st)))
             (Resource.id r) <= 0.
Proof.
  induction rs as [|r rs IH]; intros need st; [right; intros r []|].
  simpl. destruct (Qle_bool need 0) eqn:En.
  { left. apply Qle_bool_iff. exact En. }
  apply Qle_bool_false in En.
  destruct (Qltb 0 _ && _) eqn:Ea.
  - apply andb_true_iff in Ea as [Ea _]. apply Qltb_lt in Ea.
    set (avail := get (Specialization.resource_hours st) (Resource.id r)) in *.
    set (st1 := Specialization.commit _ _ _ _ _).
    destruct (Q.min_spec need avail) as [[Hlt Hmin]|[Hle Hmin]].
    + left. rewrite second_pass_met; simpl; lra.
    + destruct (IH (need - Qmin need avail) st1) as [H|H]; [left; exact H|].
      right. intros r' [<-|Hr'] Hnot; [|apply H; assumption].
      eapply Qle_trans; [apply second_pass_hours_le|].
      unfold st1. simpl. rewrite get_insert_eq. fold avail. lra.
  - destruct (IH need st) as [H|H]; [left; exact H|].
    right. intros r' [<-|Hr'] Hnot; [|apply H; assumption].
    rewrite Hnot in Ea. simpl in Ea. rewrite andb_true_r in Ea.
    apply Qltb_ge in Ea.
    eapply Qle_trans; [apply second_pass_hours_le|exact Ea].
Qed.

Lemma first_pass_idle task suitable rs :
  forall need st,
    (forall r, In r rs ->
               get (Specialization.resource_hours st) (Resource.id r) <= 0) ->
    Specialization.first_pass task suitable rs need st = (need, st).
Proof.
  induction rs as [|r rs IH]; intros need st H; [reflexivity|].
  simpl. destruct (Qle_bool need 0); [reflexivity|].
  assert (E : Qltb 0 (get (Specialization.resource_hours st) (Resource.id r))
              = false).
  { apply Qltb_ge. apply H. left. reflexivity. }
  rewrite E. apply IH. intros r' Hr'. apply H. right. exact Hr'.
Qed.

Lemma second_pass_idle task tried rs :
  forall need st,
    (forall r, In r rs ->
               get (Specialization.resource_hours st) (Resource.id r) <= 0) ->
    Specialization.second_pass task tried rs need st = (need, st).
Proof.
  induction rs as [|r rs IH]; intros need st H; [reflexivity|].
  simpl. destruct (Qle_bool need 0); [reflexivity|].
  assert (E : Qltb 0 (get (Specialization.resource_hours st) (Resource.id r))
              = false).
  { apply Qltb_ge. apply H. left. reflexivity. }
  rewrite E. simpl. apply IH. intros r' Hr'. apply H. right. exact Hr'.
Qed.

Lemma one_task_exit resources by_type requirements task st :
  fst (Specialization.one_task resources by_type requirements task st) <= 0
  \/ forall r, In r resources ->
       get (Specialization.resource_hours
              (snd (Specialization.one_task resources by_type requirements
                      task st)))
           (Resource.id r) <= 0.
Proof.
  unfold Specialization.one_task.
  set (tried := Specialization.resources_to_try_of _ _ _).
  set (suitable := Specialization.suitable_types_of task).
  pose proof (first_pass_exit task suitable tried
                (get requirements (Task.id task)) st) as H1.
  destruct (Specialization.first_pass task suitable tried _ st)
    as [need1 st1].
  simpl in H1. destruct (Qltb 0 need1) eqn:En.
  - apply Qltb_lt in En.
    destruct H1 as [H1|H1]; [lra|].
    pose proof (second_pass_exit task tried resources need1 st1) as H2.
    destruct H2 as [H2|H2]; [left; exact H2|].
    right. intros r Hin.
    destruct (Specialization.resource_in r tried) eqn:Et;
      [|apply H2; assumption].
    unfold Specialization.resource_in in Et.
    apply existsb_exists in Et as (r' & Hr' & E). apply Z.eqb_eq in E.
    rewrite <- E.
    eapply Qle_trans; [apply second_pass_hours_le|apply H1; exact Hr'].
  - left. apply Qltb_ge in En. exact En.
Qed.

Lemma one_task_idle resources requirements task st :
  (forall r, In r resources ->
             get (Specialization.resource_hours st) (Resource.id r) <= 0) ->
  snd (Specialization.one_task resources
         (Specialization.group_by_type resources) requirements task st) = st.
Proof.
  intros H. unfold Specialization.one_task.
  rewrite first_pass_idle.
  - destruct (Qltb 0 _); [|reflexivity].
    rewrite second_pass_idle by exact H. reflexivity.
  - intros r Hr. apply H. apply (resources_to_try_incl resources _ r Hr).
Qed.

Lemma one_task_total_eq resources by_type requirements task st :
  0 <= get requirements (Task.id task) ->
  0 <= fst (Specialization.one_task resources by_type requirements task st)
  /\ Specialization.total_allocated
       (snd (Specialization.one_task resources by_type requirements task st))
     + fst (Specialization.one_task resources by_type requirements task st)
     == Specialization.total_allocated st + get requirements (Task.id task).
Proof.
  intros Hneed. unfold Specialization.one_task.
  destruct (first_pass_total task (Specialization.suitable_types_of task)
              (Specialization.resources_to_try_of resources by_type
                 (Specialization.suitable_types_of task))
              (get requirements (Task.id task)) st Hneed) as [H1 H2].
  destruct (Specialization.first_pass _ _ _ _ _) as [need1 st1].
  simpl in H1, H2.
  destruct (Qltb 0 need1); [|simpl; split; [exact H1|exact H2]].
  destruct (second_pass_total task
              (Specialization.resources_to_try_of resources by_type
                 (Specialization.suitable_types_of task))
              resources need1 st1 H1) as [H3 H4].
  split; [exact H3|]. rewrite H4. exact H2.
Qed.

Lemma specialization_run_idle resources requirements tasks st :
  (forall r, In r resources ->
             get (Specialization.resource_hours st) (Resource.id r) <= 0) ->
  Specialization.run resources (Specialization.group_by_type resources)
    requirements tasks st = st.
Proof.
  intros H. induction tasks as [|t ts IH]; [reflexivity|].
  simpl. rewrite one_task_idle by exact H. exact IH.
Qed.

Lemma specialization_run_exit resources requirements tasks :
  (forall t, In t tasks -> 0 <= get requirements (Task.id t)) ->
  forall st,
    Specialization.total_allocated
      (Specialization.run resources (Specialization.group_by_type resources)
         requirements tasks st)
    == Specialization.total_allocated st
       + Qsum (map (fun t => get requirements (Task.id t)) tasks)
    \/ forall r, In r resources ->
         get (Specialization.resource_hours
                (Specialization.run resources
                   (Specialization.group_by_type resources)
                   requirements tasks st))
             (Resource.id r) <= 0.
Proof.
  induction tasks as [|t ts IH]; intros Hpos st; simpl.
  - left. unfold Qsum. simpl. lra.
  - destruct (one_task_total_eq resources
                (Specialization.group_by_type resources) requirements t st
                (Hpos t (or_introl eq_refl))) as [H1 H2].
    destruct (one_task_exit resources (Specialization.group_by_type resources)
                requirements t st) as [Hmet|Hout].
    + destruct (IH (fun t' Ht' => Hpos t' (or_intror Ht'))
                   (snd (Specialization.one_task resources
                           (Specialization.group_by_type resources)
                           requirements t st)))
        as [H|H]; [left|right; exact H].
      rewrite Qsum_cons. lra.
    + right. rewrite specialization_run_idle by exact Hout. exact Hout.
Qed.

Lemma first_pass_tracks task suitable rs :
  forall need st,
    Specialization.total_allocated st
    == Qsum (map hours (Specialization.allocs st)) ->
    Specialization.total_allocated
      (snd (Specialization.first_pass task suitable rs need st))
    == Qsum (map hours
               (Specialization.allocs
                  (snd (Specialization.first_pass task suitable rs need st)))).
Proof.
  induction rs as [|r rs IH]; intros need st H; simpl; [exact H|].
  destruct (Qle_bool need 0); [exact H|].
  destruct (Qltb 0 _); [|apply IH; exact H].
  apply IH. simpl. rewrite Qsum_hours_snoc. simpl. rewrite H. reflexivity.
Qed.

Lemma second_pass_tracks task tried rs :
  forall need st,
    Specialization.total_allocated st
    == Qsum (map hours (Specialization.allocs st)) ->
    Specialization.total_allocated
      (snd (Specialization.second_pass task tried rs need st))
    == Qsum (map hours
               (Specialization.allocs
                  (snd (Specialization.second_pass task tried rs need st)))).
Proof.
  induction rs as [|r rs IH]; intros need st H; simpl; [exact H|].
  destruct (Qle_bool need 0); [exact H|].
  destruct (_ && _); [|apply IH; exact H].
  apply IH. simpl. rewrite Qsum_hours_snoc. simpl. rewrite H. reflexivity.
Qed.

Lemma specialization_run_tracks resources by_type requirements tasks :
  forall st,
    Specialization.total_allocated st
    == Qsum (map hours (Specialization.allocs st)) ->
    Specialization.total_allocated
      (Specialization.run resources by_type requirements tasks st)
    == Qsum (map hours
               (Specialization.allocs
                  (Specialization.run resources by_type requirements tasks st))).
Proof.
  induction tasks as [|t ts IH]; intros st H; simpl; [exact H|].
  apply IH. unfold Specialization.one_task.
  pose proof (first_pass_tracks t (Specialization.suitable_types_of t)
                (Specialization.resources_to_try_of resources by_type
                   (Specialization.suitable_types_of t))
                (get requirements (Task.id t)) st H) as H1.
  destruct (Specialization.first_pass _ _ _ _ _) as [need1 st1].
  simpl in H1. destruct (Qltb 0 need1); [|exact H1].
  apply second_pass_tracks. exact H1.
Qed.

(** X22: with whole numbers of hours the specialization strategy
    allocates exactly the smaller of the total required hours and the
    total available hours, whatever the titles and the types. *)
Theorem specialization_total :
  forall resources tasks,
    input_contract resources tasks ->
    exact_hours resources tasks ->
    Specialization.total_allocated (Specialization.allocate resources tasks)
    == Qmin (total_required tasks) (total_available resources).
Proof.
  intros resources tasks Hc _.
  pose proof (specialization_capacity resources tasks Hc) as Hcap.
  pose proof (specialization_well_formed resources tasks) as Hwf.
  simpl in Hcap, Hwf.
  assert (Htrack :
            Specialization.total_allocated
              (Specialization.allocate resources tasks)
            == Qsum (map hours
                       (Specialization.allocs
                          (Specialization.allocate resources tasks)))).
  { unfold Specialization.allocate. apply specialization_run_tracks.
    reflexivity. }
  destruct Hc as [Hr Ht Ha Hp Hq].
  pose proof (within_capacity_total resources tasks _ Hr Hwf Hcap) as Hle.
  assert (Hreq : Specialization.total_allocated
                   (Specialization.allocate resources tasks)
                 <= total_required tasks).
  { unfold Specialization.allocate.
    eapply Qle_trans;
      [apply specialization_run_total; apply requirements_nonneg; assumption|].
    rewrite sum_requirements_sorted by exact Ht. simpl. lra. }
  unfold Specialization.allocate in *.
  set (st0 := Specialization.mkState _ _ _ _ _) in *.
  destruct (specialization_run_exit resources (requirements_dict tasks)
              (stable_sort priority_size_leb tasks)
              (requirements_nonneg priority_size_leb tasks Ht Hp) st0)
    as [H|H].
  - rewrite sum_requirements_sorted in H by exact Ht. simpl in H.
    rewrite Q.min_l; lra.
  - assert (Hfull : forall r, In r resources ->
               hours_of_resource (Resource.id r)
                 (Specialization.allocs
                    (Specialization.run resources
                       (Specialization.group_by_type resources)
                       (requirements_dict tasks)
                       (stable_sort priority_size_leb tasks) st0))
               == Resource.available_hours r).
    { intros r Hin.
      pose proof (specialization_run_capacity resources
                    (requirements_dict tasks)
                    (stable_sort priority_size_leb tasks) Hr st0
                    (capacity_invariant_init resources Hr Ha) r Hin)
        as [Hpos Hsum].
      specialize (H r Hin). lra. }
    pose proof (fully_committed_total resources tasks _ Hr Hwf Hfull) as Heq.
    rewrite Q.min_r; lra.
Qed.

Lemma specialization_total_witness :
  Specialization.total_allocated
    (Specialization.allocate scenario_resources scenario_tasks)
  == Qmin (total_required scenario_tasks) (total_available scenario_resources).
Proof.
  apply (specialization_total scenario_resources scenario_tasks).
  - exact scenario_contract.
  - exact scenario_exact.
Defined.

(** ** The strategies together, in exact arithmetic *)


(** ** The score of the greedy strategy *)

Lemma greedy_while_loads resources task :
  forall fuel need st st',
    Greedy.while fuel resources task need st = Some st' ->
    (forall k, 0 <= get (Greedy.resource_allocated st) k) ->
    0 <= Greedy.total_allocated st ->
    (forall k, 0 <= get (Greedy.resource_allocated st') k)
    /\ 0 <= Greedy.total_allocated st'.
Proof.
  induction fuel as [|fuel IH]; intros need st st' Hw Hl Ht; [discriminate|].
  simpl in Hw. destruct (Qltb 0 need); [|injection Hw as <-; split; assumption].
  unfold Greedy.body in Hw.
  destruct (Greedy.available_resources resources st) as [|r l];
    [injection Hw as <-; split; assumption|].
  set (best := max_by _ r l) in Hw.
  destruct (Qltb 0.1 _) eqn:Eh; [|apply (IH _ _ _ Hw Hl Ht)].
  apply Qltb_lt in Eh. apply (IH _ _ _ Hw); simpl.
  - intros k. destruct (Z.eq_dec (Resource.id best) k) as [<-|Hne].
    + rewrite get_insert_eq. specialize (Hl (Resource.id best)). lra.
    + rewrite get_insert_ne by exact Hne. apply Hl.
  - lra.
Qed.

Lemma greedy_run_loads resources requirements fuel tasks :
  forall st st',
    Greedy.run fuel resources requirements tasks st = Some st' ->
    (forall k, 0 <= get (Greedy.resource_allocated st) k) ->
    0 <= Greedy.total_allocated st ->
    (forall k, 0 <= get (Greedy.resource_allocated st') k)
    /\ 0 <= Greedy.total_allocated st'.
Proof.
  induction tasks as [|t ts IH]; intros st st' Hrun Hl Ht; simpl in Hrun.
  - injection Hrun as <-. split; assumption.
  - destruct (Greedy.while fuel resources t _ st) as [st1|] eqn:E;
      [|discriminate].
    destruct (greedy_while_loads _ _ _ _ _ _ E Hl Ht) as [H1 H2].
    apply (IH _ _ Hrun H1 H2).
Qed.

Lemma hours_of_task_nonneg resources tasks tid allocs :
  Forall (well_formed resources tasks) allocs -> 0 <= hours_of_task tid allocs.
Proof.
  intros H. unfold hours_of_task. apply Qsum_nonneg. apply List.Forall_map.
  apply List.Forall_forall. intros a Ha. apply filter_In in Ha as [Ha _].
  rewrite List.Forall_forall in H. destruct (H a Ha) as (_ & _ & Hh).
  apply Qlt_le_weak. exact Hh.
Qed.

Lemma weighted_unit_range (p : Z) m :
  (1 <= p <= 5)%Z -> 0 <= m <= 1 -> 0 <= inject_Z (6 - p) * m <= 5.
Proof.
  intros Hp [Hm0 Hm1].
  assert (Hw : 1 <= inject_Z (6 - p) <= 5).
  { change 1 with (inject_Z 1). change 5 with (inject_Z 5).
    rewrite <- !Zle_Qle. lia. }
  split.
  - apply Qmult_le_0_compat; lra.
  - eapply Qle_trans; [apply Qmult_le_compat_r; [apply Hw|exact Hm0]|]. lra.
Qed.

Lemma Qmin_unit_range x : 0 <= x -> 0 <= Qmin 1 x <= 1.
Proof.
  intros H. split; [|apply Q.le_min_l]. apply Q.min_glb; lra.
Qed.

(** X24: with whole numbers of hours, when the greedy strategy returns,
    its coverage and its efficiency lie between 0 and 1, its priority
    coverage between 0 and 5, and its score between 0 and 150. *)
Theorem greedy_score_range :
  forall fuel resources tasks st,
    input_contract resources tasks ->
    exact_hours resources tasks ->
    Greedy.allocate fuel resources tasks = Some st ->
    0 <= Greedy.coverage tasks st <= 1
    /\ 0 <= Greedy.efficiency resources st <= 1
    /\ 0 <= Greedy.priority_coverage tasks st <= 5
    /\ 0 <= Greedy.score_of resources tasks st <= 150.
Proof.
  intros fuel resources tasks st Hc _ Hrun.
  destruct (greedy_allocate_invariant _ _ _ _ Hc Hrun) as [_ Hcov].
  destruct Hc as [Hr Ht Ha Hp Hq].
  assert (Hwf : Forall (well_formed resources tasks) (Greedy.allocs st)).
  { unfold Greedy.allocate in Hrun.
    apply (greedy_run_well_formed _ _ _ _ _ (sorted_incl _ tasks) _ _ Hrun).
    constructor. }
  assert (Hl : (forall k, 0 <= get (Greedy.resource_allocated st) k)
               /\ 0 <= Greedy.total_allocated st).
  { unfold Greedy.allocate in Hrun.
    apply (greedy_run_loads _ _ _ _ _ _ Hrun); simpl; [|lra].
    intros k. rewrite zero_dict_get. lra. }
  destruct Hl as [Hl Htot].
  assert (H1 : 0 <= Greedy.coverage tasks st <= 1).
  { split; [apply coverage_of_nonneg; exact Htot|exact Hcov]. }
  assert (H2 : 0 <= Greedy.efficiency resources st <= 1).
  { unfold Greedy.efficiency. destruct resources as [|r0 rs]; [split; lra|].
    set (resources := r0 :: rs) in *.
    set (f := fun r => Qmin 1 (get (Greedy.resource_allocated st) (Resource.id r)
                               / Resource.available_hours r)).
    set (kept := List.filter _ resources).
    assert (Hf : forall r, In r kept -> 0 <= f r <= 1).
    { intros r Hin. apply filter_In in Hin as [_ Hpos]. apply Qltb_lt in Hpos.
      apply Qmin_unit_range. apply Qle_shift_div_l; [exact Hpos|].
      specialize (Hl (Resource.id r)). lra. }
    destruct (Qsum_map_bounds f 0 1 kept Hf) as [Hlo Hhi].
    pose proof (length_pos_Q resources ltac:(discriminate)) as Hn.
    assert (Hlen : inject_Z (Z.of_nat (length kept))
                   <= inject_Z (Z.of_nat (length resources))).
    { rewrite <- Zle_Qle. apply Nat2Z.inj_le. apply filter_length_le. }
    split.
    - apply Qle_shift_div_l; [exact Hn|]. lra.
    - apply Qle_shift_div_r; [exact Hn|]. lra. }
  assert (H3 : 0 <= Greedy.priority_coverage tasks st <= 5).
  { unfold Greedy.priority_coverage. destruct tasks as [|t0 ts]; [split; lra|].
    set (tasks := t0 :: ts) in *.
    apply mean_bounds.
    - intros t Hin. apply sorted_In in Hin.
      rewrite (requirements_dict_get tasks t Ht Hin).
      rewrite List.Forall_forall in Hp, Hq.
      specialize (Hp t Hin). specialize (Hq t Hin).
      apply weighted_unit_range; [exact Hq|].
      apply Qmin_unit_range. apply Qle_shift_div_l; [exact Hp|].
      pose proof (hours_of_task_nonneg resources tasks (Task.id t) _ Hwf). lra.
    - intros E. apply (f_equal (@length _)) in E.
      rewrite <- (Permutation_length (stable_sort_perm priority_size_leb tasks))
        in E.
      discriminate.
    - rewrite <- (Permutation_length (stable_sort_perm priority_size_leb tasks)).
      reflexivity. }
  split; [exact H1|]. split; [exact H2|]. split; [exact H3|].
  unfold Greedy.score_of. split; lra.
Qed.

Lemma greedy_score_range_witness :
  exists st,
    Greedy.allocate 5 scenario_resources scenario_tasks = Some st
    /\ 0 <= Greedy.score_of scenario_resources scenario_tasks st <= 150.
Proof.
  eexists. split; [vm_compute; reflexivity|].
  eapply (greedy_score_range 5 scenario_resources scenario_tasks);
    [exact scenario_contract|exact scenario_exact|vm_compute; reflexivity].
Defined.

(** ** The score of the specialization strategy *)













(** * Whole numbers of hours *)

Lemma whole_iff q : whole q <-> exists z, q == inject_Z z.
Proof.
  unfold whole. split.
  - intros H. exists (Qfloor q). symmetry. exact H.
  - intros [z H].
    assert (E : Qfloor q = z) by (rewrite (Qfloor_comp _ _ H); apply Qfloor_Z).
    rewrite E. symmetry. exact H.
Qed.

Lemma whole_0 : whole 0.
Proof. apply whole_iff. exists 0%Z. reflexivity. Qed.

Lemma whole_minus a b : whole a -> whole b -> whole (a - b).
Proof.
  intros Ha Hb. apply whole_iff in Ha as [x Hx]. apply whole_iff in Hb as [y Hy].
  apply whole_iff. exists (x - y)%Z. rewrite Hx, Hy. unfold Z.sub.
  rewrite inject_Z_plus, inject_Z_opp. reflexivity.
Qed.

Lemma whole_min a b : whole a -> whole b -> whole (Qmin a b).
Proof.
  intros Ha Hb. apply whole_iff in Ha as [x Hx]. apply whole_iff in Hb as [y Hy].
  apply whole_iff.
  destruct (Q.min_spec a b) as [[_ E]|[_ E]];
    [exists x; rewrite E; exact Hx|exists y; rewrite E; exact Hy].
Qed.

Lemma whole_insert (m : gmap Z Q) k v :
  whole v -> (forall j, whole (get m j)) ->
  forall j, whole (get (<[k := v]> m) j).
Proof.
  intros Hv Hm j. destruct (Z.eq_dec k j) as [<-|Hne].
  - rewrite get_insert_eq. exact Hv.
  - rewrite get_insert_ne by exact Hne. apply Hm.
Qed.

Lemma get_empty k : get ∅ k = 0.
Proof. unfold get. rewrite lookup_empty. reflexivity. Qed.

Lemma hours_dict_whole resources :
  Forall (fun r => whole (Resource.available_hours r)) resources ->
  forall k, whole (get (hours_dict resources) k).
Proof.
  unfold hours_dict. induction resources as [|r rs IH] using rev_ind; intros H k.
  - simpl. rewrite get_empty. exact whole_0.
  - apply List.Forall_app in H as [Hrs Hr]. inversion Hr as [|? ? Hw _]; subst.
    rewrite List.fold_left_app. simpl. apply whole_insert; [exact Hw|].
    apply IH. exact Hrs.
Qed.

Lemma requirements_dict_whole tasks :
  Forall (fun t => whole (Task.required_hours t)) tasks ->
  forall k, whole (get (requirements_dict tasks) k).
Proof.
  unfold requirements_dict. induction tasks as [|t ts IH] using rev_ind;
    intros H k.
  - simpl. rewrite get_empty. exact whole_0.
  - apply List.Forall_app in H as [Hts Ht]. inversion Ht as [|? ? Hw _]; subst.
    rewrite List.fold_left_app. simpl. apply whole_insert; [exact Hw|].
    apply IH. exact Hts.
Qed.

Lemma whole_snoc allocs rid tid h :
  Forall (fun a => whole (hours a)) allocs -> whole h ->
  Forall (fun a => whole (hours a)) (allocs ++ [mkAlloc rid tid h]).
Proof.
  intros Hl Hh. apply List.Forall_app. split; [exact Hl|].
  constructor; [exact Hh|constructor].
Qed.

Lemma priority_walk_whole task rs :
  forall need st,
    whole need ->
    (forall k, whole (get (Priority.resource_hours st) k)) ->
    Forall (fun a => whole (hours a)) (Priority.allocs st) ->
    (forall k, whole (get (Priority.resource_hours
                             (snd (Priority.walk task rs need st))) k))
    /\ Forall (fun a => whole (hours a))
              (Priority.allocs (snd (Priority.walk task rs need st))).
Proof.
  induction rs as [|r rs IH]; intros need st Hn Hd Ha; simpl;
    [split; assumption|].
  destruct (Qle_bool need 0); [split; assumption|].
  destruct (Qltb 0 _); [|apply IH; assumption].
  pose proof (whole_min _ _ Hn (Hd (Resource.id r))) as Hh.
  apply IH; simpl.
  - apply whole_minus; assumption.
  - apply whole_insert; [apply whole_minus; [apply Hd|exact Hh]|exact Hd].
  - apply whole_snoc; assumption.
Qed.

Lemma priority_run_whole resources requirements tasks :
  (forall k, whole (get requirements k)) ->
  forall st,
    (forall k, whole (get (Priority.resource_hours st) k)) ->
    Forall (fun a => whole (hours a)) (Priority.allocs st) ->
    Forall (fun a => whole (hours a))
           (Priority.allocs (Priority.run resources requirements tasks st)).
Proof.
  intros Hreq. induction tasks as [|t ts IH]; intros st Hd Ha; simpl;
    [exact Ha|].
  destruct (priority_walk_whole t resources _ st (Hreq (Task.id t)) Hd Ha)
    as [Hd' Ha'].
  apply IH; assumption.
Qed.

Lemma first_pass_whole task types rs :
  forall need st,
    whole need ->
    (forall k, whole (get (Specialization.resource_hours st) k)) ->
    Forall (fun a => whole (hours a)) (Specialization.allocs st) ->
    whole (fst (Specialization.first_pass task types rs need st))
    /\ (forall k, whole (get (Specialization.resource_hours
                                (snd (Specialization.first_pass
                                        task types rs need st))) k))
    /\ Forall (fun a => whole (hours a))
              (Specialization.allocs
                 (snd (Specialization.first_pass task types rs need st))).
Proof.
  induction rs as [|r rs IH]; intros need st Hn Hd Ha; simpl;
    [repeat split; assumption|].
  destruct (Qle_bool need 0); [repeat split; assumption|].
  destruct (Qltb 0 _); [|apply IH; assumption].
  pose proof (whole_min _ _ Hn (Hd (Resource.id r))) as Hh.
  apply IH; simpl.
  - apply whole_minus; assumption.
  - apply whole_insert; [apply whole_minus; [apply Hd|exact Hh]|exact Hd].
  - apply whole_snoc; assumption.
Qed.

Lemma second_pass_whole task tried rs :
  forall need st,
    whole need ->
    (forall k, whole (get (Specialization.resource_hours st) k)) ->
    Forall (fun a => whole (hours a)) (Specialization.allocs st) ->
    (forall k, whole (get (Specialization.resource_hours
                             (snd (Specialization.second_pass
                                     task tried rs need st))) k))
    /\ Forall (fun a => whole (hours a))
              (Specialization.allocs
                 (snd (Specialization.second_pass task tried rs need st))).
Proof.
  induction rs as [|r rs IH]; intros need st Hn Hd Ha; simpl;
    [split; assumption|].
  destruct (Qle_bool need 0); [split; assumption|].
  destruct (Qltb 0 _ && _); [|apply IH; assumption].
  pose proof (whole_min _ _ Hn (Hd (Resource.id r))) as Hh.
  apply IH; simpl.
  - apply whole_minus; assumption.
  - apply whole_insert; [apply whole_minus; [apply Hd|exact Hh]|exact Hd].
  - apply whole_snoc; assumption.
Qed.

Lemma specialization_run_whole resources by_type requirements tasks :
  (forall k, whole (get requirements k)) ->
  forall st,
    (forall k, whole (get (Specialization.resource_hours st) k)) ->
    Forall (fun a => whole (hours a)) (Specialization.allocs st) ->
    Forall (fun a => whole (hours a))
           (Specialization.allocs
              (Specialization.run resources by_type requirements tasks st)).
Proof.
  intros Hreq. induction tasks as [|t ts IH]; intros st Hd Ha; simpl;
    [exact Ha|].
  unfold Specialization.one_task.
  pose proof (first_pass_whole t (Specialization.suitable_types_of t)
                (Specialization.resources_to_try_of resources by_type
                   (Specialization.suitable_types_of t))
                _ st (Hreq (Task.id t)) Hd Ha) as (Hn1 & Hd1 & Ha1).
  destruct (Specialization.first_pass _ _ _ _ st) as [need st1].
  simpl in Hn1, Hd1, Ha1.
  destruct (Qltb 0 need); [|apply IH; assumption].
  destruct (second_pass_whole t
              (Specialization.resources_to_try_of resources by_type
                 (Specialization.suitable_types_of t))
              resources need st1 Hn1 Hd1 Ha1) as [Hd2 Ha2].
  apply IH; assumption.
Qed.

Lemma greedy_while_whole resources task :
  forall fuel need st st',
    Greedy.while fuel resources task need st = Some st' ->
    whole need ->
    (forall k, whole (get (Greedy.resource_hours st) k)) ->
    Forall (fun a => whole (hours a)) (Greedy.allocs st) ->
    (forall k, whole (get (Greedy.resource_hours st') k))
    /\ Forall (fun a => whole (hours a)) (Greedy.allocs st').
Proof.
  induction fuel as [|fuel IH]; intros need st st' Hw Hn Hd Ha; [discriminate|].
  simpl in Hw. destruct (Qltb 0 need); [|injection Hw as <-; split; assumption].
  unfold Greedy.body in Hw.
  destruct (Greedy.available_resources resources st) as [|r l];
    [injection Hw as <-; split; assumption|].
  set (best := max_by _ r l) in Hw.
  pose proof (whole_min _ _ Hn (Hd (Resource.id best))) as Hh.
  destruct (Qltb 0.1 _); [|apply (IH _ _ _ Hw); assumption].
  apply (IH _ _ _ Hw); simpl.
  - apply whole_minus; assumption.
  - apply whole_insert; [apply whole_minus; [apply Hd|exact Hh]|exact Hd].
  - apply whole_snoc; assumption.
Qed.

Lemma greedy_run_whole fuel resources requirements tasks :
  (forall k, whole (get requirements k)) ->
  forall st st',
    Greedy.run fuel resources requirements tasks st = Some st' ->
    (forall k, whole (get (Greedy.resource_hours st) k)) ->
    Forall (fun a => whole (hours a)) (Greedy.allocs st) ->
    Forall (fun a => whole (hours a)) (Greedy.allocs st').
Proof.
  intros Hreq. induction tasks as [|t ts IH]; intros st st' Hrun Hd Ha;
    simpl in Hrun.
  - injection Hrun as <-. exact Ha.
  - destruct (Greedy.while fuel resources t _ st) as [st1|] eqn:E;
      [|discriminate].
    destruct (greedy_while_whole _ _ _ _ _ _ E (Hreq (Task.id t)) Hd Ha)
      as [Hd1 Ha1].
    apply (IH _ _ Hrun); assumption.
Qed.

(** X27: with whole numbers of hours the priority, the specialization and
    the greedy strategy commit whole numbers of hours only: every
    minimum and every difference they compute stays a whole number, where
    floating point is exact. *)
Theorem exact_hours_commit_whole :
  forall resources tasks,
    exact_hours resources tasks ->
    Forall (fun a => whole (hours a))
           (allocations (Priority._priority_based_allocation resources tasks))
    /\ Forall (fun a => whole (hours a))
              (allocations
                 (Specialization._specialization_based_allocation
                    resources tasks))
    /\ forall fuel alt,
         Greedy._greedy_optimized_allocation fuel resources tasks = Some alt ->
         Forall (fun a => whole (hours a)) (allocations alt).
Proof.
  intros resources tasks [Ha Hr _].
  pose proof (hours_dict_whole resources Ha) as Hd.
  pose proof (requirements_dict_whole tasks Hr) as Hq.
  split; [|split].
  - simpl. unfold Priority.allocate.
    apply priority_run_whole; [exact Hq|exact Hd|constructor].
  - simpl. unfold Specialization.allocate.
    apply specialization_run_whole; [exact Hq|exact Hd|constructor].
  - intros fuel alt H. unfold Greedy._greedy_optimized_allocation in H.
    destruct (Greedy.allocate fuel resources tasks) as [st|] eqn:E;
      [|discriminate].
    injection H as <-. simpl. unfold Greedy.allocate in E.
    apply (greedy_run_whole _ _ _ _ Hq _ _ E); [exact Hd|constructor].
Qed.

Lemma exact_hours_commit_whole_witness :
  Forall (fun a => whole (hours a))
         (allocations (Priority._priority_based_allocation
                         scenario_resources scenario_tasks)).
Proof.
  apply (exact_hours_commit_whole scenario_resources scenario_tasks).
  exact scenario_exact.
Defined.

(** * Single commitments *)

(** ** A commitment against the need of its task *)














(** ** A commitment against the hours of its resource *)






